(** * The self-tuning memcpy of utils/memcpy-bench/memcpy-bench.cpp

    A shallow embedding of [VariantWithStatistics],
    [MultipleVariantsWithStatistics] (the adaptive dispatcher) and
    [memcpy_selftuned], then of the kernels written in C++
    ([memcpy_trivial], [memcpy_erms], the [memcpySSE2] family, [memcpy_my],
    [memcpy_my2]) and in assembly (the [memcpy_medium_*_forward] kernels),
    and of the benchmark around them ([loop], [test]),
    followed by the properties of the dispatcher, of the kernels and of the
    benchmark.

    Conventions.
    - [size_t] values are [Z] in [0, 2^64); every arithmetic result that the
      source stores into a [size_t] is reduced with [size_t].  [UInt32]
      likewise with [UInt32].
    - [double] is IEEE 754 binary64, computed with the executable
      specification [SpecFloat] of the standard library (round to nearest,
      ties to even).
    - Memory is a map from addresses to bytes.  The sixteen copy kernels are
      opaque function pointers: their effect on memory is a parameter
      ([KernelSemantics]); which kernel is called, and what is printed on
      [std::cerr], is recorded in a trace of events.
    - The two [rdtsc()] readings of an exploration are inputs of the step.
    - The model of the dispatcher is sequential: atomics are plain fields.
    - An aligned vector store ([_mm_store_si128], [vmovaps]) to an address
      that is not aligned faults: the kernel does not return.
    - An [__asm__] statement that is not [volatile] and whose outputs no
      later statement reads may be deleted by the compiler: whether such
      statements are executed is a parameter ([asm_kept]) of the kernels
      that have them.
    - The chunk sizes that [loop] draws from its generator are an input, the
      list of the values drawn; the threads of [test] run interleaved, one
      call of the implementation at a time, in an order that is an input
      too. *)

From Stdlib Require Import ZArith QArith Qround List Bool Lia.
From Stdlib Require Import Floats.SpecFloat Strings.Byte.
From stdpp Require Import base list.

Open Scope Z_scope.

(** ** Machine integers *)

Definition size_t (z : Z) : Z := z mod 2 ^ 64.
Definition UInt32 (z : Z) : Z := z mod 2 ^ 32.

(** ** IEEE double precision *)

Module Double.

Definition prec : Z := 53.
Definition emax : Z := 1024.

Definition t := spec_float.

(** A literal [m * 2^e]. *)
Definition lit (m e : Z) : t := binary_normalize prec emax m e false.

(** Conversion [size_t -> double] (rounds when the value needs more than
    53 bits). *)
Definition of_size_t (n : Z) : t := binary_normalize prec emax n 0 false.

Definition add : t -> t -> t := SFadd prec emax.
Definition sub : t -> t -> t := SFsub prec emax.
Definition mul : t -> t -> t := SFmul prec emax.
Definition div : t -> t -> t := SFdiv prec emax.
Definition sqrt : t -> t := SFsqrt prec emax.
Definition ltb : t -> t -> bool := SFltb.

Definition is_nan (x : t) : bool :=
  match x with S754_nan => true | _ => false end.

(** Conversion [double -> size_t]: truncation toward zero.  It is defined
    by C++ only when the truncated value fits [size_t]; [None] is the
    undefined case. *)
Definition to_size_t (x : t) : option Z :=
  match x with
  | S754_zero _ => Some 0
  | S754_finite s m e =>
      let n := if 0 <=? e then Z.shiftl (Z.pos m) e
               else Z.shiftr (Z.pos m) (- e) in
      if s then (if n =? 0 then Some 0 else None)
      else if n <? 2 ^ 64 then Some n else None
  | S754_infinity _ | S754_nan => None
  end.

End Double.

(** ** Kernels, memory, events *)

(** [memcpy_type]: the function pointers stored in the registry. *)
Inductive memcpy_type :=
| memcpy
| memcpy_erms
| memcpy_fast_sse
| memcpy_fast_avx
| __memcpy_avx_unaligned
| __memcpy_avx_unaligned_erms
| __memcpy_ssse3
| __memcpy_ssse3_back
| memcpy_trivial
| memcpy_medium_avx_forward2
| memcpySSE2
| memcpySSE2Unrolled2
| memcpySSE2Unrolled4
| memcpySSE2Unrolled8
| memcpy_medium_sse_forward
| memcpy_medium_avx_forward.

Definition memory := Z -> Byte.byte.

(** What calling a kernel does: new memory and returned pointer. *)
Class KernelSemantics :=
  exec : memcpy_type -> memory -> Z -> Z -> Z -> memory * Z.

Inductive event :=
| Invoke (f : memcpy_type) (dst src size : Z)
| Cerr (kind : Z).

(** ** struct VariantWithStatistics *)

Module VariantWithStatistics.

Record t := mk {
  func : memcpy_type;
  time : Z;
  bytes : Z;
  count : Z;
  kind : Z
}.

(** Less is better. *)
Definition score (v : t) : Double.t :=
  let loaded_time := Double.of_size_t (time v) in
  let loaded_bytes := Double.of_size_t (bytes v) in
  let loaded_count := Double.of_size_t (count v) in
  let mean := Double.div loaded_time loaded_bytes in
  let sigma := Double.div mean (Double.sqrt loaded_count) in
  Double.add mean sigma.

Definition smooth (v : t) : t :=
  mk (func v)
     (size_t (1 + time v / 2))
     (size_t (1 + bytes v / 2))
     (size_t (1 + count v / 2))
     (kind v).

(** The constructor: statistics start at zero. *)
Definition new (kind_ : Z) (func_ : memcpy_type) : t :=
  mk func_ 0 0 0 kind_.

(** The statistics update of [explore] (inside [if (time < size)]):
    [++variant.count; variant.bytes += size; variant.time += time]. *)
Definition add_sample (time_ size_ : Z) (v : t) : t :=
  mk (func v)
     (size_t (time v + time_))
     (size_t (bytes v + size_))
     (size_t (count v + 1))
     (kind v).

End VariantWithStatistics.

(** ** struct MultipleVariantsWithStatistics *)

Module MultipleVariantsWithStatistics.

Record t := mk {
  selected_variant : memcpy_type;
  variants : list VariantWithStatistics.t;
  count : Z;
  exploration_count : Z;
  exploration_probability_threshold : Z
}.

Definition num_cells : Z := 16.
Definition probability_distribution_buckets : Z := 256.
Definition num_explorations_before_optimize : Z := 256.

(** The default member initialisers. *)
Definition init : t :=
  mk memcpy
     [ VariantWithStatistics.new 1 memcpy;
       VariantWithStatistics.new 4 memcpy_erms;
       VariantWithStatistics.new 10 memcpy_fast_sse;
       VariantWithStatistics.new 11 memcpy_fast_avx;
       VariantWithStatistics.new 25 __memcpy_avx_unaligned;
       VariantWithStatistics.new 26 __memcpy_avx_unaligned_erms;
       VariantWithStatistics.new 23 __memcpy_ssse3;
       VariantWithStatistics.new 24 __memcpy_ssse3_back;
       VariantWithStatistics.new 2 memcpy_trivial;
       VariantWithStatistics.new 31 memcpy_medium_avx_forward2;
       VariantWithStatistics.new 6 memcpySSE2;
       VariantWithStatistics.new 7 memcpySSE2Unrolled2;
       VariantWithStatistics.new 8 memcpySSE2Unrolled4;
       VariantWithStatistics.new 9 memcpySSE2Unrolled8;
       VariantWithStatistics.new 32 memcpy_medium_sse_forward;
       VariantWithStatistics.new 33 memcpy_medium_avx_forward ]
     0 0 0.

(** What a call returns: the new dispatcher, the new memory, the returned
    pointer and the events of the call. *)
Record result := Result {
  state : t;
  mem : memory;
  ret : Z;
  trace : list event
}.

(** [hash = n; hash *= 0xff51afd7ed558ccdULL; hash ^= hash >> 33]. *)
Definition hash (n : Z) : Z :=
  let hash := n in
  let hash := size_t (hash * 0xff51afd7ed558ccd) in
  Z.lxor hash (Z.shiftr hash 33).

(** The new threshold computed at a reoptimization, as a [double] before
    its conversion to [size_t]. *)
Definition threshold_as_double (threshold : Z) : Double.t :=
  let exploration_probability :=
    Double.sub (Double.lit 1 0)
      (Double.div (Double.of_size_t threshold)
                  (Double.of_size_t probability_distribution_buckets)) in
  let exploration_probability :=
    Double.div exploration_probability (Double.lit 3 (-1)) in
  Double.mul (Double.of_size_t probability_distribution_buckets)
    (Double.sub (Double.lit 1 0) exploration_probability).

(** [std::min<size_t>(probability_distribution_buckets - 1, ...)].  Where
    the conversion of the [double] is undefined the model keeps the first
    argument of [std::min]; [threshold_conversion_defined] shows that this
    never happens for a threshold in [0, 255]. *)
Definition next_threshold (threshold : Z) : Z :=
  match Double.to_size_t (threshold_as_double threshold) with
  | Some n => Z.min (probability_distribution_buckets - 1) n
  | None => probability_distribution_buckets - 1
  end.

(** One iteration of the scan [for (i = 0; i < num_cells; ++i)]: the
    accumulator is [(variants, best_variant, best_score)]. *)
Definition scan_step (acc : list VariantWithStatistics.t * nat * Double.t)
    (i : nat) : list VariantWithStatistics.t * nat * Double.t :=
  let '(vs, best_variant, best_score) := acc in
  match vs !! i with
  | Some v =>
      let score := VariantWithStatistics.score v in
      let vs := <[i := VariantWithStatistics.smooth v]> vs in
      if Double.ltb score best_score then (vs, i, score)
      else (vs, best_variant, best_score)
  | None => acc
  end.

Definition scan (vs : list VariantWithStatistics.t)
  : list VariantWithStatistics.t * nat * Double.t :=
  foldl scan_step (vs, 0%nat, Double.lit 1000000000 0)
        (seq 0 (Z.to_nat num_cells)).

(** The body of [if (current_exploration_count ==
    num_explorations_before_optimize)]; returns the new dispatcher and
    what is written to [std::cerr]. *)
Definition reoptimize (s : t) : t * list event :=
  let threshold := next_threshold (exploration_probability_threshold s) in
  let '(vs, best_variant, _) := scan (variants s) in
  match vs !! best_variant with
  | Some best =>
      (mk (VariantWithStatistics.func best) vs (count s) 0 threshold,
       [Cerr (VariantWithStatistics.kind best)])
  | None => (mk (selected_variant s) vs (count s) 0 threshold, [])
  end.

Section Calls.
Context `{KernelSemantics}.

Definition explore (s : t) (m : memory) (time1 time2 : Z)
    (dst src size : Z) : result :=
  let current_exploration_count := exploration_count s in
  let s := mk (selected_variant s) (variants s) (count s)
              (size_t (current_exploration_count + 1))
              (exploration_probability_threshold s) in
  let i := Z.to_nat (hash current_exploration_count mod num_cells) in
  match variants s !! i with
  | None => Result s m dst []
  | Some variant =>
      let '(m, ret) :=
        exec (VariantWithStatistics.func variant) m dst src size in
      let called := Invoke (VariantWithStatistics.func variant) dst src size in
      let time := UInt32 (time2 - time1) in
      let s :=
        if time <? size then
          mk (selected_variant s)
             (alter (VariantWithStatistics.add_sample time size) i
                    (variants s))
             (count s) (exploration_count s)
             (exploration_probability_threshold s)
        else s in
      if current_exploration_count =? num_explorations_before_optimize
      then
        let '(s, printed) := reoptimize s in
        Result s m ret (called :: printed)
      else Result s m ret [called]
  end.

Definition call (s : t) (m : memory) (time1 time2 : Z)
    (dst src size : Z) : result :=
  let current_count := count s in
  let s := mk (selected_variant s) (variants s)
              (size_t (current_count + 1))
              (exploration_count s)
              (exploration_probability_threshold s) in
  if current_count mod probability_distribution_buckets
       <? exploration_probability_threshold s
  then
    (* Exploitation mode. *)
    let f := selected_variant s in
    let '(m, ret) := exec f m dst src size in
    Result s m ret [Invoke f dst src size]
  else
    (* Exploration mode. *)
    explore s m time1 time2 dst src size.

End Calls.

End MultipleVariantsWithStatistics.

(** ** memcpy_selftuned *)

(** [MultipleVariantsWithStatistics variants;] the process-wide dispatcher,
    in its initial state. *)
Definition variants : MultipleVariantsWithStatistics.t :=
  MultipleVariantsWithStatistics.init.

(** Reading and writing [n] consecutive bytes. *)
Definition load (m : memory) (p : Z) (n : nat) : list Byte.byte :=
  (fun i => m (p + Z.of_nat i)) <$> seq 0 n.

Definition store (m : memory) (p : Z) (bs : list Byte.byte) : memory :=
  fun a =>
    if p <=? a then
      match bs !! Z.to_nat (a - p) with
      | Some b => b
      | None => m a
      end
    else m a.

(** [__builtin_memcpy(dst, src, n)] for a constant [n], and
    [_mm_storeu_si128(dst, _mm_loadu_si128(src))] for [n = 16]: the bytes are
    read, then written. *)
Definition copy_block (m : memory) (dst src : Z) (n : nat) : memory :=
  store m dst (load m src n).

(** [while (size > 16) { copy 16 bytes; dst += 16; src += 16; size -= 16; }]
    [None] when the fuel does not suffice. *)
Fixpoint copy_tail (fuel : nat) (m : memory) (dst src size : Z)
  : option memory :=
  match fuel with
  | O => if 16 <? size then None else Some m
  | S fuel =>
      if 16 <? size then
        copy_tail fuel (copy_block m dst src 16) (dst + 16) (src + 16)
                  (size - 16)
      else Some m
  end.

(** [while (size >= 128) { c0..c7 = 8 loads; src += 128; 8 stores;
    dst += 128; size -= 128; }] returning the memory and the advanced
    [dst], [src], [size]. *)
Fixpoint copy_unrolled (fuel : nat) (m : memory) (dst src size : Z)
  : option (memory * Z * Z * Z) :=
  match fuel with
  | O => if 128 <=? size then None else Some (m, dst, src, size)
  | S fuel =>
      if 128 <=? size then
        copy_unrolled fuel (copy_block m dst src 128) (dst + 128) (src + 128)
                      (size - 128)
      else Some (m, dst, src, size)
  end.

(** The branch [size <= 16] of [memcpy_selftuned]. *)
Definition copy_upto16 (m : memory) (dst src size : Z) : memory :=
  if 8 <=? size then
    let m := copy_block m (dst + size - 8) (src + size - 8) 8 in
    copy_block m dst src 8
  else if 4 <=? size then
    let m := copy_block m (dst + size - 4) (src + size - 4) 4 in
    copy_block m dst src 4
  else if 2 <=? size then
    let m := copy_block m (dst + size - 2) (src + size - 2) 2 in
    copy_block m dst src 2
  else if 1 <=? size then
    store m dst [m src]
  else m.

(** The branch [size <= 128]. *)
Definition copy_upto128 (m : memory) (dst src size : Z) : option memory :=
  let m := copy_block m (dst + size - 16) (src + size - 16) 16 in
  copy_tail (Z.to_nat size) m dst src size.

(** The branch [size < 30000]. *)
Definition copy_below30000 (m : memory) (dst src size : Z) : option memory :=
  let fuel := Z.to_nat size in
  (* Align destination to 16 bytes boundary. *)
  let padding := Z.land (16 - Z.land dst 15) 15 in
  let '(m, dst, src, size) :=
    if 0 <? padding then
      (copy_block m dst src 16, dst + padding, src + padding, size - padding)
    else (m, dst, src, size) in
  (* Aligned unrolled copy. *)
  match copy_unrolled fuel m dst src size with
  | None => None
  | Some (m, dst, src, size) =>
      let m := copy_block m (dst + size - 16) (src + size - 16) 16 in
      copy_tail fuel m dst src size
  end.

Section Selftuned.
Context `{KernelSemantics}.

(** [memcpy_selftuned], with the global dispatcher passed as [s].  The
    result is [None] only if a loop runs out of fuel. *)
Definition memcpy_selftuned (s : MultipleVariantsWithStatistics.t)
    (m : memory) (time1 time2 : Z) (dst src size : Z)
  : option MultipleVariantsWithStatistics.result :=
  let ret := dst in
  let inline (m : memory) :=
    MultipleVariantsWithStatistics.Result s m ret [] in
  if size <=? 16 then
    Some (inline (copy_upto16 m dst src size))
  else if size <=? 128 then
    inline <$> copy_upto128 m dst src size
  else if size <? 30000 then
    inline <$> copy_below30000 m dst src size
  else
    Some (MultipleVariantsWithStatistics.call s m time1 time2 dst src size).

(** A workload: the arguments of one call of the dispatcher together with
    the two cycle-counter readings the call would see. *)
Record request := Request {
  r_dst : Z;
  r_src : Z;
  r_size : Z;
  r_time1 : Z;
  r_time2 : Z
}.

Definition serve (s : MultipleVariantsWithStatistics.t) (m : memory)
    (r : request) : MultipleVariantsWithStatistics.result :=
  MultipleVariantsWithStatistics.call s m
    (r_time1 r) (r_time2 r) (r_dst r) (r_src r) (r_size r).

(** Sequential execution of a workload on the dispatcher; the traces of the
    calls are concatenated. *)
Fixpoint run (s : MultipleVariantsWithStatistics.t) (m : memory)
    (rs : list request)
  : MultipleVariantsWithStatistics.t * memory * list event :=
  match rs with
  | [] => (s, m, [])
  | r :: rs =>
      let o := serve s m r in
      let '(s', m', tr) :=
        run (MultipleVariantsWithStatistics.state o)
            (MultipleVariantsWithStatistics.mem o) rs in
      (s', m', MultipleVariantsWithStatistics.trace o ++ tr)
  end.

End Selftuned.

(** A reference semantics for the kernels, following their contract: copy
    [size] bytes and return the destination. *)
Definition reference_kernels : KernelSemantics :=
  fun _ m dst src size =>
    (fun a => if (dst <=? a) && (a <? dst + size) then m (src + (a - dst))
              else m a,
     dst).

(** ** Vocabulary of the properties *)

(** The values a [size_t] can hold. *)
Definition is_size_t (z : Z) : Prop := 0 <= z < 2 ^ 64.

Definition tracker_in_range (v : VariantWithStatistics.t) : Prop :=
  is_size_t (VariantWithStatistics.time v) /\
  is_size_t (VariantWithStatistics.bytes v) /\
  is_size_t (VariantWithStatistics.count v).

(** The shape every dispatcher has: sixteen cells, fields that fit their
    types, and a threshold that is a bucket number. *)
Record well_formed (s : MultipleVariantsWithStatistics.t) : Prop := {
  wf_cells : length (MultipleVariantsWithStatistics.variants s) = 16%nat;
  wf_trackers :
    Forall tracker_in_range (MultipleVariantsWithStatistics.variants s);
  wf_count : is_size_t (MultipleVariantsWithStatistics.count s);
  wf_exploration_count :
    is_size_t (MultipleVariantsWithStatistics.exploration_count s);
  wf_threshold :
    0 <= MultipleVariantsWithStatistics.exploration_probability_threshold s
      <= 255
}.

(** Number of reoptimizations in a trace: each one prints once. *)
Definition is_cerr (e : event) : bool :=
  match e with Cerr _ => true | Invoke _ _ _ _ => false end.

Definition reoptimizations (tr : list event) : nat :=
  length (List.filter is_cerr tr).

(** The cell an exploration uses when the counter holds [n] on entry. *)
Definition cell_of (n : Z) : nat :=
  Z.to_nat (MultipleVariantsWithStatistics.hash n
              mod MultipleVariantsWithStatistics.num_cells).

(** The registry as [explore] leaves it after its statistics update and
    before any reoptimization. *)
Definition recorded (s : MultipleVariantsWithStatistics.t)
    (time1 time2 size : Z) : list VariantWithStatistics.t :=
  let time := UInt32 (time2 - time1) in
  if time <? size then
    alter (VariantWithStatistics.add_sample time size)
          (cell_of (MultipleVariantsWithStatistics.exploration_count s))
          (MultipleVariantsWithStatistics.variants s)
  else MultipleVariantsWithStatistics.variants s.

(** The dispatcher after the statistics update of [explore]. *)
Definition explored (s : MultipleVariantsWithStatistics.t)
    (time1 time2 size : Z) : MultipleVariantsWithStatistics.t :=
  MultipleVariantsWithStatistics.mk
    (MultipleVariantsWithStatistics.selected_variant s)
    (recorded s time1 time2 size)
    (MultipleVariantsWithStatistics.count s)
    (size_t (MultipleVariantsWithStatistics.exploration_count s + 1))
    (MultipleVariantsWithStatistics.exploration_probability_threshold s).

(** The dispatcher after [count++]. *)
Definition counted (s : MultipleVariantsWithStatistics.t)
  : MultipleVariantsWithStatistics.t :=
  MultipleVariantsWithStatistics.mk
    (MultipleVariantsWithStatistics.selected_variant s)
    (MultipleVariantsWithStatistics.variants s)
    (size_t (MultipleVariantsWithStatistics.count s + 1))
    (MultipleVariantsWithStatistics.exploration_count s)
    (MultipleVariantsWithStatistics.exploration_probability_threshold s).

(** States of the global dispatcher that sequential calls can produce. *)
Inductive reachable `{KernelSemantics}
  : MultipleVariantsWithStatistics.t -> Prop :=
| reachable_init : reachable variants
| reachable_call s m time1 time2 dst src size :
    reachable s ->
    reachable (MultipleVariantsWithStatistics.state
                 (MultipleVariantsWithStatistics.call s m time1 time2
                    dst src size)).






(** What the scan of [reoptimize] selects from the registry [vs]: entry 0
    when no score compares below the initial [best_score = 1e9];
    otherwise the entry [b] whose score is below 1e9, has no score
    strictly below it, and is strictly below every earlier score that is a
    number. *)
Definition selected_by_scan (vs : list VariantWithStatistics.t) (b : nat)
  : Prop :=
  exists vb, vs !! b = Some vb /\
  ((b = 0%nat /\
    forall j vj, vs !! j = Some vj ->
      Double.ltb (VariantWithStatistics.score vj)
                 (Double.lit 1000000000 0) = false)
   \/
   (Double.ltb (VariantWithStatistics.score vb)
               (Double.lit 1000000000 0) = true /\
    (forall j vj, vs !! j = Some vj ->
       Double.ltb (VariantWithStatistics.score vj)
                  (VariantWithStatistics.score vb) = false) /\
    (forall j vj, (j < b)%nat -> vs !! j = Some vj ->
       Double.is_nan (VariantWithStatistics.score vj) = false ->
       Double.ltb (VariantWithStatistics.score vb)
                  (VariantWithStatistics.score vj) = true))).

(** The selection of the scan as a recursion over the cells still to
    visit, [i] being the index of the first of them. *)
Fixpoint pick (i : nat) (todo : list VariantWithStatistics.t)
    (best_variant : nat) (best_score : Double.t) : nat * Double.t :=
  match todo with
  | [] => (best_variant, best_score)
  | v :: todo =>
      if Double.ltb (VariantWithStatistics.score v) best_score
      then pick (S i) todo i (VariantWithStatistics.score v)
      else pick (S i) todo best_variant best_score
  end.

(** The threshold update as the claim writes it, in exact rational
    arithmetic: [min(255, floor(256 * (1 - (1 - t/256) / 1.5)))]. *)
Definition threshold_formula (t : Z) : Z :=
  Z.min 255
    (Qfloor (256 * (1 - (1 - inject_Z t / 256) / (3 # 2)))%Q).

(** The facts about one threshold that [threshold_table] checks for each
    of the 256 bucket numbers. *)
Definition threshold_check (t : Z) : bool :=
  match Double.to_size_t
          (MultipleVariantsWithStatistics.threshold_as_double t) with
  | Some n =>
      (MultipleVariantsWithStatistics.next_threshold t
         =? threshold_formula t)
      && (t <=? MultipleVariantsWithStatistics.next_threshold t)
      && (MultipleVariantsWithStatistics.next_threshold t <=? 255)
  | None => false
  end.

(** ** Sample inputs *)

Definition zero_memory : memory := fun _ => Byte.x00.

(** A call for 30000 bytes that measures [elapsed] cycles. *)
Definition sample_request (elapsed : Z) : request :=
  Request 0 100000 30000 0 elapsed.

(** The dispatcher as the 257th call finds it when no sample was accepted
    before. *)
Definition at_period_end : MultipleVariantsWithStatistics.t :=
  MultipleVariantsWithStatistics.mk memcpy
    (MultipleVariantsWithStatistics.variants variants) 256 256 0.

(** The dispatcher after 257 calls that each measured 100 cycles: the first
    reoptimization has run. *)
Definition steady : MultipleVariantsWithStatistics.t :=
  (run (H := reference_kernels) variants zero_memory
       (repeat (sample_request 100) 257)).1.1.


(** A memory whose byte at address [a] is [a mod 251]. *)
Definition patterned_memory : memory :=
  fun a => default Byte.x00 (Byte.of_N (Z.to_N (a mod 251))).

(** Does [memcpy_selftuned] leave at [dst] the [size] bytes of [src]? *)
Definition copies (size : Z) (dst src : Z) : bool :=
  match memcpy_selftuned (H := reference_kernels) variants patterned_memory
          0 0 dst src size with
  | Some r =>
      forallb (fun p => Byte.eqb p.1 p.2)
        (combine
           (load (MultipleVariantsWithStatistics.mem r) dst (Z.to_nat size))
           (load patterned_memory src (Z.to_nat size)))
  | None => false
  end.

(** * Further parts of the benchmark *)

(** ** Vocabulary of further properties of the dispatcher *)

(** The immutable columns of the registry: function and tag of each cell. *)
Definition registry (s : MultipleVariantsWithStatistics.t)
  : list (memcpy_type * Z) :=
  (fun v => (VariantWithStatistics.func v, VariantWithStatistics.kind v))
    <$> MultipleVariantsWithStatistics.variants s.



(** What [threshold_step_table] checks for each threshold up to 254. *)
Definition threshold_step_check (t : Z) : bool :=
  (MultipleVariantsWithStatistics.next_threshold t <=? 254)
  && ((t =? 254) || (t <? MultipleVariantsWithStatistics.next_threshold t)).

(** The cells chosen over one period: the counter runs through 0..256. *)
Definition period_cells : list nat :=
  (fun n => cell_of (Z.of_nat n)) <$> seq 0 257.

(** The inverse of [MultipleVariantsWithStatistics.hash]: undo the
    xor-shift, then multiply by the inverse of the odd multiplier modulo
    2^64. *)
Definition unhash (h : Z) : Z :=
  let h := Z.lxor h (Z.shiftr h 33) in
  size_t (h * 0x4f74430c22a54005).




(** ** Vocabulary of copying *)

(** The [size] bytes at [dst] in [m] are the bytes at [src] in [m0]. *)
Definition copied (m0 m : memory) (dst src size : Z) : Prop :=
  forall i, 0 <= i < size -> m (dst + i) = m0 (src + i).

(** [m] differs from [m0] at most inside [dst, dst + size). *)
Definition unchanged_outside (m0 m : memory) (dst size : Z) : Prop :=
  forall a, ~ (dst <= a < dst + size) -> m a = m0 a.

(** The buffers do not overlap (the [__restrict] of the signatures). *)
Definition no_overlap (dst src size : Z) : Prop :=
  dst + size <= src \/ src + size <= dst.

(** A copy in progress: nothing outside the destination has changed and
    the offsets in [done_] are copied. *)
Definition partial_copy (m0 m : memory) (dst src size : Z)
    (done_ : Z -> Prop) : Prop :=
  unchanged_outside m0 m dst size /\
  forall i, 0 <= i < size -> done_ i -> m (dst + i) = m0 (src + i).

(** ** The kernels written in C++ and the benchmark loop *)

Module Kernels.

(** [rep movsb] with the direction flag clear: while [rcx] is not zero,
    move the byte at [rsi] to [rdi], increment both and decrement [rcx].
    The result holds the final registers. *)
Fixpoint rep_movsb (fuel : nat) (m : memory) (rdi rsi rcx : Z)
  : option (memory * Z * Z * Z) :=
  match fuel with
  | O => if rcx =? 0 then Some (m, rdi, rsi, rcx) else None
  | S fuel =>
      if rcx =? 0 then Some (m, rdi, rsi, rcx)
      else rep_movsb fuel (store m rdi [m rsi]) (rdi + 1) (rsi + 1) (rcx - 1)
  end.

(** [memcpy_erms]: the operands [dst], [src], [size] are tied to [rdi],
    [rsi], [rcx] as inputs and as outputs, so the [dst] that is returned is
    the [rdi] the instruction leaves. *)
Definition memcpy_erms (m : memory) (dst src size : Z)
  : option (memory * Z) :=
  match rep_movsb (Z.to_nat size) m dst src size with
  | Some (m, dst, src, size) => Some (m, dst)
  | None => None
  end.

(** The loop of [memcpy_trivial]:
    [while (size > 0) { *dst = *src; ++dst; ++src; --size; }]. *)
Fixpoint memcpy_trivial_loop (fuel : nat) (m : memory) (dst src size : Z)
  : option memory :=
  match fuel with
  | O => if 0 <? size then None else Some m
  | S fuel =>
      if 0 <? size then
        memcpy_trivial_loop fuel (store m dst [m src]) (dst + 1) (src + 1)
                            (size - 1)
      else Some m
  end.

Definition memcpy_trivial (m : memory) (dst_ src_ size : Z)
  : option (memory * Z) :=
  let ret := dst_ in
  (fun m => (m, ret)) <$> memcpy_trivial_loop (Z.to_nat size) m dst_ src_ size.

End Kernels.

(** A copy implementation as the benchmark uses one: it may carry a state
    of its own, and fails ([None]) when it does not return. *)
Definition MemcpyImpl (St : Type) : Type :=
  St -> memory -> Z -> Z -> Z -> option (St * memory).

(** [loop]: copies [size] bytes in chunks whose sizes come from
    [chunk_size_distribution], here the list of the values it returns call
    after call.  [None]: the values ran out before [size] reached 0, or
    [impl] did not return. *)
Fixpoint loop {St} (impl : MemcpyImpl St) (chunk_size_distribution : list Z)
    (st : St) (m : memory) (dst src size : Z) : option (St * memory) :=
  match chunk_size_distribution with
  | [] => if size =? 0 then Some (st, m) else None
  | chunk :: chunk_size_distribution =>
      if size =? 0 then Some (st, m)
      else
        let bytes_to_copy := Z.min size chunk in
        match impl st m dst src bytes_to_copy with
        | None => None
        | Some (st, m) =>
            loop impl chunk_size_distribution st m
                 (dst + bytes_to_copy) (src + bytes_to_copy)
                 (size - bytes_to_copy)
        end
  end.

(** An implementation that copies, whatever its state. *)
Definition copier {St} (impl : MemcpyImpl St) : Prop :=
  forall st m dst src size,
    0 <= size -> no_overlap dst src size ->
    exists st' m',
      impl st m dst src size = Some (st', m') /\
      copied m m' dst src size /\ unchanged_outside m m' dst size.

(** The range of a thread in [test]:
    [begin = size * thread_num / num_threads],
    [end = size * (thread_num + 1) / num_threads], in [size_t]. *)
Definition thread_begin (size num_threads thread_num : Z) : Z :=
  size_t (size * thread_num) / num_threads.

Definition thread_end (size num_threads thread_num : Z) : Z :=
  size_t (size * size_t (thread_num + 1)) / num_threads.

(** The body of a thread of [test]: [iterations] runs of [loop] over the
    thread's range, from [src] to [dst] in the even iterations and back in
    the odd ones.  Each run draws its chunk sizes from a generator that is
    constructed anew ([rng = RNG()]), so all runs see the same values. *)
Fixpoint test_thread {St} (impl : MemcpyImpl St) (chunks : list Z)
    (iteration : Z) (iterations : nat) (st : St) (m : memory)
    (dst src begin_ end_ : Z) : option (St * memory) :=
  match iterations with
  | O => Some (st, m)
  | S iterations =>
      match
        loop impl chunks st m
          (if negb (iteration mod 2 =? 0) then src + begin_ else dst + begin_)
          (if negb (iteration mod 2 =? 0) then dst + begin_ else src + begin_)
          (size_t (end_ - begin_))
      with
      | None => None
      | Some (st, m) =>
          test_thread impl chunks (iteration + 1) iterations st m
                      dst src begin_ end_
      end
  end.

(** The byte-by-byte kernel as a [MemcpyImpl] without state. *)
Definition trivial_impl : MemcpyImpl unit :=
  fun st m dst src size =>
    (fun r => (st, r.1)) <$> Kernels.memcpy_trivial m dst src size.

(** ** The vectorised kernels written in C++ *)

(** [memcpy_tiny] is declared in the file and defined elsewhere. *)
Class MemcpyTiny :=
  memcpy_tiny : memory -> Z -> Z -> Z -> memory * Z.

(** What the kernels rely on: [memcpy_tiny] copies up to 128 bytes. *)
Definition memcpy_tiny_copies `{MemcpyTiny} : Prop :=
  forall m dst src size,
    0 <= size <= 128 -> no_overlap dst src size ->
    copied m (memcpy_tiny m dst src size).1 dst src size /\
    unchanged_outside m (memcpy_tiny m dst src size).1 dst size.

Module Simd.

(** A loop [while (size >= block)] whose body loads [block] bytes from
    [src] with unaligned loads and then writes them to [dst] with stores
    that require [dst] to be a multiple of [align]
    ([_mm_store_si128], [vmovaps]); such a store faults on any other
    address.  [None]: a store faulted or the fuel ran out. *)
Fixpoint copy_aligned (align : Z) (block : nat) (fuel : nat) (m : memory)
    (dst src size : Z) : option (memory * Z * Z * Z) :=
  match fuel with
  | O => if Z.of_nat block <=? size then None else Some (m, dst, src, size)
  | S fuel =>
      if Z.of_nat block <=? size then
        if Z.land dst (align - 1) =? 0 then
          copy_aligned align block fuel (copy_block m dst src block)
            (dst + Z.of_nat block) (src + Z.of_nat block)
            (size - Z.of_nat block)
        else None
      else Some (m, dst, src, size)
  end.

(** A loop [while (size > block)] of unaligned loads and stores of
    [block] bytes. *)
Fixpoint copy_unaligned (block : nat) (fuel : nat) (m : memory)
    (dst src size : Z) : option memory :=
  match fuel with
  | O => if Z.of_nat block <? size then None else Some m
  | S fuel =>
      if Z.of_nat block <? size then
        copy_unaligned block fuel (copy_block m dst src block)
          (dst + Z.of_nat block) (src + Z.of_nat block)
          (size - Z.of_nat block)
      else Some m
  end.

(** "Align destination to [align] bytes boundary": copy one unaligned
    vector and advance by the padding. *)
Definition align_destination (align : Z) (m : memory) (dst src size : Z)
  : memory * Z * Z * Z :=
  let padding := Z.land (align - Z.land dst (align - 1)) (align - 1) in
  if 0 <? padding then
    (copy_block m dst src (Z.to_nat align), dst + padding, src + padding,
     size_t (size - padding))
  else (m, dst, src, size).

(** [memcpy_my_medium_sse]: [dst], [src] and [size] are passed by
    reference; the result holds their final values. *)
Definition memcpy_my_medium_sse (m : memory) (dst src size : Z)
  : option (memory * Z * Z * Z) :=
  let '(m, dst, src, size) := align_destination 16 m dst src size in
  copy_aligned 16 128 (Z.to_nat size) m dst src size.

(** [memcpy_my_medium_avx]: the same with 32-byte vectors, eight to a
    block. *)
Definition memcpy_my_medium_avx (m : memory) (dst src size : Z)
  : option (memory * Z * Z * Z) :=
  let '(m, dst, src, size) := align_destination 32 m dst src size in
  copy_aligned 32 256 (Z.to_nat size) m dst src size.

Section WithTiny.
Context `{MemcpyTiny}.

Definition memcpySSE2 (m : memory) (destination source size : Z)
  : option (memory * Z) :=
  let dst := destination in
  let src := source in
  (* small memory copy *)
  if size <=? 16 then Some (memcpy_tiny m dst src size)
  else
    (* align destination to 16 bytes boundary *)
    let '(m, dst, src, size) := align_destination 16 m dst src size in
    (* medium size copy *)
    match copy_aligned 16 16 (Z.to_nat size) m dst src size with
    | None => None
    | Some (m, dst, src, size) =>
        Some ((memcpy_tiny m dst src size).1, destination)
    end.

Definition memcpySSE2Unrolled2 (m : memory) (destination source size : Z)
  : option (memory * Z) :=
  let dst := destination in
  let src := source in
  if size <=? 32 then Some (memcpy_tiny m dst src size)
  else
    let '(m, dst, src, size) := align_destination 16 m dst src size in
    match copy_aligned 16 32 (Z.to_nat size) m dst src size with
    | None => None
    | Some (m, dst, src, size) =>
        Some ((memcpy_tiny m dst src size).1, destination)
    end.

Definition memcpySSE2Unrolled4 (m : memory) (destination source size : Z)
  : option (memory * Z) :=
  let dst := destination in
  let src := source in
  if size <=? 64 then Some (memcpy_tiny m dst src size)
  else
    let '(m, dst, src, size) := align_destination 16 m dst src size in
    match copy_aligned 16 64 (Z.to_nat size) m dst src size with
    | None => None
    | Some (m, dst, src, size) =>
        Some ((memcpy_tiny m dst src size).1, destination)
    end.

Definition memcpySSE2Unrolled8 (m : memory) (destination source size : Z)
  : option (memory * Z) :=
  let dst := destination in
  let src := source in
  if size <=? 128 then Some (memcpy_tiny m dst src size)
  else
    let '(m, dst, src, size) := align_destination 16 m dst src size in
    match copy_aligned 16 128 (Z.to_nat size) m dst src size with
    | None => None
    | Some (m, dst, src, size) =>
        Some ((memcpy_tiny m dst src size).1, destination)
    end.

End WithTiny.

(** The body of [memcpy_my2] for [16 < size <= 128], and of the other
    functions where they repeat it: the last vector of [block] bytes, then
    vectors from the start while more than [block] bytes remain. *)
Definition copy_last_then_rest (block : nat) (m : memory) (dst src size : Z)
  : option memory :=
  let m := copy_block m (dst + size - Z.of_nat block)
                      (src + size - Z.of_nat block) block in
  copy_unaligned block (Z.to_nat size) m dst src size.

(** An [__asm__] statement that is not [volatile] may be deleted by the
    compiler when no later statement reads its output operands.  In
    [memcpy_my2] and in [memcpy_my] this is the case of the last two
    statements of an AVX path: the copy of the last vector and the one in
    the loop [while (size > 32)] have [dst] and [src] as outputs, and after
    them only [ret] is read.  [asm_kept] tells whether such statements are
    executed; without them the loop only counts [size] down and memory
    stays as it is.  The earlier [__asm__] statements of these paths feed
    [dst] and [src] to statements that are executed. *)
Definition dead_asm (asm_kept : bool) (effect : option memory) (m : memory)
  : option memory :=
  if asm_kept then effect else Some m.

(** [memcpy_my2], [have_avx] being the global of that name. *)
Definition memcpy_my2 (asm_kept have_avx : bool) (m : memory)
    (dst src size : Z) : option (memory * Z) :=
  let ret := dst in
  if size <=? 16 then Some (copy_upto16 m dst src size, ret)
  else if size <=? 128 then
    (fun m => (m, ret)) <$> copy_last_then_rest 16 m dst src size
  else if (size <? 30000) || negb have_avx then
    (* Align destination to 16 bytes boundary. *)
    let '(m, dst, src, size) := align_destination 16 m dst src size in
    (* Aligned unrolled copy. *)
    match copy_aligned 16 128 (Z.to_nat size) m dst src size with
    | None => None
    | Some (m, dst, src, size) =>
        (fun m => (m, ret)) <$> copy_last_then_rest 16 m dst src size
    end
  else
    let '(m, dst, src, size) := align_destination 32 m dst src size in
    match copy_aligned 32 512 (Z.to_nat size) m dst src size with
    | None => None
    | Some (m, dst, src, size) =>
        (fun m => (m, ret))
          <$> dead_asm asm_kept (copy_last_then_rest 32 m dst src size) m
    end.

(** [memcpy_my]: [gotos] bounds the number of [goto tail] that may still
    be taken. *)
Fixpoint memcpy_my_tail (gotos : nat) (asm_kept have_avx : bool)
    (m : memory) (dst src size : Z) : option memory :=
  if size <=? 16 then Some (copy_upto16 m dst src size)
  else if have_avx then
    if size <=? 32 then
      let m := copy_block m dst src 8 in
      let m := copy_block m (dst + 8) (src + 8) 8 in
      match gotos with
      | O => None
      | S gotos =>
          memcpy_my_tail gotos asm_kept have_avx m (dst + 16) (src + 16)
                         (size - 16)
      end
    else if size <=? 256 then
      dead_asm asm_kept (copy_last_then_rest 32 m dst src size) m
    else
      let '(m, dst, src, size) := align_destination 32 m dst src size in
      match copy_aligned 32 256 (Z.to_nat size) m dst src size with
      | None => None
      | Some (m, dst, src, size) =>
          match gotos with
          | O => None
          | S gotos => memcpy_my_tail gotos asm_kept have_avx m dst src size
          end
      end
  else
    if size <=? 128 then
      copy_last_then_rest 16 m dst src size
    else
      (* Align destination to 16 bytes boundary. *)
      let '(m, dst, src, size) := align_destination 16 m dst src size in
      (* Aligned unrolled copy. *)
      match copy_aligned 16 128 (Z.to_nat size) m dst src size with
      | None => None
      | Some (m, dst, src, size) =>
          match gotos with
          | O => None
          | S gotos => memcpy_my_tail gotos asm_kept have_avx m dst src size
          end
      end.

Definition memcpy_my (asm_kept have_avx : bool) (m : memory)
    (dst src size : Z) : option (memory * Z) :=
  let ret := dst in
  (fun m => (m, ret)) <$> memcpy_my_tail 3 asm_kept have_avx m dst src size.

End Simd.

(** A [memcpy_tiny] that follows its contract. *)
Definition reference_tiny : MemcpyTiny :=
  fun m dst src size =>
    (fun a => if (dst <=? a) && (a <? dst + size) then m (src + (a - dst))
              else m a,
     dst).

(** [memcpy_my] from the label [tail] on, for sizes below [bound]. *)
Definition tail_copies (gotos : nat) (asm_kept have_avx : bool) (bound : Z)
  : Prop :=
  forall m dst src size,
    0 <= size < bound -> no_overlap dst src size ->
    exists m',
      Simd.memcpy_my_tail gotos asm_kept have_avx m dst src size = Some m' /\
      copied m m' dst src size /\ unchanged_outside m m' dst size.

(** The padding that brings [dst] to the next multiple of 32. *)
Definition padding_to_32 (dst : Z) : Z := Z.land (32 - Z.land dst 31) 31.

(** [VariantWithStatistics::operator<]: a tracker is less than another when
    its score is. *)
Definition operator_lt (lhs rhs : VariantWithStatistics.t) : bool :=
  Double.ltb (VariantWithStatistics.score lhs)
             (VariantWithStatistics.score rhs).

(** ** The benchmark: [test] and the buffers of [main] *)

(** One call [impl(dst, src, bytes_to_copy)]. *)
Definition call : Type := (Z * Z * Z)%type.

(** The calls of [impl] that [loop] makes, in order: they depend on the
    chunk sizes only.  [None]: the values ran out before [size] reached
    0. *)
Fixpoint loop_calls (chunk_size_distribution : list Z) (dst src size : Z)
  : option (list call) :=
  match chunk_size_distribution with
  | [] => if size =? 0 then Some [] else None
  | chunk :: chunk_size_distribution =>
      if size =? 0 then Some []
      else
        let bytes_to_copy := Z.min size chunk in
        cons (dst, src, bytes_to_copy)
          <$> loop_calls chunk_size_distribution
                (dst + bytes_to_copy) (src + bytes_to_copy)
                (size - bytes_to_copy)
  end.

(** The calls of [impl] that the body of a thread of [test] makes. *)
Fixpoint thread_calls (chunks : list Z) (iteration : Z) (iterations : nat)
    (dst src begin_ end_ : Z) : option (list call) :=
  match iterations with
  | O => Some []
  | S iterations =>
      match
        loop_calls chunks
          (if negb (iteration mod 2 =? 0) then src + begin_ else dst + begin_)
          (if negb (iteration mod 2 =? 0) then dst + begin_ else src + begin_)
          (size_t (end_ - begin_)),
        thread_calls chunks (iteration + 1) iterations dst src begin_ end_
      with
      | Some calls, Some later => Some (calls ++ later)
      | _, _ => None
      end
  end.

(** A list of calls made one after the other. *)
Fixpoint run_calls {St} (impl : MemcpyImpl St) (calls : list call)
    (st : St) (m : memory) : option (St * memory) :=
  match calls with
  | [] => Some (st, m)
  | (dst, src, size) :: calls =>
      match impl st m dst src size with
      | None => None
      | Some (st, m) => run_calls impl calls st m
      end
  end.

(** The threads of [test] running together, each given by the calls it
    still has to make.  [schedule] names, step by step, the thread whose
    next call runs; naming a thread that has finished does nothing.
    [None]: [impl] did not return, or the schedule ended before every
    thread had finished, so that [join] does not return. *)
Fixpoint run_threads {St} (impl : MemcpyImpl St) (schedule : list nat)
    (threads : list (list call)) (st : St) (m : memory)
  : option (St * memory) :=
  match schedule with
  | [] => if forallb (fun calls => bool_decide (calls = [])) threads
          then Some (st, m) else None
  | thread_num :: schedule =>
      match threads !! thread_num with
      | Some ((dst, src, size) :: calls) =>
          match impl st m dst src size with
          | None => None
          | Some (st, m) =>
              run_threads impl schedule (<[thread_num := calls]> threads)
                          st m
          end
      | _ => run_threads impl schedule threads st m
      end
  end.

Definition uint8_t (z : Z) : Byte.byte :=
  default Byte.x00 (Byte.of_N (Z.to_N (z mod 256))).

(** How [test] ends: it returns the elapsed time, or it throws
    [std::logic_error("Incorrect result")]. *)
Inductive test_outcome := Elapsed | Incorrect_result.

(** "Validation": [dst[i] == uint8_t(i)] for every [i < size]. *)
Definition validation (m : memory) (dst size : Z) : bool :=
  forallb (fun i => Byte.eqb (m (dst + Z.of_nat i)) (uint8_t (Z.of_nat i)))
          (seq 0 (Z.to_nat size)).

(** [test]: the threads are created with their ranges, run together under
    [schedule] and are joined; then the destination is validated.  A call
    of [impl] is one step; the time measured is left out. *)
Definition test {St} (impl : MemcpyImpl St) (chunks : list Z)
    (schedule : list nat) (st : St) (m : memory)
    (dst src size : Z) (iterations : nat) (num_threads : Z)
  : option (St * memory * test_outcome) :=
  match
    mapM (fun thread_num =>
            thread_calls chunks 0 iterations dst src
              (thread_begin size num_threads (Z.of_nat thread_num))
              (thread_end size num_threads (Z.of_nat thread_num)))
         (seq 0 (Z.to_nat num_threads))
  with
  | None => None
  | Some threads =>
      match run_threads impl schedule threads st m with
      | None => None
      | Some (st, m) =>
          Some (st, m,
                if validation m dst size then Elapsed else Incorrect_result)
      end
  end.

(** [main], the number of iterations when the option is not given:
    [10000000000ULL / size], divided by 10 for the first distribution.
    [None]: division by zero. *)
Definition default_iterations (size generator_variant : Z) : option Z :=
  if size =? 0 then None
  else
    let iterations := 10000000000 / size in
    Some (if generator_variant =? 1 then iterations / 10 else iterations).

(** [main], the buffers before the benchmark: [src[i] = i] for every
    [i < size], then [memset(dst, 0, size)]. *)
Definition fill_buffers (m : memory) (dst src size : Z) : memory :=
  let m : memory :=
    fun a => if (src <=? a) && (a <? src + size) then uint8_t (a - src)
             else m a in
  fun a => if (dst <=? a) && (a <? dst + size) then Byte.x00 else m a.

(** A call that stays inside the range [[begin_, end_)] of the two
    buffers, in one direction or the other. *)
Definition call_in_range (dst src begin_ end_ : Z) (c : call) : Prop :=
  exists off,
    begin_ <= off /\ 0 <= c.2 /\ off + c.2 <= end_ /\
    ((c.1.1 = dst + off /\ c.1.2 = src + off) \/
     (c.1.1 = src + off /\ c.1.2 = dst + off)).

(** Every thread's remaining calls stay inside the thread's range. *)
Definition threads_in_range (dst src : Z) (rb re : nat -> Z)
    (threads : list (list call)) : Prop :=
  forall k calls, threads !! k = Some calls ->
    Forall (call_in_range dst src (rb k) (re k)) calls.

(** Two memories hold the same bytes in the range [[begin_, end_)] of both
    buffers. *)
Definition range_agree (dst src begin_ end_ : Z) (m1 m2 : memory) : Prop :=
  forall i, begin_ <= i < end_ ->
    m1 (dst + i) = m2 (dst + i) /\ m1 (src + i) = m2 (src + i).

(** The range of a thread, by the number of the thread. *)
Definition range_begin (size num_threads : Z) (k : nat) : Z :=
  thread_begin size num_threads (Z.of_nat k).

Definition range_end (size num_threads : Z) (k : nat) : Z :=
  thread_end size num_threads (Z.of_nat k).

(** ** The kernels written in assembly *)

Module Asm.

(** The loop at label [1:] of the [memcpy_medium_*_forward] kernels.
    [block] bytes are loaded from [src] with unaligned vector loads; [src]
    is advanced and [size] reduced by [block]; the bytes are stored at
    [dst] with aligned vector stores ([vmovdqa], [movdqa]), which fault
    unless [dst] is a multiple of [align]; [dst] is advanced; and
    [cmp $block, size; ja 1b] repeats while [size] is above [block] as an
    unsigned number.  The body runs before the first comparison.
    Registers are 64 bits wide.  [None]: a store faulted or the fuel ran
    out. *)
Fixpoint forward_loop (align : Z) (block : nat) (fuel : nat) (m : memory)
    (dst src size : Z) : option (memory * Z * Z * Z) :=
  match fuel with
  | O => None
  | S fuel =>
      if Z.land dst (align - 1) =? 0 then
        let m := copy_block m dst src block in
        let src := size_t (src + Z.of_nat block) in
        let size := size_t (size - Z.of_nat block) in
        let dst := size_t (dst + Z.of_nat block) in
        if Z.of_nat block <? size then
          forward_loop align block fuel m dst src size
        else Some (m, dst, src, size)
      else None
  end.

(** [memcpy_medium_avx_forward]: the first vector and the last four are
    loaded at once, [ymm4] and [ymm8 .. ymm5]; they are stored after the
    loop. *)
Definition memcpy_medium_avx_forward (m : memory)
    (destination source size : Z) : option (memory * Z) :=
  let ret := destination in
  let fuel := Z.to_nat size in
  let '(dst, src) := (destination, source) in
  let ymm4 := load m src 32 in
  let ymm8_5 := load m (size_t (src + size - 0x80)) 128 in
  let r11 := dst in
  let rcx := size_t (dst + size - 0x20) in
  let r8 := dst in
  let r8 := Z.land r8 0x1f in
  let r8 := size_t (r8 - 0x20) in
  let src := size_t (src - r8) in
  let dst := size_t (dst - r8) in
  let size := size_t (size + r8) in
  match forward_loop 32 128 fuel m dst src size with
  | None => None
  | Some (m, dst, src, size) =>
      let m := store m (size_t (rcx - 0x60)) ymm8_5 in
      let m := store m r11 ymm4 in
      Some (m, ret)
  end.

(** [memcpy_medium_avx_forward2]: the first vector is stored at once; the
    last eight are loaded after the loop, at [src + size] as the loop
    leaves them. *)
Definition memcpy_medium_avx_forward2 (m : memory)
    (destination source size : Z) : option (memory * Z) :=
  let ret := destination in
  let fuel := Z.to_nat size in
  let '(dst, src) := (destination, source) in
  let ymm15 := load m src 32 in
  let m := store m dst ymm15 in
  let r11 := dst in
  let rcx := size_t (dst + size - 0x20) in
  let r8 := dst in
  let r8 := Z.land r8 0x1f in
  let r8 := size_t (r8 - 0x20) in
  let src := size_t (src - r8) in
  let dst := size_t (dst - r8) in
  let size := size_t (size + r8) in
  match forward_loop 32 256 fuel m dst src size with
  | None => None
  | Some (m, dst, src, size) =>
      let ymm15_8 := load m (size_t (src + size - 0x100)) 256 in
      let m := store m (size_t (rcx - 0xe0)) ymm15_8 in
      Some (m, ret)
  end.

(** [memcpy_medium_sse_forward]: as [memcpy_medium_avx_forward], with
    vectors of 16 bytes. *)
Definition memcpy_medium_sse_forward (m : memory)
    (destination source size : Z) : option (memory * Z) :=
  let ret := destination in
  let fuel := Z.to_nat size in
  let '(dst, src) := (destination, source) in
  let xmm4 := load m src 16 in
  let xmm8_5 := load m (size_t (src + size - 0x40)) 64 in
  let r11 := dst in
  let rcx := size_t (dst + size - 0x10) in
  let r8 := dst in
  let r8 := Z.land r8 0x0f in
  let r8 := size_t (r8 - 0x10) in
  let src := size_t (src - r8) in
  let dst := size_t (dst - r8) in
  let size := size_t (size + r8) in
  match forward_loop 16 64 fuel m dst src size with
  | None => None
  | Some (m, dst, src, size) =>
      let m := store m (size_t (rcx - 0x30)) xmm8_5 in
      let m := store m r11 xmm4 in
      Some (m, ret)
  end.

End Asm.

(** * Properties *)

(** ** Machine integers *)

Lemma size_t_range z : is_size_t (size_t z).
Proof. unfold is_size_t, size_t. apply Z.mod_pos_bound. lia. Qed.

Lemma size_t_small z : is_size_t z -> size_t z = z.
Proof. unfold is_size_t, size_t. intros. apply Z.mod_small. lia. Qed.

Lemma UInt32_range z : 0 <= UInt32 z < 2 ^ 32.
Proof. unfold UInt32. apply Z.mod_pos_bound. lia. Qed.

Lemma size_t_succ_neq z : is_size_t z -> size_t (z + 1) <> z.
Proof.
  unfold is_size_t, size_t. intros Hz.
  destruct (decide (z = 2 ^ 64 - 1)) as [->|Hne].
  - vm_compute. discriminate.
  - rewrite Z.mod_small by lia. lia.
Qed.

(** ** The order of [double] *)

Lemma SFltb_nan_r x : SFltb x S754_nan = false.
Proof. by destruct x. Qed.


Ltac cmp_cases :=
  repeat match goal with
  | |- context [Z.compare ?a ?b] => destruct (Z.compare_spec a b)
  | H : context [Z.compare ?a ?b] |- _ => destruct (Z.compare_spec a b)
  | |- context [Pos.compare_cont Eq ?a ?b] =>
      change (Pos.compare_cont Eq a b) with (Pos.compare a b);
      destruct (Pos.compare_spec a b)
  | H : context [Pos.compare_cont Eq ?a ?b] |- _ =>
      change (Pos.compare_cont Eq a b) with (Pos.compare a b) in H;
      destruct (Pos.compare_spec a b)
  end.

Ltac float_cases x y z :=
  unfold Double.ltb, SFltb;
  destruct x as [[]|[]| |[] ? ?], y as [[]|[]| |[] ? ?],
           z as [[]|[]| |[] ? ?];
  simpl; try done; intros; cmp_cases; simpl in *; try done; try lia.

Lemma ltb_irrefl x : Double.ltb x x = false.
Proof.
  unfold Double.ltb, SFltb.
  destruct x as [[]|[]| |[] m e]; simpl; try done;
    rewrite Z.compare_refl;
    change (Pos.compare_cont Eq m m) with (Pos.compare m m);
    by rewrite Pos.compare_refl.
Qed.

Lemma ltb_trans x y z :
  Double.ltb x y = true -> Double.ltb y z = true -> Double.ltb x z = true.
Proof. float_cases x y z. Qed.

(** [x < y <= z], the second comparison being "not [z < y]" between
    numbers. *)
Lemma ltb_le_trans x y z :
  Double.ltb x y = true -> Double.ltb z y = false ->
  Double.is_nan z = false -> Double.ltb x z = true.
Proof. float_cases x y z. Qed.

Lemma ltb_asym x y : Double.ltb x y = true -> Double.ltb y x = false.
Proof.
  intros Hxy. destruct (Double.ltb y x) eqn:Hyx; [|done].
  by rewrite <- (ltb_irrefl x), (ltb_trans x y x).
Qed.

(** ** The scan of a reoptimization *)

Lemma scan_fold todo : forall done_ best_variant best_score,
  foldl MultipleVariantsWithStatistics.scan_step
        (done_ ++ todo, best_variant, best_score)
        (seq (length done_) (length todo))
  = (done_ ++ (VariantWithStatistics.smooth <$> todo),
     (pick (length done_) todo best_variant best_score).1,
     (pick (length done_) todo best_variant best_score).2).
Proof.
  induction todo as [|v todo IH]; intros done_ b bs.
  - by rewrite !app_nil_r.
  - cbn [length seq foldl pick fmap list_fmap].
    unfold MultipleVariantsWithStatistics.scan_step at 2.
    rewrite list_lookup_middle by done.
    rewrite insert_app_r_alt by lia. rewrite Nat.sub_diag.
    cbn [insert list_insert].
    specialize (IH (done_ ++ [VariantWithStatistics.smooth v])).
    rewrite length_app in IH. cbn [length] in IH.
    replace (length done_ + 1)%nat with (S (length done_)) in IH by lia.
    rewrite <- !(assoc_L (++)) in IH. cbn [app] in IH.
    destruct (Double.ltb (VariantWithStatistics.score v) bs); apply IH.
Qed.

Lemma scan_spec vs :
  length vs = 16%nat ->
  MultipleVariantsWithStatistics.scan vs
  = (VariantWithStatistics.smooth <$> vs,
     (pick 0 vs 0%nat (Double.lit 1000000000 0)).1,
     (pick 0 vs 0%nat (Double.lit 1000000000 0)).2).
Proof.
  intros Hlen. unfold MultipleVariantsWithStatistics.scan.
  change (Z.to_nat MultipleVariantsWithStatistics.num_cells) with 16%nat.
  rewrite <- Hlen. apply (scan_fold vs []).
Qed.

(** Either nothing on the way compares below the incoming [best_score], or
    the result is the first of the smallest scores below it. *)
Lemma pick_spec todo : forall i b bs,
  ((pick i todo b bs) = (b, bs) /\
   forall j v, todo !! j = Some v ->
     Double.ltb (VariantWithStatistics.score v) bs = false)
  \/
  (exists j v, todo !! j = Some v /\
     pick i todo b bs = ((i + j)%nat, VariantWithStatistics.score v) /\
     Double.ltb (VariantWithStatistics.score v) bs = true /\
     (forall j' v', todo !! j' = Some v' ->
        Double.ltb (VariantWithStatistics.score v')
                   (VariantWithStatistics.score v) = false) /\
     (forall j' v', (j' < j)%nat -> todo !! j' = Some v' ->
        Double.is_nan (VariantWithStatistics.score v') = false ->
        Double.ltb (VariantWithStatistics.score v)
                   (VariantWithStatistics.score v') = true)).
Proof.
  induction todo as [|v todo IH]; intros i b bs; cbn [pick].
  - left. split; [done|]. intros j v Hj. by rewrite lookup_nil in Hj.
  - destruct (Double.ltb (VariantWithStatistics.score v) bs) eqn:Hv.
    + right.
      destruct (IH (S i) i (VariantWithStatistics.score v))
        as [[-> Hnone]|(j & w & Hj & -> & Hlt & Hmin & Hfirst)].
      * exists 0%nat, v. repeat split; try done.
        -- f_equal. lia.
        -- intros [|j'] v' Hj'; simplify_eq/=; [apply ltb_irrefl|eauto].
        -- intros j' v' Hlt'. lia.
      * exists (S j), w. repeat split; try done.
        -- f_equal. lia.
        -- eauto using ltb_trans.
        -- intros [|j'] v' Hj'; simplify_eq/=; [by apply ltb_asym|eauto].
        -- intros [|j'] v' Hlt' Hj' Hnan; simplify_eq/=; [done|].
           apply (Hfirst j'); [lia|done..].
    + destruct (IH (S i) b bs)
        as [[-> Hnone]|(j & w & Hj & -> & Hlt & Hmin & Hfirst)].
      * left. split; [done|].
        intros [|j'] v' Hj'; simplify_eq/=; eauto.
      * right. exists (S j), w. repeat split; try done.
        -- f_equal. lia.
        -- intros [|j'] v' Hj'; simplify_eq/=; [|eauto].
           destruct (Double.ltb (VariantWithStatistics.score v')
                                (VariantWithStatistics.score w)) eqn:Hvw;
             [|done].
           by rewrite (ltb_trans _ _ _ Hvw Hlt) in Hv.
        -- intros [|j'] v' Hlt' Hj' Hnan; simplify_eq/=.
           ++ by apply (ltb_le_trans _ bs).
           ++ apply (Hfirst j'); [lia|done..].
Qed.

Lemma pick_first_cell vs :
  length vs = 16%nat ->
  exists b vb, vs !! b = Some vb /\
    (pick 0 vs 0%nat (Double.lit 1000000000 0)).1 = b /\
    selected_by_scan vs b.
Proof.
  intros Hlen.
  destruct (pick_spec vs 0 0%nat (Double.lit 1000000000 0))
    as [[-> Hnone]|(j & w & Hj & -> & Hlt & Hmin & Hfirst)].
  - destruct (lookup_lt_is_Some_2 vs 0) as [v0 Hv0]; [lia|].
    exists 0%nat, v0. repeat split; [done|]. exists v0. split; [done|].
    left. eauto.
  - exists j, w. repeat split; [done|]. exists w. split; [done|].
    right. eauto.
Qed.

Lemma reoptimize_spec s :
  length (MultipleVariantsWithStatistics.variants s) = 16%nat ->
  exists b vb,
    MultipleVariantsWithStatistics.variants s !! b = Some vb /\
    selected_by_scan (MultipleVariantsWithStatistics.variants s) b /\
    MultipleVariantsWithStatistics.reoptimize s
    = (MultipleVariantsWithStatistics.mk
         (VariantWithStatistics.func vb)
         (VariantWithStatistics.smooth
            <$> MultipleVariantsWithStatistics.variants s)
         (MultipleVariantsWithStatistics.count s) 0
         (MultipleVariantsWithStatistics.next_threshold
            (MultipleVariantsWithStatistics.exploration_probability_threshold
               s)),
       [Cerr (VariantWithStatistics.kind vb)]).
Proof.
  intros Hlen. destruct (pick_first_cell _ Hlen) as (b & vb & Hb & Hpick & Hsel).
  exists b, vb. repeat split; [done..|].
  unfold MultipleVariantsWithStatistics.reoptimize.
  rewrite scan_spec by done. rewrite Hpick.
  by rewrite list_lookup_fmap, Hb.
Qed.

(** ** The hash and the cell of an exploration *)

Lemma cell_of_lt n : (cell_of n < 16)%nat.
Proof.
  unfold cell_of. change MultipleVariantsWithStatistics.num_cells with 16.
  pose proof (Z.mod_pos_bound (MultipleVariantsWithStatistics.hash n) 16).
  lia.
Qed.

Lemma recorded_length s time1 time2 size :
  length (recorded s time1 time2 size)
  = length (MultipleVariantsWithStatistics.variants s).
Proof.
  unfold recorded. case_match; [apply length_alter|done].
Qed.

(** ** One exploration, unfolded *)

Section Explore.
Context `{KernelSemantics}.

Lemma explore_unfold s m time1 time2 dst src size :
  length (MultipleVariantsWithStatistics.variants s) = 16%nat ->
  exists v,
    MultipleVariantsWithStatistics.variants s
      !! cell_of (MultipleVariantsWithStatistics.exploration_count s)
    = Some v /\
    MultipleVariantsWithStatistics.explore s m time1 time2 dst src size
    = let called := Invoke (VariantWithStatistics.func v) dst src size in
      let r := exec (VariantWithStatistics.func v) m dst src size in
      if MultipleVariantsWithStatistics.exploration_count s =? 256 then
        MultipleVariantsWithStatistics.Result
          (MultipleVariantsWithStatistics.reoptimize
             (explored s time1 time2 size)).1
          r.1 r.2
          (called :: (MultipleVariantsWithStatistics.reoptimize
                        (explored s time1 time2 size)).2)
      else
        MultipleVariantsWithStatistics.Result
          (explored s time1 time2 size) r.1 r.2 [called].
Proof.
  intros Hlen.
  destruct (lookup_lt_is_Some_2 (MultipleVariantsWithStatistics.variants s)
              (cell_of (MultipleVariantsWithStatistics.exploration_count s)))
    as [v Hv]; [pose proof (cell_of_lt
                  (MultipleVariantsWithStatistics.exploration_count s)); lia|].
  exists v. split; [done|].
  unfold MultipleVariantsWithStatistics.explore, explored, recorded.
  cbn [MultipleVariantsWithStatistics.variants
       MultipleVariantsWithStatistics.selected_variant
       MultipleVariantsWithStatistics.count
       MultipleVariantsWithStatistics.exploration_count
       MultipleVariantsWithStatistics.exploration_probability_threshold].
  fold (cell_of (MultipleVariantsWithStatistics.exploration_count s)).
  rewrite Hv.
  destruct (exec (VariantWithStatistics.func v) m dst src size) as [m' r].
  change MultipleVariantsWithStatistics.num_explorations_before_optimize
    with 256.
  cbn [fst snd].
  destruct (UInt32 (time2 - time1) <? size);
    destruct (MultipleVariantsWithStatistics.exploration_count s =? 256);
    try done;
    by destruct (MultipleVariantsWithStatistics.reoptimize _).
Qed.

End Explore.

(** ** The threshold update *)

Lemma check_below (P : Z -> bool) (n : nat) :
  forallb P (Z.of_nat <$> seq 0 n) = true ->
  forall t, 0 <= t < Z.of_nat n -> P t = true.
Proof.
  intros Hall t Ht. rewrite forallb_forall in Hall. apply Hall.
  apply list_elem_of_In, list_elem_of_fmap. exists (Z.to_nat t).
  split; [lia|]. apply list_elem_of_In, in_seq. lia.
Qed.

(** For a threshold that is a bucket number the conversion of the [double]
    is defined, the result is the formula of the claim, and it is between
    the old threshold and 255. *)
Lemma threshold_table t :
  0 <= t <= 255 ->
  is_Some (Double.to_size_t
             (MultipleVariantsWithStatistics.threshold_as_double t)) /\
  MultipleVariantsWithStatistics.next_threshold t = threshold_formula t /\
  t <= MultipleVariantsWithStatistics.next_threshold t <= 255.
Proof.
  intros Ht.
  assert (threshold_check t = true) as Hc.
  { apply (check_below threshold_check 256); [by vm_compute|lia]. }
  unfold threshold_check in Hc.
  destruct (Double.to_size_t _) as [n|]; [|done].
  apply andb_prop in Hc as [Hc H3]. apply andb_prop in Hc as [H1 H2].
  split; [by eexists|]. lia.
Qed.

Lemma threshold_conversion_defined t :
  0 <= t <= 255 ->
  is_Some (Double.to_size_t
             (MultipleVariantsWithStatistics.threshold_as_double t)).
Proof. intros Ht. by apply threshold_table. Qed.

(** ** The two kinds of exploration *)

Section ExploreCases.
Context `{KernelSemantics}.

(** An exploration that does not find the counter at 256: statistics
    update only. *)
Lemma explore_plain s m time1 time2 dst src size :
  length (MultipleVariantsWithStatistics.variants s) = 16%nat ->
  MultipleVariantsWithStatistics.exploration_count s <> 256 ->
  exists v,
    MultipleVariantsWithStatistics.variants s
      !! cell_of (MultipleVariantsWithStatistics.exploration_count s)
    = Some v /\
    MultipleVariantsWithStatistics.explore s m time1 time2 dst src size
    = MultipleVariantsWithStatistics.Result
        (explored s time1 time2 size)
        (exec (VariantWithStatistics.func v) m dst src size).1
        (exec (VariantWithStatistics.func v) m dst src size).2
        [Invoke (VariantWithStatistics.func v) dst src size].
Proof.
  intros Hlen Hec.
  destruct (explore_unfold s m time1 time2 dst src size Hlen)
    as (v & Hv & ->).
  exists v. split; [done|]. cbv zeta.
  by destruct (Z.eqb_spec
                 (MultipleVariantsWithStatistics.exploration_count s) 256).
Qed.

(** An exploration that finds the counter at 256: statistics update, then
    the reoptimization. *)
Lemma explore_reoptimizing s m time1 time2 dst src size :
  length (MultipleVariantsWithStatistics.variants s) = 16%nat ->
  MultipleVariantsWithStatistics.exploration_count s = 256 ->
  exists v b vb,
    MultipleVariantsWithStatistics.variants s
      !! cell_of (MultipleVariantsWithStatistics.exploration_count s)
    = Some v /\
    recorded s time1 time2 size !! b = Some vb /\
    selected_by_scan (recorded s time1 time2 size) b /\
    MultipleVariantsWithStatistics.explore s m time1 time2 dst src size
    = MultipleVariantsWithStatistics.Result
        (MultipleVariantsWithStatistics.mk
           (VariantWithStatistics.func vb)
           (VariantWithStatistics.smooth <$> recorded s time1 time2 size)
           (MultipleVariantsWithStatistics.count s) 0
           (MultipleVariantsWithStatistics.next_threshold
              (MultipleVariantsWithStatistics.exploration_probability_threshold
                 s)))
        (exec (VariantWithStatistics.func v) m dst src size).1
        (exec (VariantWithStatistics.func v) m dst src size).2
        [Invoke (VariantWithStatistics.func v) dst src size;
         Cerr (VariantWithStatistics.kind vb)].
Proof.
  intros Hlen Hec.
  destruct (explore_unfold s m time1 time2 dst src size Hlen)
    as (v & Hv & ->).
  destruct (reoptimize_spec (explored s time1 time2 size))
    as (b & vb & Hb & Hsel & ->).
  { cbn. by rewrite recorded_length. }
  exists v, b, vb. repeat split; [done..|]. cbv zeta.
  by rewrite Hec.
Qed.

End ExploreCases.

(** ** Well-formedness is kept *)

Lemma add_sample_in_range time size v :
  tracker_in_range (VariantWithStatistics.add_sample time size v).
Proof. repeat split; apply size_t_range. Qed.

Lemma smooth_in_range v : tracker_in_range (VariantWithStatistics.smooth v).
Proof. repeat split; apply size_t_range. Qed.

Lemma recorded_in_range s time1 time2 size :
  Forall tracker_in_range (MultipleVariantsWithStatistics.variants s) ->
  Forall tracker_in_range (recorded s time1 time2 size).
Proof.
  intros Hall. unfold recorded. case_match; [|done].
  apply Forall_alter; [done|]. intros. apply add_sample_in_range.
Qed.

Lemma smoothed_in_range vs :
  Forall tracker_in_range (VariantWithStatistics.smooth <$> vs).
Proof.
  apply Forall_fmap, Forall_forall. intros v _. apply smooth_in_range.
Qed.

Lemma variants_well_formed : well_formed variants.
Proof.
  split; [done| |done..|done].
  repeat constructor; done.
Qed.

Section WellFormed.
Context `{KernelSemantics}.

Lemma explore_well_formed s m time1 time2 dst src size :
  well_formed s ->
  well_formed (MultipleVariantsWithStatistics.state
                 (MultipleVariantsWithStatistics.explore s m time1 time2
                    dst src size)).
Proof.
  intros [Hlen Htr Hc Hec Hth].
  destruct (decide (MultipleVariantsWithStatistics.exploration_count s
                    = 256)) as [H256|H256].
  - destruct (explore_reoptimizing s m time1 time2 dst src size Hlen H256)
      as (v & b & vb & _ & _ & _ & ->).
    split; cbn.
    + by rewrite length_fmap, recorded_length.
    + apply smoothed_in_range.
    + done.
    + done.
    + pose proof (threshold_table _ Hth). lia.
  - destruct (explore_plain s m time1 time2 dst src size Hlen H256)
      as (v & _ & ->).
    split; cbn.
    + by rewrite recorded_length.
    + by apply recorded_in_range.
    + done.
    + apply size_t_range.
    + done.
Qed.

Lemma counted_well_formed s : well_formed s -> well_formed (counted s).
Proof.
  intros [Hlen Htr Hc Hec Hth]. split; cbn; try done. apply size_t_range.
Qed.

Lemma call_well_formed s m time1 time2 dst src size :
  well_formed s ->
  well_formed (MultipleVariantsWithStatistics.state
                 (MultipleVariantsWithStatistics.call s m time1 time2
                    dst src size)).
Proof.
  intros Hwf. unfold MultipleVariantsWithStatistics.call.
  fold (counted s). case_match.
  - destruct (exec _ _ _ _ _). cbn. by apply counted_well_formed.
  - by apply explore_well_formed, counted_well_formed.
Qed.

Lemma reachable_well_formed s : reachable s -> well_formed s.
Proof.
  induction 1; [apply variants_well_formed|by apply call_well_formed].
Qed.

End WellFormed.

(** ** The two modes of a call, and workloads *)

Lemma reoptimizations_app tr1 tr2 :
  reoptimizations (tr1 ++ tr2)
  = (reoptimizations tr1 + reoptimizations tr2)%nat.
Proof. unfold reoptimizations. by rewrite List.filter_app, length_app. Qed.

Lemma size_t_plus_l a b : size_t (size_t a + b) = size_t (a + b).
Proof. unfold size_t. apply Zplus_mod_idemp_l. Qed.

Section Modes.
Context `{KernelSemantics}.

Lemma call_exploit s m time1 time2 dst src size :
  MultipleVariantsWithStatistics.count s mod 256
    < MultipleVariantsWithStatistics.exploration_probability_threshold s ->
  MultipleVariantsWithStatistics.call s m time1 time2 dst src size
  = MultipleVariantsWithStatistics.Result (counted s)
      (exec (MultipleVariantsWithStatistics.selected_variant s)
            m dst src size).1
      (exec (MultipleVariantsWithStatistics.selected_variant s)
            m dst src size).2
      [Invoke (MultipleVariantsWithStatistics.selected_variant s)
              dst src size].
Proof.
  intros Hlt. unfold MultipleVariantsWithStatistics.call.
  fold (counted s).
  change MultipleVariantsWithStatistics.probability_distribution_buckets
    with 256.
  cbn [counted
       MultipleVariantsWithStatistics.exploration_probability_threshold
       MultipleVariantsWithStatistics.selected_variant].
  destruct (Z.ltb_spec (MultipleVariantsWithStatistics.count s mod 256)
              (MultipleVariantsWithStatistics.exploration_probability_threshold s));
    [|lia].
  destruct (exec _ _ _ _ _); reflexivity.
Qed.

Lemma call_explore s m time1 time2 dst src size :
  MultipleVariantsWithStatistics.exploration_probability_threshold s
    <= MultipleVariantsWithStatistics.count s mod 256 ->
  MultipleVariantsWithStatistics.call s m time1 time2 dst src size
  = MultipleVariantsWithStatistics.explore (counted s) m time1 time2
      dst src size.
Proof.
  intros Hle. unfold MultipleVariantsWithStatistics.call.
  fold (counted s).
  change MultipleVariantsWithStatistics.probability_distribution_buckets
    with 256.
  cbn [counted
       MultipleVariantsWithStatistics.exploration_probability_threshold].
  by destruct (Z.ltb_spec (MultipleVariantsWithStatistics.count s mod 256)
              (MultipleVariantsWithStatistics.exploration_probability_threshold s));
    [lia|].
Qed.


(** While the threshold is 0 and the exploration counter stays within
    256, every call explores and none reoptimizes. *)
Lemma run_warming rs : forall s m,
  length (MultipleVariantsWithStatistics.variants s) = 16%nat ->
  MultipleVariantsWithStatistics.exploration_probability_threshold s = 0 ->
  0 <= MultipleVariantsWithStatistics.exploration_count s ->
  MultipleVariantsWithStatistics.exploration_count s
    + Z.of_nat (length rs) <= 256 ->
  let s' := (run s m rs).1.1 in
  length (MultipleVariantsWithStatistics.variants s') = 16%nat /\
  MultipleVariantsWithStatistics.exploration_probability_threshold s' = 0 /\
  MultipleVariantsWithStatistics.exploration_count s'
    = MultipleVariantsWithStatistics.exploration_count s
      + Z.of_nat (length rs) /\
  MultipleVariantsWithStatistics.selected_variant s'
    = MultipleVariantsWithStatistics.selected_variant s /\
  reoptimizations (run s m rs).2 = 0%nat.
Proof.
  induction rs as [|r rs IH]; intros s m Hlen Hth Hec Hsum; cbn [run].
  - cbn. repeat split; try done. lia.
  - cbn [length] in Hsum. unfold serve.
    rewrite call_explore
      by (rewrite Hth; apply Z.mod_pos_bound; lia).
    destruct (explore_plain (counted s) m (r_time1 r) (r_time2 r)
                (r_dst r) (r_src r) (r_size r)) as (v & Hv & ->);
      [done|cbn; lia|].
    cbn [MultipleVariantsWithStatistics.state
         MultipleVariantsWithStatistics.mem
         MultipleVariantsWithStatistics.trace].
    set (s1 := explored (counted s) (r_time1 r) (r_time2 r) (r_size r)).
    set (m1 := (exec (VariantWithStatistics.func v) m (r_dst r) (r_src r)
                  (r_size r)).1).
    assert (MultipleVariantsWithStatistics.exploration_count s1
            = MultipleVariantsWithStatistics.exploration_count s + 1)
      as Hec1.
    { cbn. apply size_t_small. unfold is_size_t. lia. }
    destruct (IH s1 m1) as (H1 & H2 & H3 & H4 & H5).
    { subst s1. cbn. by rewrite recorded_length. }
    { done. }
    { lia. }
    { lia. }
    destruct (run s1 m1 rs) as [[s2 m2] tr2]. cbn [fst snd] in *.
    cbn [length]. split_and!; [done|done|lia|by rewrite H4|].
    by rewrite reoptimizations_app, H5.
Qed.

End Modes.

(** ** What a call changes besides the trackers *)

Section Scheduling.
Context `{KernelSemantics}.

(** What one exploration does to the scheduling fields. *)
Lemma explore_scheduling s m time1 time2 dst src size :
  well_formed s ->
  let r := MultipleVariantsWithStatistics.explore s m time1 time2
             dst src size in
  let s' := MultipleVariantsWithStatistics.state r in
  MultipleVariantsWithStatistics.count s'
    = MultipleVariantsWithStatistics.count s /\
  MultipleVariantsWithStatistics.exploration_count s'
    <> MultipleVariantsWithStatistics.exploration_count s /\
  ((reoptimizations (MultipleVariantsWithStatistics.trace r) = 0%nat /\
    MultipleVariantsWithStatistics.exploration_count s <> 256 /\
    MultipleVariantsWithStatistics.exploration_probability_threshold s'
      = MultipleVariantsWithStatistics.exploration_probability_threshold s)
   \/
   (reoptimizations (MultipleVariantsWithStatistics.trace r) = 1%nat /\
    MultipleVariantsWithStatistics.exploration_count s = 256 /\
    MultipleVariantsWithStatistics.exploration_probability_threshold s'
      = MultipleVariantsWithStatistics.next_threshold
          (MultipleVariantsWithStatistics.exploration_probability_threshold
             s))).
Proof.
  intros [Hlen Htr Hc Hec Hth].
  destruct (decide (MultipleVariantsWithStatistics.exploration_count s
                    = 256)) as [H256|H256].
  - destruct (explore_reoptimizing s m time1 time2 dst src size Hlen H256)
      as (v & b & vb & _ & _ & _ & ->).
    cbn. rewrite H256. split_and!; [done|done|]. by right.
  - destruct (explore_plain s m time1 time2 dst src size Hlen H256)
      as (v & _ & ->).
    cbn. split_and!; [done|by apply size_t_succ_neq|]. by left.
Qed.

End Scheduling.

Section Reachable.
Context `{KernelSemantics}.

Lemma run_reachable rs : forall s m,
  reachable s -> reachable (run s m rs).1.1.
Proof.
  induction rs as [|q rs IH]; intros s m Hs; [done|].
  cbn [run].
  specialize (IH _ (MultipleVariantsWithStatistics.mem (serve s m q))
                (reachable_call s m (r_time1 q) (r_time2 q) (r_dst q)
                   (r_src q) (r_size q) Hs)).
  unfold serve in *. by destruct (run _ _ rs) as [[? ?] ?].
Qed.

End Reachable.

Lemma steady_reachable : reachable (H := reference_kernels) steady.
Proof. apply run_reachable. constructor. Qed.

Lemma steady_well_formed : well_formed steady.
Proof. exact (reachable_well_formed _ steady_reachable). Qed.

Lemma at_period_end_well_formed : well_formed at_period_end.
Proof.
  split; [done| |done..|done].
  repeat constructor; done.
Qed.

(** C3: the exploit/explore decision of a call is a function of the
    pre-increment call counter and the threshold: the call exploits (the
    exploration counter is untouched and the selected variant is the one
    kernel invoked) when [count mod 256 < exploration_probability_threshold]
    and explores (it is [explore] on the dispatcher with the counter
    incremented, and the exploration counter changes) otherwise.  A call
    changes the threshold only when it reoptimizes.  The threshold of the
    global dispatcher starts at 0, and on any workload of at most 256 calls
    it is still 0, no reoptimization has run, and every call explored. *)
Theorem C3_schedule_by_call_count `{KernelSemantics}
    s m time1 time2 dst src size rs :
  well_formed s ->
  (length rs <= 256)%nat ->
  let r := MultipleVariantsWithStatistics.call s m time1 time2
             dst src size in
  let s' := MultipleVariantsWithStatistics.state r in
  let w := run variants m rs in
  MultipleVariantsWithStatistics.count s'
    = size_t (MultipleVariantsWithStatistics.count s + 1) /\
  (MultipleVariantsWithStatistics.count s mod 256
     < MultipleVariantsWithStatistics.exploration_probability_threshold s ->
   MultipleVariantsWithStatistics.exploration_count s'
     = MultipleVariantsWithStatistics.exploration_count s /\
   MultipleVariantsWithStatistics.trace r
     = [Invoke (MultipleVariantsWithStatistics.selected_variant s)
               dst src size]) /\
  (MultipleVariantsWithStatistics.exploration_probability_threshold s
     <= MultipleVariantsWithStatistics.count s mod 256 ->
   r = MultipleVariantsWithStatistics.explore (counted s) m time1 time2
         dst src size /\
   MultipleVariantsWithStatistics.exploration_count s'
     <> MultipleVariantsWithStatistics.exploration_count s) /\
  (reoptimizations (MultipleVariantsWithStatistics.trace r) = 0%nat ->
   MultipleVariantsWithStatistics.exploration_probability_threshold s'
     = MultipleVariantsWithStatistics.exploration_probability_threshold s) /\
  MultipleVariantsWithStatistics.exploration_probability_threshold variants
    = 0 /\
  MultipleVariantsWithStatistics.exploration_probability_threshold w.1.1
    = 0 /\
  reoptimizations w.2 = 0%nat /\
  MultipleVariantsWithStatistics.exploration_count w.1.1
    = Z.of_nat (length rs).
Proof.
  intros Hwf Hrs r s' w.
  pose proof (explore_scheduling (counted s) m time1 time2 dst src size
                (counted_well_formed s Hwf)) as (Hcount & Hec & Hthr).
  destruct (Z.lt_ge_cases
              (MultipleVariantsWithStatistics.count s mod 256)
              (MultipleVariantsWithStatistics.exploration_probability_threshold s))
    as [Hlt|Hge].
  - subst s' r. rewrite call_exploit by done. cbn. split_and!; try done.
    + intros Hge. lia.
    + by destruct (run_warming rs variants m) as (_ & ? & _); [done|done|done|cbn; lia|].
    + by destruct (run_warming rs variants m) as (_ & _ & _ & _ & ?); [done|done|done|cbn; lia|].
    + by destruct (run_warming rs variants m) as (_ & _ & ? & _); [done|done|done|cbn; lia|].
  - subst s' r. rewrite call_explore by done. split_and!; try done.
    + intros Hlt. lia.
    + intros Hnone. destruct Hthr as [(_ & _ & ?)|(Hone & _)]; [done|].
      rewrite Hnone in Hone. done.
    + by destruct (run_warming rs variants m) as (_ & ? & _); [done|done|done|cbn; lia|].
    + by destruct (run_warming rs variants m) as (_ & _ & _ & _ & ?); [done|done|done|cbn; lia|].
    + by destruct (run_warming rs variants m) as (_ & _ & ? & _); [done|done|done|cbn; lia|].
Qed.

Lemma C3_schedule_by_call_count_witness :
  let r := MultipleVariantsWithStatistics.call (H := reference_kernels)
             steady zero_memory 0 100 0 100000 30000 in
  MultipleVariantsWithStatistics.count (MultipleVariantsWithStatistics.state r)
    = size_t (MultipleVariantsWithStatistics.count steady + 1) /\
  MultipleVariantsWithStatistics.trace r = [Invoke memcpySSE2 0 100000 30000].
Proof.
  pose proof (C3_schedule_by_call_count (H := reference_kernels)
                steady zero_memory 0 100 0 100000 30000
                (repeat (sample_request 100) 3)) as Hc3.
  cbv zeta in Hc3.
  destruct Hc3 as (Hcount & Hexploit & _).
  - apply steady_well_formed.
  - cbn. lia.
  - split; [exact Hcount|]. apply Hexploit. vm_compute. reflexivity.
Defined.

(** C8: a call in exploitation mode, and any workload made of such calls,
    leaves every tracker, the exploration counter, the threshold and the
    selected variant as they were; only the call counter advances, by one
    per call.  Each call invokes the selected variant once and nothing
    else happens (no reoptimization, no other kernel). *)
Theorem C8_exploit_touches_only_call_counter `{KernelSemantics} rs :
  forall s m,
  is_size_t (MultipleVariantsWithStatistics.count s) ->
  (forall k, 0 <= k < Z.of_nat (length rs) ->
     size_t (MultipleVariantsWithStatistics.count s + k) mod 256
       < MultipleVariantsWithStatistics.exploration_probability_threshold s) ->
  let w := run s m rs in
  MultipleVariantsWithStatistics.variants w.1.1
    = MultipleVariantsWithStatistics.variants s /\
  MultipleVariantsWithStatistics.exploration_count w.1.1
    = MultipleVariantsWithStatistics.exploration_count s /\
  MultipleVariantsWithStatistics.exploration_probability_threshold w.1.1
    = MultipleVariantsWithStatistics.exploration_probability_threshold s /\
  MultipleVariantsWithStatistics.selected_variant w.1.1
    = MultipleVariantsWithStatistics.selected_variant s /\
  MultipleVariantsWithStatistics.count w.1.1
    = size_t (MultipleVariantsWithStatistics.count s
              + Z.of_nat (length rs)) /\
  w.2 = (fun r => Invoke (MultipleVariantsWithStatistics.selected_variant s)
                         (r_dst r) (r_src r) (r_size r)) <$> rs.
Proof.
  induction rs as [|r rs IH]; intros s m Hcount Hmode; cbn [run].
  - cbn [fst snd length fmap list_fmap]. split_and!; try done.
    by rewrite Z.add_0_r, size_t_small.
  - unfold serve. rewrite call_exploit.
    2:{ specialize (Hmode 0). rewrite Z.add_0_r, size_t_small in Hmode by done.
        apply Hmode. cbn [length]. lia. }
    cbn [MultipleVariantsWithStatistics.state
         MultipleVariantsWithStatistics.mem
         MultipleVariantsWithStatistics.trace].
    destruct (IH (counted s)
                (exec (MultipleVariantsWithStatistics.selected_variant s) m
                   (r_dst r) (r_src r) (r_size r)).1)
      as (H1 & H2 & H3 & H4 & H5 & H6).
    { apply size_t_range. }
    { intros k Hk.
      cbn [counted MultipleVariantsWithStatistics.count
           MultipleVariantsWithStatistics.exploration_probability_threshold].
      rewrite size_t_plus_l.
      replace (MultipleVariantsWithStatistics.count s + 1 + k)
        with (MultipleVariantsWithStatistics.count s + (k + 1)) by lia.
      apply Hmode. cbn [length]. lia. }
    cbn [counted MultipleVariantsWithStatistics.count
         MultipleVariantsWithStatistics.exploration_probability_threshold
         MultipleVariantsWithStatistics.variants
         MultipleVariantsWithStatistics.exploration_count
         MultipleVariantsWithStatistics.selected_variant] in *.
    destruct (run _ _ rs) as [[s2 m2] tr2]. cbn [fst snd] in *.
    split_and!; try done.
    + rewrite H5, size_t_plus_l. f_equal. cbn [length]. lia.
    + cbn [fmap list_fmap app]. by rewrite H6.
Qed.

Lemma C8_exploit_touches_only_call_counter_witness :
  let w := run (H := reference_kernels) steady zero_memory
             (repeat (sample_request 100) 3) in
  MultipleVariantsWithStatistics.variants w.1.1
    = MultipleVariantsWithStatistics.variants steady /\
  w.2 = [Invoke memcpySSE2 0 100000 30000; Invoke memcpySSE2 0 100000 30000;
         Invoke memcpySSE2 0 100000 30000].
Proof.
  destruct (C8_exploit_touches_only_call_counter (H := reference_kernels)
              (repeat (sample_request 100) 3) steady zero_memory)
    as (Hvs & _ & _ & _ & _ & Htr).
  - vm_compute. split; [discriminate|reflexivity].
  - intros k Hk. cbn in Hk.
    assert (k = 0 \/ k = 1 \/ k = 2) as [->|[->| ->]] by lia;
      vm_compute; reflexivity.
  - split; [exact Hvs|exact Htr].
Defined.

(** C7: over every call made on a reachable dispatcher the threshold stays
    within [0, 255] and does not decrease; it changes only at a
    reoptimization, where the threshold [t] becomes
    [min(255, floor(256 * (1 - (1 - t/256) / 1.5)))]. *)
Theorem C7_threshold_monotone_and_bounded `{KernelSemantics}
    s m time1 time2 dst src size :
  reachable s ->
  let r := MultipleVariantsWithStatistics.call s m time1 time2
             dst src size in
  let t := MultipleVariantsWithStatistics.exploration_probability_threshold
             s in
  let t' := MultipleVariantsWithStatistics.exploration_probability_threshold
              (MultipleVariantsWithStatistics.state r) in
  0 <= t /\ t <= t' /\ t' <= 255 /\
  ((reoptimizations (MultipleVariantsWithStatistics.trace r) = 0%nat /\
    t' = t) \/
   (reoptimizations (MultipleVariantsWithStatistics.trace r) = 1%nat /\
    t' = threshold_formula t)).
Proof.
  intros Hs r t t'. pose proof (reachable_well_formed s Hs) as Hwf.
  pose proof (wf_threshold s Hwf) as Hth. fold t in Hth.
  pose proof (threshold_table t Hth) as (_ & Hformula & Hmono).
  destruct (Z.lt_ge_cases
              (MultipleVariantsWithStatistics.count s mod 256) t)
    as [Hlt|Hge].
  - subst t' r. rewrite call_exploit by done. cbn. fold t.
    split_and!; [lia..|]. by left.
  - subst t' r. rewrite call_explore by done.
    pose proof (explore_scheduling (counted s) m time1 time2 dst src size
                  (counted_well_formed s Hwf)) as (_ & _ & Hthr).
    cbv zeta in Hthr. cbn [counted
         MultipleVariantsWithStatistics.exploration_probability_threshold]
      in Hthr. fold t in Hthr.
    destruct Hthr as [(Hnone & _ & ->)|(Hone & _ & ->)].
    + split_and!; [lia..|]. by left.
    + split_and!; [lia..|]. right. by rewrite Hformula.
Qed.

Lemma C7_threshold_monotone_and_bounded_witness :
  let r := MultipleVariantsWithStatistics.call (H := reference_kernels)
             at_period_end zero_memory 0 100 0 100000 30000 in
  MultipleVariantsWithStatistics.exploration_probability_threshold
    (MultipleVariantsWithStatistics.state r) = 85.
Proof.
  assert (reachable (H := reference_kernels) at_period_end) as Hreach.
  { change at_period_end
      with (run (H := reference_kernels) variants zero_memory
              (repeat (sample_request 40000) 256)).1.1.
    apply run_reachable. constructor. }
  destruct (C7_threshold_monotone_and_bounded (H := reference_kernels)
              at_period_end zero_memory 0 100 0 100000 30000 Hreach)
    as (_ & _ & _ & [(Hnone & _)|(_ & Hformula)]).
  - vm_compute in Hnone. discriminate.
  - exact Hformula.
Defined.

(** C6: on a tracker whose fields are [size_t] values, [smooth] yields
    exactly [(1 + time/2, 1 + bytes/2, 1 + count/2)] with floor division (no
    wrap-around occurs) and every field of the result is at least 1; the
    exploration that reoptimizes applies [smooth] to every tracker of the
    registry. *)
Theorem C6_smooth_halves_every_tracker `{KernelSemantics}
    v s m time1 time2 dst src size :
  tracker_in_range v ->
  well_formed s ->
  MultipleVariantsWithStatistics.exploration_count s = 256 ->
  let v' := VariantWithStatistics.smooth v in
  let s' := MultipleVariantsWithStatistics.state
              (MultipleVariantsWithStatistics.explore s m time1 time2
                 dst src size) in
  (VariantWithStatistics.time v' = 1 + VariantWithStatistics.time v / 2 /\
   VariantWithStatistics.bytes v' = 1 + VariantWithStatistics.bytes v / 2 /\
   VariantWithStatistics.count v' = 1 + VariantWithStatistics.count v / 2 /\
   VariantWithStatistics.func v' = VariantWithStatistics.func v /\
   VariantWithStatistics.kind v' = VariantWithStatistics.kind v) /\
  (1 <= VariantWithStatistics.time v' /\
   1 <= VariantWithStatistics.bytes v' /\
   1 <= VariantWithStatistics.count v') /\
  MultipleVariantsWithStatistics.variants s'
    = VariantWithStatistics.smooth <$> recorded s time1 time2 size /\
  (forall i, MultipleVariantsWithStatistics.variants s' !! i
             = VariantWithStatistics.smooth
                 <$> recorded s time1 time2 size !! i).
Proof.
  intros (Ht & Hb & Hc) Hwf H256 v' s'.
  assert (forall z, is_size_t z -> size_t (1 + z / 2) = 1 + z / 2) as Hhalf.
  { intros z Hz. apply size_t_small. unfold is_size_t in *.
    pose proof (Z.div_pos z 2). 
    assert (z / 2 < 2 ^ 63) by (apply Z.div_lt_upper_bound; lia). lia. }
  assert (forall z, is_size_t z -> 1 <= 1 + z / 2) as Hone.
  { intros z Hz. unfold is_size_t in *. pose proof (Z.div_pos z 2). lia. }
  subst v' s'. cbn [VariantWithStatistics.smooth VariantWithStatistics.time
    VariantWithStatistics.bytes VariantWithStatistics.count
    VariantWithStatistics.func VariantWithStatistics.kind].
  rewrite !Hhalf by done.
  destruct (explore_reoptimizing s m time1 time2 dst src size
              (wf_cells s Hwf) H256) as (w & b & vb & _ & _ & _ & ->).
  cbn [MultipleVariantsWithStatistics.state
       MultipleVariantsWithStatistics.variants].
  split_and!; auto.
  intros i. apply list_lookup_fmap.
Qed.

Lemma C6_smooth_halves_every_tracker_witness :
  VariantWithStatistics.time
    (VariantWithStatistics.smooth (VariantWithStatistics.mk memcpy 5 8 0 1))
  = 1 + 5 / 2 /\
  MultipleVariantsWithStatistics.variants
    (MultipleVariantsWithStatistics.state
       (MultipleVariantsWithStatistics.explore (H := reference_kernels)
          at_period_end zero_memory 0 100 0 100000 30000))
  = VariantWithStatistics.smooth <$> recorded at_period_end 0 100 30000.
Proof.
  destruct (C6_smooth_halves_every_tracker (H := reference_kernels)
              (VariantWithStatistics.mk memcpy 5 8 0 1)
              at_period_end zero_memory 0 100 0 100000 30000)
    as ((Htime & _) & _ & Hall & _).
  - repeat split; vm_compute; congruence.
  - apply at_period_end_well_formed.
  - reflexivity.
  - split; [exact Htime|exact Hall].
Defined.

(** C5 (as the code has it): the cell of an exploration is
    [hash(n) mod 16], where [n] is the value of [exploration_count] on entry
    (before the increment) and [hash(n)] is [h xor (h >> 33)] for
    [h = n * 0xff51afd7ed558ccd mod 2^64].  The cell is within the registry,
    its kernel is the one invoked, and an accepted sample lands in it. *)
Theorem C5_cell_is_hash_of_count_on_entry `{KernelSemantics}
    s m time1 time2 dst src size :
  length (MultipleVariantsWithStatistics.variants s) = 16%nat ->
  let n := MultipleVariantsWithStatistics.exploration_count s in
  let h := (n * 0xff51afd7ed558ccd) mod 2 ^ 64 in
  let i := Z.lxor h (Z.shiftr h 33) mod 16 in
  let r := MultipleVariantsWithStatistics.explore s m time1 time2
             dst src size in
  0 <= i < 16 /\
  exists v,
    MultipleVariantsWithStatistics.variants s !! Z.to_nat i = Some v /\
    head (MultipleVariantsWithStatistics.trace r)
      = Some (Invoke (VariantWithStatistics.func v) dst src size) /\
    (UInt32 (time2 - time1) < size -> n <> 256 ->
     MultipleVariantsWithStatistics.variants
       (MultipleVariantsWithStatistics.state r) !! Z.to_nat i
     = Some (VariantWithStatistics.add_sample
               (UInt32 (time2 - time1)) size v)).
Proof.
  intros Hlen n h i r.
  split; [apply Z.mod_pos_bound; lia|].
  destruct (explore_unfold s m time1 time2 dst src size Hlen)
    as (v & Hv & Hr).
  exists v. split; [exact Hv|]. split.
  - subst r. rewrite Hr. cbv zeta. by case_match.
  - intros He Hn.
    destruct (explore_plain s m time1 time2 dst src size Hlen Hn)
      as (v2 & Hv2 & Hr2).
    subst r. rewrite Hr2. cbn. unfold recorded.
    destruct (Z.ltb_spec (UInt32 (time2 - time1)) size); [|lia].
    rewrite list_lookup_alter_eq.
    change (Z.to_nat i) with (cell_of n). by rewrite Hv.
Qed.

Lemma C5_cell_is_hash_of_count_on_entry_witness :
  exists v,
    MultipleVariantsWithStatistics.variants
      at_period_end !! Z.to_nat 6 = Some v /\
    head (MultipleVariantsWithStatistics.trace
            (MultipleVariantsWithStatistics.explore (H := reference_kernels)
               at_period_end zero_memory 0 100 0 100000 30000))
      = Some (Invoke (VariantWithStatistics.func v) 0 100000 30000).
Proof.
  destruct (C5_cell_is_hash_of_count_on_entry (H := reference_kernels)
              at_period_end zero_memory 0 100 0 100000 30000)
    as (_ & v & Hv & Hhead & _).
  - reflexivity.
  - exists v. split; [exact Hv|exact Hhead].
Defined.

(** C5, the claim as stated fails: on the initial dispatcher the counter is
    0 on entry and 1 after the increment; the kernel invoked is that of cell
    [hash(0) mod 16 = 0] ([memcpy]), not that of cell [hash(1) mod 16 = 6]
    ([__memcpy_ssse3]). *)
Lemma C5_counterexample :
  let r := MultipleVariantsWithStatistics.explore (H := reference_kernels)
             variants zero_memory 0 100 0 100000 30000 in
  MultipleVariantsWithStatistics.exploration_count variants = 0 /\
  MultipleVariantsWithStatistics.exploration_count
    (MultipleVariantsWithStatistics.state r) = 1 /\
  MultipleVariantsWithStatistics.hash 1 mod 16 = 6 /\
  VariantWithStatistics.func
    <$> MultipleVariantsWithStatistics.variants variants !! 6%nat
    = Some __memcpy_ssse3 /\
  head (MultipleVariantsWithStatistics.trace r)
    = Some (Invoke memcpy 0 100000 30000) /\
  head (MultipleVariantsWithStatistics.trace r)
    <> Some (Invoke __memcpy_ssse3 0 100000 30000).
Proof. vm_compute. split_and!; try reflexivity. discriminate. Qed.

(** C2 (as the code has it): in an exploration that does not reoptimize,
    with [e] the measured cycles and [size] the size: if [e < size] the
    tracker of the chosen cell gets [time + e], [bytes + size],
    [count + 1] (modulo 2^64) and no other tracker changes; when no
    accumulator overflows, [bytes] and [count] grow strictly and [time]
    grows by [e], strictly exactly when [e > 0].  If [e >= size] no tracker
    changes. *)
Theorem C2_sample_updates_one_tracker `{KernelSemantics}
    s m time1 time2 dst src size :
  well_formed s ->
  MultipleVariantsWithStatistics.exploration_count s <> 256 ->
  let e := UInt32 (time2 - time1) in
  let i := cell_of (MultipleVariantsWithStatistics.exploration_count s) in
  let vs := MultipleVariantsWithStatistics.variants s in
  let vs' := MultipleVariantsWithStatistics.variants
               (MultipleVariantsWithStatistics.state
                  (MultipleVariantsWithStatistics.explore s m time1 time2
                     dst src size)) in
  exists v, vs !! i = Some v /\
    (e < size ->
     exists v', vs' !! i = Some v' /\
       VariantWithStatistics.time v'
         = size_t (VariantWithStatistics.time v + e) /\
       VariantWithStatistics.bytes v'
         = size_t (VariantWithStatistics.bytes v + size) /\
       VariantWithStatistics.count v'
         = size_t (VariantWithStatistics.count v + 1) /\
       VariantWithStatistics.func v' = VariantWithStatistics.func v /\
       VariantWithStatistics.kind v' = VariantWithStatistics.kind v /\
       (forall j, j <> i -> vs' !! j = vs !! j) /\
       (VariantWithStatistics.time v + e < 2 ^ 64 ->
        VariantWithStatistics.bytes v + size < 2 ^ 64 ->
        VariantWithStatistics.count v + 1 < 2 ^ 64 ->
        VariantWithStatistics.count v' = VariantWithStatistics.count v + 1 /\
        VariantWithStatistics.bytes v'
          = VariantWithStatistics.bytes v + size /\
        VariantWithStatistics.time v' = VariantWithStatistics.time v + e /\
        VariantWithStatistics.count v < VariantWithStatistics.count v' /\
        VariantWithStatistics.bytes v < VariantWithStatistics.bytes v' /\
        VariantWithStatistics.time v <= VariantWithStatistics.time v' /\
        (VariantWithStatistics.time v < VariantWithStatistics.time v'
         <-> 0 < e))) /\
    (size <= e -> vs' = vs).
Proof.
  intros Hwf Hn e i vs vs'.
  destruct (explore_plain s m time1 time2 dst src size (wf_cells s Hwf) Hn)
    as (v & Hv & Hr).
  exists v. split; [exact Hv|].
  subst vs' i vs. rewrite Hr.
  cbn [MultipleVariantsWithStatistics.state explored
       MultipleVariantsWithStatistics.variants].
  unfold recorded. fold e.
  pose proof (UInt32_range (time2 - time1)) as He. fold e in He.
  pose proof (Forall_lookup_1 _ _ _ _ (wf_trackers s Hwf) Hv)
    as ((Ht & ?) & (Hb & ?) & (Hc & ?)).
  split.
  - intros Hlt. destruct (Z.ltb_spec e size); [|lia].
    exists (VariantWithStatistics.add_sample e size v).
    split; [by rewrite list_lookup_alter_eq, Hv|].
    cbn [VariantWithStatistics.add_sample VariantWithStatistics.time
         VariantWithStatistics.bytes VariantWithStatistics.count
         VariantWithStatistics.func VariantWithStatistics.kind].
    split_and!; try done.
    + intros j Hj. by apply list_lookup_alter_ne.
    + intros Ht' Hb' Hc'.
      rewrite !size_t_small by (unfold is_size_t; lia). lia.
  - intros Hge. by destruct (Z.ltb_spec e size); [lia|].
Qed.

Lemma C2_sample_updates_one_tracker_witness :
  exists v',
    MultipleVariantsWithStatistics.variants
      (MultipleVariantsWithStatistics.state
         (MultipleVariantsWithStatistics.explore (H := reference_kernels)
            variants zero_memory 0 100 0 100000 30000)) !! 0%nat = Some v' /\
    VariantWithStatistics.time v' = 100 /\
    VariantWithStatistics.bytes v' = 30000 /\
    VariantWithStatistics.count v' = 1.
Proof.
  destruct (C2_sample_updates_one_tracker (H := reference_kernels)
              variants zero_memory 0 100 0 100000 30000)
    as (v & Hv & Hacc & _).
  - apply variants_well_formed.
  - vm_compute. discriminate.
  - destruct Hacc as (v' & Hv' & Ht & Hb & Hc & _); [vm_compute; reflexivity|].
    injection Hv as <-.
    exists v'. split; [exact Hv'|]. split; [exact Ht|]. split; [exact Hb|exact Hc].
Defined.

(** C2, the claim as stated fails.  (1) A sample with [e = 0] is accepted
    ([0 < size]) and leaves [time] as it was: not a strict increase.
    (2) The exploration that finds the counter at 256 decays every tracker
    after its statistics update, so trackers other than the chosen one
    change, also when the sample is rejected. *)
Lemma C2_counterexample :
  let r1 := MultipleVariantsWithStatistics.explore (H := reference_kernels)
              variants zero_memory 7 7 0 100000 30000 in
  let r2 := MultipleVariantsWithStatistics.explore (H := reference_kernels)
              at_period_end zero_memory 0 40000 0 100000 30000 in
  (UInt32 (7 - 7) < 30000 /\
   VariantWithStatistics.time
     <$> MultipleVariantsWithStatistics.variants variants !! 0%nat = Some 0 /\
   VariantWithStatistics.time
     <$> MultipleVariantsWithStatistics.variants
           (MultipleVariantsWithStatistics.state r1) !! 0%nat = Some 0 /\
   VariantWithStatistics.count
     <$> MultipleVariantsWithStatistics.variants
           (MultipleVariantsWithStatistics.state r1) !! 0%nat = Some 1) /\
  (30000 <= UInt32 (40000 - 0) /\
   VariantWithStatistics.count
     <$> MultipleVariantsWithStatistics.variants at_period_end !! 3%nat
     = Some 0 /\
   VariantWithStatistics.count
     <$> MultipleVariantsWithStatistics.variants
           (MultipleVariantsWithStatistics.state r2) !! 3%nat = Some 1).
Proof. vm_compute. split_and!; try reflexivity; discriminate. Qed.

(** C4 (as the code has it): right after registration every tracker holds
    [time = bytes = count = 0]: nothing seeds them.  [score()] then divides
    0.0 by 0.0 and is NaN, which compares below nothing, so the scan of a
    reoptimization never moves [best_variant] to a tracker in that state;
    one [smooth] brings the tracker to [(1, 1, 1)], whose score is 2.0.
    A tracker whose score is NaN is still published when it is the default
    of the scan: if the entry a reoptimization selects has a NaN score,
    it is entry 0 and no score of the registry is below the initial
    [best_score = 1e9].  This happens: when the registry is still as
    registered and the sample of the reoptimizing exploration is rejected,
    the reoptimization selects entry 0, [memcpy], and prints its kind 1,
    the tracker of entry 0 holding [0, 0, 0]. *)
Theorem C4_fresh_tracker_scores_nan `{KernelSemantics}
    s m time1 time2 dst src size :
  length (MultipleVariantsWithStatistics.variants s) = 16%nat ->
  MultipleVariantsWithStatistics.exploration_count s = 256 ->
  let r := MultipleVariantsWithStatistics.explore s m time1 time2
             dst src size in
  Forall (fun v =>
    VariantWithStatistics.time v = 0 /\
    VariantWithStatistics.bytes v = 0 /\
    VariantWithStatistics.count v = 0 /\
    VariantWithStatistics.score v = S754_nan /\
    (forall best_score,
       Double.ltb (VariantWithStatistics.score v) best_score = false) /\
    VariantWithStatistics.time (VariantWithStatistics.smooth v) = 1 /\
    VariantWithStatistics.bytes (VariantWithStatistics.smooth v) = 1 /\
    VariantWithStatistics.count (VariantWithStatistics.smooth v) = 1 /\
    VariantWithStatistics.score (VariantWithStatistics.smooth v)
      = Double.lit 2 0)
    (MultipleVariantsWithStatistics.variants variants) /\
  (exists b vb,
     recorded s time1 time2 size !! b = Some vb /\
     MultipleVariantsWithStatistics.selected_variant
       (MultipleVariantsWithStatistics.state r)
     = VariantWithStatistics.func vb /\
     last (MultipleVariantsWithStatistics.trace r)
     = Some (Cerr (VariantWithStatistics.kind vb)) /\
     (Double.is_nan (VariantWithStatistics.score vb) = true ->
      b = 0%nat /\
      forall j vj, recorded s time1 time2 size !! j = Some vj ->
        Double.ltb (VariantWithStatistics.score vj)
                   (Double.lit 1000000000 0) = false)) /\
  (MultipleVariantsWithStatistics.variants s
   = MultipleVariantsWithStatistics.variants variants ->
   size <= UInt32 (time2 - time1) ->
   recorded s time1 time2 size !! 0%nat
   = Some (VariantWithStatistics.new 1 memcpy) /\
   MultipleVariantsWithStatistics.selected_variant
     (MultipleVariantsWithStatistics.state r) = memcpy /\
   last (MultipleVariantsWithStatistics.trace r) = Some (Cerr 1)).
Proof.
  intros Hlen Hcount r.
  assert (Forall (fun v =>
    VariantWithStatistics.time v = 0 /\
    VariantWithStatistics.bytes v = 0 /\
    VariantWithStatistics.count v = 0 /\
    VariantWithStatistics.score v = S754_nan /\
    (forall best_score,
       Double.ltb (VariantWithStatistics.score v) best_score = false) /\
    VariantWithStatistics.time (VariantWithStatistics.smooth v) = 1 /\
    VariantWithStatistics.bytes (VariantWithStatistics.smooth v) = 1 /\
    VariantWithStatistics.count (VariantWithStatistics.smooth v) = 1 /\
    VariantWithStatistics.score (VariantWithStatistics.smooth v)
      = Double.lit 2 0)
    (MultipleVariantsWithStatistics.variants variants)) as Hfresh
    by repeat constructor.
  destruct (explore_reoptimizing s m time1 time2 dst src size Hlen Hcount)
    as (v & b & vb & _ & Hb & Hsel & Hr).
  assert (Double.is_nan (VariantWithStatistics.score vb) = true ->
          b = 0%nat /\
          forall j vj, recorded s time1 time2 size !! j = Some vj ->
            Double.ltb (VariantWithStatistics.score vj)
                       (Double.lit 1000000000 0) = false) as Hdefault.
  { intros Hnan. destruct Hsel as (vb' & Hb' & [[-> Hall]|(Hlt & _)]);
      [done|].
    rewrite Hb in Hb'. injection Hb' as <-.
    by destruct (VariantWithStatistics.score vb). }
  subst r. rewrite Hr. cbn [MultipleVariantsWithStatistics.state
    MultipleVariantsWithStatistics.trace
    MultipleVariantsWithStatistics.selected_variant].
  split; [exact Hfresh|]. split; [by exists b, vb|].
  intros Hregistry Hrejected.
  assert (recorded s time1 time2 size
          = MultipleVariantsWithStatistics.variants variants) as Hrec.
  { unfold recorded. by destruct (Z.ltb_spec (UInt32 (time2 - time1)) size);
      [lia|]. }
  rewrite Hrec in *.
  destruct (Forall_lookup_1 _ _ _ _ Hfresh Hb) as (_ & _ & _ & Hscore & _).
  destruct Hdefault as [-> _]; [by rewrite Hscore|].
  injection Hb as <-. done.
Qed.

Lemma C4_fresh_tracker_scores_nan_witness :
  let r := MultipleVariantsWithStatistics.explore (H := reference_kernels)
             at_period_end zero_memory 0 40000 0 100000 30000 in
  recorded at_period_end 0 40000 30000 !! 0%nat
  = Some (VariantWithStatistics.new 1 memcpy) /\
  MultipleVariantsWithStatistics.selected_variant
    (MultipleVariantsWithStatistics.state r) = memcpy /\
  last (MultipleVariantsWithStatistics.trace r) = Some (Cerr 1).
Proof.
  intros r.
  destruct (C4_fresh_tracker_scores_nan (H := reference_kernels)
              at_period_end zero_memory 0 40000 0 100000 30000)
    as (_ & _ & Hdefault); [reflexivity|reflexivity|].
  apply Hdefault; [reflexivity|]. vm_compute. discriminate.
Defined.

(** C4, the claim as stated fails: no tracker of the initial registry is
    seeded (every [count] and [bytes] is 0, not at least 1) and the divisor
    of [score()] is 0.0, the result being NaN. *)
Lemma C4_counterexample :
  Forall (fun v =>
    ~ 1 <= VariantWithStatistics.count v /\
    ~ 1 <= VariantWithStatistics.bytes v /\
    Double.of_size_t (VariantWithStatistics.bytes v) = S754_zero false /\
    Double.is_nan (VariantWithStatistics.score v) = true)
    (MultipleVariantsWithStatistics.variants variants).
Proof.
  repeat constructor; vm_compute; congruence.
Qed.

(** ** One tracker under samples and decays *)







(** ** The fixed paths of memcpy_selftuned terminate *)

Lemma copy_tail_total fuel : forall m dst src size,
  size <= Z.of_nat fuel -> is_Some (copy_tail fuel m dst src size).
Proof.
  induction fuel as [|fuel IH]; intros m dst src size Hfuel;
    cbn [copy_tail]; destruct (Z.ltb_spec 16 size); try done; try lia.
  apply IH. lia.
Qed.

Lemma copy_unrolled_total fuel : forall m dst src size,
  size <= Z.of_nat fuel ->
  exists m' dst' src' size',
    copy_unrolled fuel m dst src size = Some (m', dst', src', size') /\
    size' <= size.
Proof.
  induction fuel as [|fuel IH]; intros m dst src size Hfuel;
    cbn [copy_unrolled]; destruct (Z.leb_spec 128 size); try lia.
  - by exists m, dst, src, size.
  - destruct (IH (copy_block m dst src 128) (dst + 128) (src + 128)
                (size - 128)) as (m' & dst' & src' & size' & -> & Hle);
      [lia|].
    exists m', dst', src', size'. split; [done|lia].
  - by exists m, dst, src, size.
Qed.

Lemma copy_upto128_total m dst src size :
  0 <= size -> is_Some (copy_upto128 m dst src size).
Proof. intros Hsize. apply copy_tail_total. lia. Qed.

Lemma copy_below30000_total m dst src size :
  0 <= size -> is_Some (copy_below30000 m dst src size).
Proof.
  intros Hsize. unfold copy_below30000.
  assert (0 <= Z.land (16 - Z.land dst 15) 15) as Hpad
    by (apply Z.land_nonneg; lia).
  destruct (0 <? Z.land (16 - Z.land dst 15) 15).
  - destruct (copy_unrolled_total (Z.to_nat size)
                (copy_block m dst src 16)
                (dst + Z.land (16 - Z.land dst 15) 15)
                (src + Z.land (16 - Z.land dst 15) 15)
                (size - Z.land (16 - Z.land dst 15) 15))
      as (m' & dst' & src' & size' & -> & Hle); [lia|].
    apply copy_tail_total. lia.
  - destruct (copy_unrolled_total (Z.to_nat size) m dst src size)
      as (m' & dst' & src' & size' & -> & Hle); [lia|].
    apply copy_tail_total. lia.
Qed.

Section CallCount.
Context `{KernelSemantics}.

Lemma call_count s m time1 time2 dst src size :
  well_formed s ->
  MultipleVariantsWithStatistics.count
    (MultipleVariantsWithStatistics.state
       (MultipleVariantsWithStatistics.call s m time1 time2 dst src size))
  = size_t (MultipleVariantsWithStatistics.count s + 1).
Proof.
  intros Hwf.
  destruct (Z.lt_ge_cases
              (MultipleVariantsWithStatistics.count s mod 256)
              (MultipleVariantsWithStatistics.exploration_probability_threshold s))
    as [Hlt|Hge].
  - by rewrite call_exploit.
  - rewrite call_explore by done.
    by destruct (explore_scheduling (counted s) m time1 time2 dst src size
                   (counted_well_formed s Hwf)) as (-> & _).
Qed.

End CallCount.




(** ** The fixed paths copy: checks on concrete buffers *)

Example memcpy_selftuned_copies_small :
  forallb (fun size => copies size 5000 100)
          [0; 1; 2; 3; 4; 5; 7; 8; 9; 15; 16] = true.
Proof. vm_compute. reflexivity. Qed.

Example memcpy_selftuned_copies_medium :
  forallb (fun size => copies size 5003 100) [17; 31; 32; 33; 100; 128]
  = true.
Proof. vm_compute. reflexivity. Qed.

Example memcpy_selftuned_copies_large :
  forallb (fun size => copies size 5003 100) [129; 300; 1000] = true.
Proof. vm_compute. reflexivity. Qed.

(** * Further properties *)

(** * Further properties of the dispatcher *)

(** ** The registry columns never change *)

Lemma registry_recorded s time1 time2 size :
  (fun v => (VariantWithStatistics.func v, VariantWithStatistics.kind v))
    <$> recorded s time1 time2 size
  = registry s.
Proof.
  unfold recorded, registry. case_match; [|done].
  apply list_eq. intros i. rewrite !list_lookup_fmap.
  destruct (decide (i = cell_of
              (MultipleVariantsWithStatistics.exploration_count s)))
    as [->|Hne].
  - rewrite list_lookup_alter_eq.
    by destruct (MultipleVariantsWithStatistics.variants s !! _).
  - by rewrite list_lookup_alter_ne.
Qed.

Lemma registry_smoothed (vs : list VariantWithStatistics.t) :
  (fun v => (VariantWithStatistics.func v, VariantWithStatistics.kind v))
    <$> (VariantWithStatistics.smooth <$> vs)
  = (fun v => (VariantWithStatistics.func v, VariantWithStatistics.kind v))
      <$> vs.
Proof. rewrite <- list_fmap_compose. by apply list_fmap_ext. Qed.

Section Registry.
Context `{KernelSemantics}.

Lemma explore_registry s m time1 time2 dst src size :
  length (MultipleVariantsWithStatistics.variants s) = 16%nat ->
  let r := MultipleVariantsWithStatistics.explore s m time1 time2
             dst src size in
  registry (MultipleVariantsWithStatistics.state r) = registry s /\
  (MultipleVariantsWithStatistics.selected_variant
     (MultipleVariantsWithStatistics.state r)
   = MultipleVariantsWithStatistics.selected_variant s \/
   MultipleVariantsWithStatistics.selected_variant
     (MultipleVariantsWithStatistics.state r) ∈ (registry s).*1) /\
  forall f d sr n,
    Invoke f d sr n ∈ MultipleVariantsWithStatistics.trace r ->
    f ∈ (registry s).*1.
Proof.
  intros Hlen r.
  assert (forall i v, MultipleVariantsWithStatistics.variants s !! i = Some v ->
            VariantWithStatistics.func v ∈ (registry s).*1) as Hin.
  { intros i v Hv. unfold registry. rewrite <- list_fmap_compose.
    apply list_elem_of_fmap. exists v. split; [done|].
    by apply list_elem_of_lookup_2 in Hv. }
  destruct (decide (MultipleVariantsWithStatistics.exploration_count s
                    = 256)) as [H256|H256].
  - destruct (explore_reoptimizing s m time1 time2 dst src size Hlen H256)
      as (v & b & vb & Hv & Hb & _ & Hr).
    subst r. rewrite Hr. cbn [MultipleVariantsWithStatistics.state
      MultipleVariantsWithStatistics.trace
      MultipleVariantsWithStatistics.selected_variant].
    split_and!.
    + unfold registry at 1. cbn [MultipleVariantsWithStatistics.variants].
      by rewrite registry_smoothed, registry_recorded.
    + right. rewrite <- (registry_recorded s time1 time2 size).
      rewrite <- list_fmap_compose. apply list_elem_of_fmap.
      exists vb. split; [done|]. by apply list_elem_of_lookup_2 in Hb.
    + intros f d sr n Hf.
      apply elem_of_cons in Hf as [Hf|Hf]; [|by apply list_elem_of_singleton in Hf].
      injection Hf as -> -> -> ->. by eapply Hin.
  - destruct (explore_plain s m time1 time2 dst src size Hlen H256)
      as (v & Hv & Hr).
    subst r. rewrite Hr. cbn [MultipleVariantsWithStatistics.state
      MultipleVariantsWithStatistics.trace explored
      MultipleVariantsWithStatistics.selected_variant].
    split_and!.
    + unfold registry at 1. cbn [MultipleVariantsWithStatistics.variants].
      apply registry_recorded.
    + by left.
    + intros f d sr n Hf. apply list_elem_of_singleton in Hf.
      injection Hf as -> -> -> ->. by eapply Hin.
Qed.

Lemma reachable_registry s :
  reachable s ->
  registry s = registry variants /\
  MultipleVariantsWithStatistics.selected_variant s ∈ (registry variants).*1.
Proof.
  induction 1 as [|s m time1 time2 dst src size Hs [IHr IHs]].
  - split; [done|]. vm_compute. left.
  - pose proof (reachable_well_formed s Hs) as Hwf.
    destruct (Z.lt_ge_cases
                (MultipleVariantsWithStatistics.count s mod 256)
                (MultipleVariantsWithStatistics.exploration_probability_threshold s))
      as [Hlt|Hge].
    + rewrite call_exploit by done. by cbn.
    + rewrite call_explore by done.
      destruct (explore_registry (counted s) m time1 time2 dst src size
                  (wf_cells s Hwf)) as (Hreg & Hsel & _).
      change (registry (counted s)) with (registry s) in *.
      rewrite IHr in *. split; [done|].
      by destruct Hsel as [->|?].
Qed.

End Registry.

(** X1: on every dispatcher that sequential calls can produce, the
    function and the tag of every registry cell are those of the initial
    registry (only statistics change), the selected variant is one of the
    sixteen registered functions, and any kernel a call invokes is a
    registered function. *)
Theorem registry_is_immutable `{KernelSemantics}
    s m time1 time2 dst src size :
  reachable s ->
  registry s = registry variants /\
  MultipleVariantsWithStatistics.selected_variant s
    ∈ (registry variants).*1 /\
  forall f d sr n,
    Invoke f d sr n
      ∈ MultipleVariantsWithStatistics.trace
          (MultipleVariantsWithStatistics.call s m time1 time2 dst src size) ->
    f ∈ (registry variants).*1.
Proof.
  intros Hs. destruct (reachable_registry s Hs) as [Hreg Hsel].
  split; [done|]. split; [done|].
  pose proof (reachable_well_formed s Hs) as Hwf.
  destruct (Z.lt_ge_cases
              (MultipleVariantsWithStatistics.count s mod 256)
              (MultipleVariantsWithStatistics.exploration_probability_threshold s))
    as [Hlt|Hge].
  - rewrite call_exploit by done. cbn. intros f d sr n Hf.
    apply list_elem_of_singleton in Hf. by injection Hf as -> -> -> ->.
  - rewrite call_explore by done.
    destruct (explore_registry (counted s) m time1 time2 dst src size
                (wf_cells s Hwf)) as (_ & _ & Hinv).
    change (registry (counted s)) with (registry s) in Hinv.
    by rewrite Hreg in Hinv.
Qed.

Lemma registry_is_immutable_witness :
  registry steady = registry variants /\
  MultipleVariantsWithStatistics.selected_variant steady
    ∈ (registry variants).*1.
Proof.
  destruct (registry_is_immutable (H := reference_kernels)
              steady zero_memory 0 100 0 100000 30000 steady_reachable)
    as (Hreg & Hsel & _).
  split; [exact Hreg|exact Hsel].
Defined.

(** ** The period of reoptimizations *)

Section Period.
Context `{KernelSemantics}.



End Period.



(** ** The exploration rate never reaches zero *)

Lemma threshold_step_table t :
  0 <= t <= 254 ->
  MultipleVariantsWithStatistics.next_threshold t <= 254 /\
  (t < 254 -> t < MultipleVariantsWithStatistics.next_threshold t) /\
  (t = 254 -> MultipleVariantsWithStatistics.next_threshold t = 254).
Proof.
  intros Ht.
  assert (threshold_step_check t = true) as Hc.
  { apply (check_below threshold_step_check 255); [by vm_compute|lia]. }
  unfold threshold_step_check in Hc.
  apply andb_prop in Hc as [H1 H2]. apply orb_prop in H2.
  split; [lia|]. split; [lia|]. intros ->. by vm_compute.
Qed.

Section Residual.
Context `{KernelSemantics}.

Lemma reachable_threshold s :
  reachable s ->
  MultipleVariantsWithStatistics.exploration_probability_threshold s <= 254.
Proof.
  induction 1 as [|s m time1 time2 dst src size Hs IH]; [done|].
  pose proof (reachable_well_formed s Hs) as Hwf.
  destruct (Z.lt_ge_cases
              (MultipleVariantsWithStatistics.count s mod 256)
              (MultipleVariantsWithStatistics.exploration_probability_threshold s))
    as [Hlt|Hge].
  - by rewrite call_exploit.
  - rewrite call_explore by done.
    destruct (explore_scheduling (counted s) m time1 time2 dst src size
                (counted_well_formed s Hwf))
      as (_ & _ & [(_ & _ & ->)|(_ & _ & ->)]); [done|].
    apply threshold_step_table. pose proof (wf_threshold s Hwf). cbn. lia.
Qed.

End Residual.

(** X3: the threshold of a reachable dispatcher is at most 254, the clamp
    to 255 never being the smaller argument of [std::min]; a
    reoptimization raises a threshold below 254 strictly and leaves 254
    where it is: the new threshold of 254 is 254.  So exploration never
    stops: a call whose counter is 254 or 255 modulo 256 always
    explores. *)
Theorem exploration_never_stops `{KernelSemantics}
    s m time1 time2 dst src size :
  reachable s ->
  let t := MultipleVariantsWithStatistics.exploration_probability_threshold
             s in
  let r := MultipleVariantsWithStatistics.call s m time1 time2
             dst src size in
  0 <= t <= 254 /\
  MultipleVariantsWithStatistics.next_threshold t <= 254 /\
  (t < 254 -> t < MultipleVariantsWithStatistics.next_threshold t) /\
  (t = 254 -> MultipleVariantsWithStatistics.next_threshold t = 254) /\
  t <= MultipleVariantsWithStatistics.next_threshold t /\
  (254 <= MultipleVariantsWithStatistics.count s mod 256 ->
   r = MultipleVariantsWithStatistics.explore (counted s) m time1 time2
         dst src size /\
   MultipleVariantsWithStatistics.exploration_count
     (MultipleVariantsWithStatistics.state r)
   <> MultipleVariantsWithStatistics.exploration_count s).
Proof.
  intros Hs t r. pose proof (reachable_well_formed s Hs) as Hwf.
  pose proof (reachable_threshold s Hs) as Hle. fold t in Hle.
  pose proof (wf_threshold s Hwf) as [H0 _]. fold t in H0.
  destruct (threshold_step_table t) as (Hnext & Hstrict & Hfixed); [lia|].
  split; [lia|]. split; [done|]. split; [done|]. split; [done|].
  split; [destruct (decide (t = 254)); [rewrite Hfixed|]; lia|].
  intros Hcount. subst r. rewrite call_explore by (fold t; lia).
  split; [done|].
  by destruct (explore_scheduling (counted s) m time1 time2 dst src size
                 (counted_well_formed s Hwf)) as (_ & ? & _).
Qed.

Lemma exploration_never_stops_witness :
  MultipleVariantsWithStatistics.exploration_probability_threshold steady
  <= MultipleVariantsWithStatistics.next_threshold
       (MultipleVariantsWithStatistics.exploration_probability_threshold
          steady)
  <= 254.
Proof.
  destruct (exploration_never_stops (H := reference_kernels)
              steady zero_memory 0 100 0 100000 30000 steady_reachable)
    as (_ & Hnext & _ & _ & Hle & _).
  split; [exact Hle|exact Hnext].
Defined.

(** ** Statistics under workloads of bounded sizes *)




Section Bounded.
Context `{KernelSemantics}.



End Bounded.



(** ** The hash is a permutation of the 64-bit values *)

Lemma lxor_shiftr_33_involutive x :
  is_size_t x ->
  Z.lxor (Z.lxor x (Z.shiftr x 33)) (Z.shiftr (Z.lxor x (Z.shiftr x 33)) 33)
  = x.
Proof.
  intros [Hx0 Hx]. rewrite Z.shiftr_lxor, Z.shiftr_shiftr by lia.
  rewrite <- Z.lxor_assoc, (Z.lxor_assoc x), Z.lxor_nilpotent, Z.lxor_0_r.
  replace (Z.shiftr x (33 + 33)) with 0; [apply Z.lxor_0_r|].
  rewrite Z.shiftr_div_pow2 by lia. symmetry. apply Z.div_small. lia.
Qed.

Lemma lxor_shiftr_33_range x :
  is_size_t x -> is_size_t (Z.lxor x (Z.shiftr x 33)).
Proof.
  intros [Hx0 Hx].
  assert (0 <= Z.shiftr x 33) as Hs0 by (apply Z.shiftr_nonneg; lia).
  assert (Z.shiftr x 33 <= x) as Hsx.
  { rewrite Z.shiftr_div_pow2 by lia.
    apply Z.div_le_upper_bound; [lia|]. nia. }
  assert (0 <= Z.lxor x (Z.shiftr x 33)) as Hl0
    by (apply Z.lxor_nonneg; tauto).
  split; [done|].
  destruct (decide (Z.lxor x (Z.shiftr x 33) = 0)) as [->|Hne]; [lia|].
  assert (0 < Z.lxor x (Z.shiftr x 33)) by lia.
  apply Z.log2_lt_pow2; [done|].
  pose proof (Z.log2_lxor x (Z.shiftr x 33) Hx0 Hs0) as Hlog.
  assert (Z.log2 x < 64).
  { destruct (decide (x = 0)) as [->|]; [done|].
    apply Z.log2_lt_pow2; lia. }
  assert (Z.log2 (Z.shiftr x 33) <= Z.log2 x) by (apply Z.log2_le_mono; lia).
  lia.
Qed.

Lemma multiplier_inverse n :
  size_t (size_t (n * 0xff51afd7ed558ccd) * 0x4f74430c22a54005) = size_t n.
Proof.
  unfold size_t. rewrite Z.mul_mod_idemp_l by lia.
  rewrite <- Z.mul_assoc.
  rewrite <- Z.mul_mod_idemp_r by lia.
  change ((0xff51afd7ed558ccd * 0x4f74430c22a54005) mod 2 ^ 64) with 1.
  by rewrite Z.mul_1_r.
Qed.

Lemma multiplier_inverse' n :
  size_t (size_t (n * 0x4f74430c22a54005) * 0xff51afd7ed558ccd) = size_t n.
Proof.
  unfold size_t. rewrite Z.mul_mod_idemp_l by lia.
  rewrite <- Z.mul_assoc.
  rewrite <- Z.mul_mod_idemp_r by lia.
  change ((0x4f74430c22a54005 * 0xff51afd7ed558ccd) mod 2 ^ 64) with 1.
  by rewrite Z.mul_1_r.
Qed.

(** X5: the hash of [explore] is a permutation of the [size_t] values:
    it maps [size_t] values to [size_t] values, [unhash] inverts it on both
    sides, and so two different counters never hash to the same value. *)
Theorem hash_is_a_permutation n n' :
  is_size_t n -> is_size_t n' ->
  is_size_t (MultipleVariantsWithStatistics.hash n) /\
  unhash (MultipleVariantsWithStatistics.hash n) = n /\
  MultipleVariantsWithStatistics.hash (unhash n) = n /\
  (MultipleVariantsWithStatistics.hash n
   = MultipleVariantsWithStatistics.hash n' -> n = n').
Proof.
  intros Hn Hn'.
  assert (forall k, is_size_t k ->
            unhash (MultipleVariantsWithStatistics.hash k) = k) as Hinv.
  { intros k Hk. unfold unhash, MultipleVariantsWithStatistics.hash.
    rewrite lxor_shiftr_33_involutive by apply size_t_range.
    rewrite multiplier_inverse. by apply size_t_small. }
  split_and!.
  - apply lxor_shiftr_33_range, size_t_range.
  - by apply Hinv.
  - unfold unhash, MultipleVariantsWithStatistics.hash.
    rewrite multiplier_inverse'.
    rewrite size_t_small by by apply lxor_shiftr_33_range.
    by apply lxor_shiftr_33_involutive.
  - intros Heq. rewrite <- (Hinv n), <- (Hinv n') by done. by rewrite Heq.
Qed.

Lemma hash_is_a_permutation_witness :
  unhash (MultipleVariantsWithStatistics.hash 256) = 256 /\
  MultipleVariantsWithStatistics.hash (unhash 12345) = 12345.
Proof.
  destruct (hash_is_a_permutation 256 12345) as (_ & H1 & _).
  { vm_compute. split; [discriminate|reflexivity]. }
  { vm_compute. split; [discriminate|reflexivity]. }
  destruct (hash_is_a_permutation 12345 256) as (_ & _ & H2 & _).
  { vm_compute. split; [discriminate|reflexivity]. }
  { vm_compute. split; [discriminate|reflexivity]. }
  split; [exact H1|exact H2].
Defined.

(** X6: over one period (the exploration counter running through 0..256)
    every one of the sixteen cells is explored at least 14 and at most 18
    times: no kernel is starved of samples. *)
Theorem every_cell_is_explored_each_period (cell : nat) :
  (cell < 16)%nat ->
  let visits := length (List.filter (Nat.eqb cell) period_cells) in
  (14 <= visits <= 18)%nat.
Proof.
  intros Hcell.
  do 16 (destruct cell as [|cell]; [vm_compute; lia|]). lia.
Qed.

Lemma every_cell_is_explored_each_period_witness :
  (14 <= length (List.filter (Nat.eqb 15) period_cells) <= 18)%nat.
Proof.
  apply (every_cell_is_explored_each_period 15). lia.
Defined.

(** * Copying *)

(** ** Blocks *)

Lemma load_lookup m p n (k : nat) :
  load m p n !! k = if decide (k < n)%nat then Some (m (p + Z.of_nat k))
                    else None.
Proof.
  unfold load. rewrite list_lookup_fmap.
  destruct (decide (k < n)%nat).
  - by rewrite lookup_seq_lt.
  - by rewrite lookup_seq_ge by lia.
Qed.

Lemma copy_block_at m dst src n a :
  copy_block m dst src n a
  = if decide (dst <= a < dst + Z.of_nat n) then m (src + (a - dst))
    else m a.
Proof.
  unfold copy_block, store.
  destruct (Z.leb_spec dst a).
  - rewrite load_lookup.
    destruct (decide (Z.to_nat (a - dst) < n)%nat);
      destruct (decide (dst <= a < dst + Z.of_nat n)); try lia; [|done].
    f_equal. lia.
  - by destruct (decide (dst <= a < dst + Z.of_nat n)); [lia|].
Qed.

Lemma partial_copy_start m dst src size :
  partial_copy m m dst src size (fun _ => False).
Proof. split; [done|]. by intros i _ []. Qed.

Lemma partial_copy_weaken m0 m dst src size (P Q : Z -> Prop) :
  (forall i, 0 <= i < size -> Q i -> P i) ->
  partial_copy m0 m dst src size P -> partial_copy m0 m dst src size Q.
Proof. intros HQP [Hout Hin]. split; [done|]. eauto. Qed.

Lemma partial_copy_finish m0 m dst src size (P : Z -> Prop) :
  (forall i, 0 <= i < size -> P i) ->
  partial_copy m0 m dst src size P ->
  copied m0 m dst src size /\ unchanged_outside m0 m dst size.
Proof. intros HP [Hout Hin]. split; [|done]. intros i Hi. eauto. Qed.

(** Any correct copy of a part extends a copy in progress. *)
Lemma partial_copy_extend m0 m m' dst src size P off len :
  no_overlap dst src size ->
  partial_copy m0 m dst src size P ->
  0 <= off -> 0 <= len -> off + len <= size ->
  copied m m' (dst + off) (src + off) len ->
  unchanged_outside m m' (dst + off) len ->
  partial_copy m0 m' dst src size (fun i => P i \/ off <= i < off + len).
Proof.
  intros Hdis [Hout Hin] Hoff Hlen Hfit Hcopied Hframe. split.
  - intros a Ha. rewrite Hframe by lia. by apply Hout.
  - intros i Hi HP.
    destruct (decide (off <= i < off + len)) as [Hblock|Hblock].
    + replace (dst + i) with (dst + off + (i - off)) by lia.
      rewrite Hcopied by lia.
      replace (src + off + (i - off)) with (src + i) by lia.
      apply Hout. unfold no_overlap in Hdis. lia.
    + rewrite Hframe by lia. apply Hin; [done|]. destruct HP; [done|lia].
Qed.

Lemma copy_block_copies m dst src n :
  no_overlap dst src (Z.of_nat n) ->
  copied m (copy_block m dst src n) dst src (Z.of_nat n) /\
  unchanged_outside m (copy_block m dst src n) dst (Z.of_nat n).
Proof.
  intros Hdis. split.
  - intros i Hi. rewrite copy_block_at.
    destruct (decide (dst <= dst + i < dst + Z.of_nat n)); [|lia].
    f_equal. lia.
  - intros a Ha. rewrite copy_block_at.
    by destruct (decide (dst <= a < dst + Z.of_nat n)).
Qed.

(** One block of the source copied at its place. *)
Lemma partial_copy_block m0 m dst src size P off (n : nat) :
  no_overlap dst src size ->
  partial_copy m0 m dst src size P ->
  0 <= off -> off + Z.of_nat n <= size ->
  partial_copy m0 (copy_block m (dst + off) (src + off) n) dst src size
    (fun i => P i \/ off <= i < off + Z.of_nat n).
Proof.
  intros Hdis Hpc Hoff Hfit.
  destruct (copy_block_copies m (dst + off) (src + off) n).
  { unfold no_overlap in *. lia. }
  by eapply partial_copy_extend; [..|done|done]; try lia.
Qed.

(** ** The loops of memcpy_selftuned *)

Lemma copy_tail_partial fuel m0 dst src size :
  no_overlap dst src size ->
  forall m off (P : Z -> Prop),
  partial_copy m0 m dst src size P ->
  0 <= off -> size - off <= Z.of_nat fuel ->
  exists m',
    copy_tail fuel m (dst + off) (src + off) (size - off) = Some m' /\
    partial_copy m0 m' dst src size (fun i => P i \/ off <= i < size - 16).
Proof.
  intros Hdis. induction fuel as [|fuel IH]; intros m off P Hpc Hoff Hfuel;
    cbn [copy_tail]; destruct (Z.ltb_spec 16 (size - off)); try lia.
  - exists m. split; [done|].
    eapply partial_copy_weaken; [|exact Hpc]. intros i Hi [?|?]; [done|lia].
  - destruct (IH (copy_block m (dst + off) (src + off) 16) (off + 16)
                (fun i => P i \/ off <= i < off + 16))
      as (m' & Hm' & Hpc'); [|lia|lia|].
    { apply (partial_copy_block m0 m dst src size P off 16); [done..|lia|lia]. }
    exists m'. split.
    + rewrite <- Hm'. f_equal; lia.
    + eapply partial_copy_weaken; [|exact Hpc'].
      intros i Hi [?|?]; [tauto|]. lia.
  - exists m. split; [done|].
    eapply partial_copy_weaken; [|exact Hpc]. intros i Hi [?|?]; [done|lia].
Qed.

Lemma copy_unrolled_partial fuel m0 dst src size :
  no_overlap dst src size ->
  forall m off (P : Z -> Prop),
  partial_copy m0 m dst src size P ->
  0 <= off <= size -> size - off <= Z.of_nat fuel ->
  exists m' off',
    copy_unrolled fuel m (dst + off) (src + off) (size - off)
    = Some (m', dst + off', src + off', size - off') /\
    off <= off' <= size /\ size - off' < 128 /\
    (off' - off) mod 128 = 0 /\
    partial_copy m0 m' dst src size (fun i => P i \/ off <= i < off').
Proof.
  intros Hdis. induction fuel as [|fuel IH]; intros m off P Hpc Hoff Hfuel;
    cbn [copy_unrolled]; destruct (Z.leb_spec 128 (size - off)); try lia.
  - exists m, off. split; [done|]. split; [lia|]. split; [lia|].
    split; [by rewrite Z.sub_diag|].
    eapply partial_copy_weaken; [|exact Hpc]. intros i Hi [?|?]; [done|lia].
  - destruct (IH (copy_block m (dst + off) (src + off) 128) (off + 128)
                (fun i => P i \/ off <= i < off + 128))
      as (m' & off' & Hm' & Hoff' & Hrest & Hmod & Hpc'); [|lia|lia|].
    { apply (partial_copy_block m0 m dst src size P off 128); [done..|lia|lia]. }
    exists m', off'. split; [|split; [lia|split; [lia|split]]].
    + rewrite <- Hm'. f_equal; lia.
    + replace (off' - off) with (off' - (off + 128) + 1 * 128) by lia.
      by rewrite Z_mod_plus_full.
    + eapply partial_copy_weaken; [|exact Hpc'].
      intros i Hi [?|?]; [tauto|]. lia.
  - exists m, off. split; [done|]. split; [lia|]. split; [lia|].
    split; [by rewrite Z.sub_diag|].
    eapply partial_copy_weaken; [|exact Hpc]. intros i Hi [?|?]; [done|lia].
Qed.

Lemma copy_upto16_copies m dst src size :
  0 <= size <= 16 ->
  no_overlap dst src size ->
  copied m (copy_upto16 m dst src size) dst src size /\
  unchanged_outside m (copy_upto16 m dst src size) dst size.
Proof.
  intros Hsize Hdis. unfold copy_upto16.
  pose proof (partial_copy_start m dst src size) as H0.
  assert (forall n : nat, Z.of_nat n <= size -> size <= 2 * Z.of_nat n ->
            copied m
              (copy_block (copy_block m (dst + size - Z.of_nat n)
                             (src + size - Z.of_nat n) n) dst src n)
              dst src size /\
            unchanged_outside m
              (copy_block (copy_block m (dst + size - Z.of_nat n)
                             (src + size - Z.of_nat n) n) dst src n)
              dst size) as Htwo.
  { intros n Hn1 Hn2.
    pose proof (partial_copy_block m m dst src size _ (size - Z.of_nat n) n
                  Hdis H0) as H1.
    replace (dst + (size - Z.of_nat n)) with (dst + size - Z.of_nat n)
      in H1 by lia.
    replace (src + (size - Z.of_nat n)) with (src + size - Z.of_nat n)
      in H1 by lia.
    specialize (H1 ltac:(lia) ltac:(lia)).
    pose proof (partial_copy_block m _ dst src size _ 0 n Hdis H1) as H2.
    rewrite !Z.add_0_r in H2. specialize (H2 ltac:(lia) ltac:(lia)).
    eapply partial_copy_finish; [|exact H2]. cbv beta. lia. }
  destruct (Z.leb_spec 8 size); [by apply (Htwo 8%nat); lia|].
  destruct (Z.leb_spec 4 size); [by apply (Htwo 4%nat); lia|].
  destruct (Z.leb_spec 2 size); [by apply (Htwo 2%nat); lia|].
  destruct (Z.leb_spec 1 size).
  - assert (size = 1) as -> by lia.
    replace (store m dst [m src]) with (copy_block m dst src 1)
      by (unfold copy_block, load; cbn; by rewrite Z.add_0_r).
    by apply (copy_block_copies m dst src 1).
  - assert (size = 0) as -> by lia. split; [intros i Hi; lia|done].
Qed.

Lemma copy_upto128_copies m dst src size :
  16 < size ->
  no_overlap dst src size ->
  exists m', copy_upto128 m dst src size = Some m' /\
    copied m m' dst src size /\ unchanged_outside m m' dst size.
Proof.
  intros Hsize Hdis. unfold copy_upto128.
  pose proof (partial_copy_block m m dst src size _ (size - 16) 16 Hdis
                (partial_copy_start m dst src size)) as H1.
  replace (dst + (size - 16)) with (dst + size - 16) in H1 by lia.
  replace (src + (size - 16)) with (src + size - 16) in H1 by lia.
  specialize (H1 ltac:(lia) ltac:(lia)).
  destruct (copy_tail_partial (Z.to_nat size) m dst src size Hdis _ 0 _ H1)
    as (m' & Hm' & Hpc); [lia|lia|].
  rewrite !Z.add_0_r, Z.sub_0_r in Hm'.
  exists m'. split; [done|].
  eapply partial_copy_finish; [|exact Hpc]. cbv beta. lia.
Qed.

Lemma padding_range dst :
  0 <= Z.land (16 - Z.land dst 15) 15 <= 15.
Proof.
  split; [apply Z.land_nonneg; lia|].
  change 15 with (Z.ones 4) at 2. rewrite Z.land_ones by lia.
  change (2 ^ 4) with 16.
  pose proof (Z.mod_pos_bound (16 - Z.land dst 15) 16). lia.
Qed.

Lemma copy_below30000_copies m dst src size :
  128 < size ->
  no_overlap dst src size ->
  exists m', copy_below30000 m dst src size = Some m' /\
    copied m m' dst src size /\ unchanged_outside m m' dst size.
Proof.
  intros Hsize Hdis. unfold copy_below30000.
  pose proof (padding_range dst) as Hpad.
  set (padding := Z.land (16 - Z.land dst 15) 15) in *.
  assert (exists m1 (P : Z -> Prop),
            (if 0 <? padding
             then (copy_block m dst src 16, dst + padding, src + padding,
                   size - padding)
             else (m, dst, src, size))
            = (m1, dst + padding, src + padding, size - padding) /\
            partial_copy m m1 dst src size P /\
            forall i, 0 <= i < padding -> P i) as (m1 & P & -> & H1 & HP).
  { destruct (Z.ltb_spec 0 padding).
    - exists (copy_block m dst src 16), (fun i => False \/ 0 <= i < 0 + 16).
      split; [done|]. split; [|intros; lia].
      pose proof (partial_copy_block m m dst src size _ 0 16 Hdis
                    (partial_copy_start m dst src size)) as H1.
      rewrite !Z.add_0_r in H1. apply H1; lia.
    - exists m, (fun _ => False).
      assert (padding = 0) as -> by lia.
      rewrite !Z.add_0_r, Z.sub_0_r. split; [done|].
      split; [apply partial_copy_start|intros; lia]. }
  destruct (copy_unrolled_partial (Z.to_nat size) m dst src size Hdis
              m1 padding P H1) as (m2 & off & -> & Hoff & Hrest & _ & H2);
    [lia|lia|].
  pose proof (partial_copy_block m m2 dst src size _ (size - 16) 16 Hdis H2)
    as H3.
  replace (dst + (size - 16)) with (dst + off + (size - off) - 16)
    in H3 by lia.
  replace (src + (size - 16)) with (src + off + (size - off) - 16)
    in H3 by lia.
  specialize (H3 ltac:(lia) ltac:(lia)).
  destruct (copy_tail_partial (Z.to_nat size) m dst src size Hdis _ off _ H3)
    as (m' & Hm' & Hpc); [lia|lia|].
  exists m'. split; [done|].
  eapply partial_copy_finish; [|exact Hpc]. cbv beta. intros i Hi.
  destruct (decide (i < padding)); [left; left; left; apply HP; lia|].
  destruct (decide (i < off)); [left; left; right; lia|].
  destruct (decide (i < size - 16)); [right; lia|].
  left; right; lia.
Qed.

(** C10: for [size < 30000] [memcpy_selftuned] returns [dst] after copying
    through one of its three fixed paths (chosen by [size <= 16],
    [size <= 128], else), which involve no kernel and no dispatcher: the
    dispatcher is returned as it was and no event occurs; the path does
    perform the copy: between buffers that do not overlap the [size] bytes
    of [src] are at [dst] afterwards and no other byte has changed.  For
    [size >= 30000] it is exactly [variants.call].  So the dispatcher is
    called (its call counter advances) if and only if [size >= 30000]. *)
Theorem C10_small_sizes_bypass_dispatcher `{KernelSemantics}
    s m time1 time2 dst src size :
  is_size_t size ->
  well_formed s ->
  let out := memcpy_selftuned s m time1 time2 dst src size in
  (size < 30000 ->
   exists m',
     out = Some (MultipleVariantsWithStatistics.Result s m' dst []) /\
     ((size <= 16 /\ m' = copy_upto16 m dst src size) \/
      (16 < size <= 128 /\ copy_upto128 m dst src size = Some m') \/
      (128 < size /\ copy_below30000 m dst src size = Some m')) /\
     (no_overlap dst src size ->
      copied m m' dst src size /\ unchanged_outside m m' dst size)) /\
  (30000 <= size ->
   out = Some (MultipleVariantsWithStatistics.call s m time1 time2
                 dst src size)) /\
  ((exists r, out = Some r /\
      MultipleVariantsWithStatistics.count
        (MultipleVariantsWithStatistics.state r)
      <> MultipleVariantsWithStatistics.count s)
   <-> 30000 <= size).
Proof.
  intros [Hsize _] Hwf out.
  assert (size < 30000 ->
    exists m',
     out = Some (MultipleVariantsWithStatistics.Result s m' dst []) /\
     ((size <= 16 /\ m' = copy_upto16 m dst src size) \/
      (16 < size <= 128 /\ copy_upto128 m dst src size = Some m') \/
      (128 < size /\ copy_below30000 m dst src size = Some m')) /\
     (no_overlap dst src size ->
      copied m m' dst src size /\ unchanged_outside m m' dst size))
    as Hsmall.
  { intros Hlt. subst out. unfold memcpy_selftuned.
    destruct (Z.leb_spec size 16); [|destruct (Z.leb_spec size 128)].
    - eexists. split; [done|]. split; [by left|].
      intros Hdis. apply copy_upto16_copies; [lia|done].
    - destruct (copy_upto128_total m dst src size Hsize) as [m' Hm'].
      exists m'. rewrite Hm'. split; [done|].
      split; [right; left; split; [lia|done]|].
      intros Hdis.
      destruct (copy_upto128_copies m dst src size) as (m2 & Hm2 & Hc);
        [lia|done|].
      rewrite Hm' in Hm2. by injection Hm2 as <-.
    - destruct (Z.ltb_spec size 30000); [|lia].
      destruct (copy_below30000_total m dst src size Hsize) as [m' Hm'].
      exists m'. rewrite Hm'. split; [done|].
      split; [right; right; done|].
      intros Hdis.
      destruct (copy_below30000_copies m dst src size) as (m2 & Hm2 & Hc);
        [lia|done|].
      rewrite Hm' in Hm2. by injection Hm2 as <-. }
  assert (30000 <= size ->
    out = Some (MultipleVariantsWithStatistics.call s m time1 time2
                  dst src size)) as Hlarge.
  { intros Hge. subst out. unfold memcpy_selftuned.
    destruct (Z.leb_spec size 16); [lia|].
    destruct (Z.leb_spec size 128); [lia|].
    by destruct (Z.ltb_spec size 30000); [lia|]. }
  split; [done|]. split; [done|]. split.
  - intros (r & Hr & Hcount).
    destruct (Z.lt_ge_cases size 30000) as [Hlt|Hge]; [|done].
    destruct (Hsmall Hlt) as (m' & Hout & _).
    rewrite Hout in Hr. injection Hr as <-. by cbn in Hcount.
  - intros Hge. eexists. split; [by apply Hlarge|].
    rewrite call_count by done.
    apply size_t_succ_neq, Hwf.
Qed.

Lemma C10_small_sizes_bypass_dispatcher_witness :
  memcpy_selftuned (H := reference_kernels) steady zero_memory 0 100
    4096 100000 30000
  = Some (MultipleVariantsWithStatistics.call (H := reference_kernels)
            steady zero_memory 0 100 4096 100000 30000) /\
  exists m',
    memcpy_selftuned (H := reference_kernels) steady patterned_memory 0 100
      4096 100000 100
    = Some (MultipleVariantsWithStatistics.Result steady m' 4096 []) /\
    copied patterned_memory m' 4096 100000 100.
Proof.
  split.
  - destruct (C10_small_sizes_bypass_dispatcher (H := reference_kernels)
                steady zero_memory 0 100 4096 100000 30000)
      as (_ & Hlarge & _).
    + vm_compute. split; [discriminate|reflexivity].
    + apply steady_well_formed.
    + apply Hlarge. lia.
  - destruct (C10_small_sizes_bypass_dispatcher (H := reference_kernels)
                steady patterned_memory 0 100 4096 100000 100)
      as (Hsmall & _).
    + vm_compute. split; [discriminate|reflexivity].
    + apply steady_well_formed.
    + destruct Hsmall as (m' & Hout & _ & Hcopy); [lia|].
      exists m'. split; [exact Hout|]. apply Hcopy. left. lia.
Defined.

(** X7: for [size < 30000] and buffers that do not overlap,
    [memcpy_selftuned] terminates with the [size] bytes of the source at
    the destination, every byte outside [dst, dst + size) as it was, the
    dispatcher untouched, and returns [dst]. *)
Theorem memcpy_selftuned_copies_below_30000 `{KernelSemantics}
    s m time1 time2 dst src size :
  0 <= size < 30000 ->
  no_overlap dst src size ->
  exists m',
    memcpy_selftuned s m time1 time2 dst src size
    = Some (MultipleVariantsWithStatistics.Result s m' dst []) /\
    copied m m' dst src size /\
    unchanged_outside m m' dst size.
Proof.
  intros Hsize Hdis. unfold memcpy_selftuned.
  destruct (Z.leb_spec size 16); [|destruct (Z.leb_spec size 128)].
  - eexists. split; [done|]. apply copy_upto16_copies; [lia|done].
  - destruct (copy_upto128_copies m dst src size) as (m' & -> & Hc);
      [lia|done|].
    by exists m'.
  - destruct (Z.ltb_spec size 30000); [|lia].
    destruct (copy_below30000_copies m dst src size) as (m' & -> & Hc);
      [lia|done|].
    by exists m'.
Qed.

Lemma memcpy_selftuned_copies_below_30000_witness :
  exists m',
    memcpy_selftuned (H := reference_kernels) variants patterned_memory
      0 0 5003 100 300
    = Some (MultipleVariantsWithStatistics.Result variants m' 5003 []) /\
    copied patterned_memory m' 5003 100 300.
Proof.
  destruct (memcpy_selftuned_copies_below_30000 (H := reference_kernels)
              variants patterned_memory 0 0 5003 100 300)
    as (m' & Hm' & Hcopied & _).
  - lia.
  - right. lia.
  - exists m'. split; [exact Hm'|exact Hcopied].
Defined.

(** ** The dispatcher as a copy *)

Section DispatcherCopies.
Context `{KernelSemantics}.

(** A call is one call of one kernel: memory and return value are the
    kernel's, and nothing else happens but the printing of a
    reoptimization. *)
Lemma call_is_one_kernel s m time1 time2 dst src size :
  length (MultipleVariantsWithStatistics.variants s) = 16%nat ->
  let r := MultipleVariantsWithStatistics.call s m time1 time2
             dst src size in
  exists f printed,
    MultipleVariantsWithStatistics.trace r
      = Invoke f dst src size :: printed /\
    Forall (fun e => is_cerr e = true) printed /\
    MultipleVariantsWithStatistics.mem r = (exec f m dst src size).1 /\
    MultipleVariantsWithStatistics.ret r = (exec f m dst src size).2.
Proof.
  intros Hlen r.
  destruct (Z.lt_ge_cases
              (MultipleVariantsWithStatistics.count s mod 256)
              (MultipleVariantsWithStatistics.exploration_probability_threshold s))
    as [Hlt|Hge].
  - subst r. rewrite call_exploit by done. by eexists _, [].
  - subst r. rewrite call_explore by done.
    destruct (explore_unfold (counted s) m time1 time2 dst src size Hlen)
      as (v & _ & ->).
    exists (VariantWithStatistics.func v). cbv zeta.
    case_match; [|by exists []].
    eexists. split; [done|]. split; [|done].
    unfold MultipleVariantsWithStatistics.reoptimize.
    destruct (MultipleVariantsWithStatistics.scan _) as [[vs b] bs].
    destruct (vs !! b); cbn; by repeat constructor.
Qed.

End DispatcherCopies.

(** X8: for [size >= 30000], [memcpy_selftuned] terminates and makes one
    call of one kernel, with the [dst], [src] and [size] it was given,
    whether the call explores or not; nothing else happens but the
    printing of a reoptimization; its memory effect and its return value
    are those of that kernel.  So at every call where the kernel invoked
    copies, or writes nowhere outside the destination, the same holds of
    [memcpy_selftuned]. *)
Theorem memcpy_selftuned_copies_from_30000 `{KernelSemantics}
    s m time1 time2 dst src size :
  length (MultipleVariantsWithStatistics.variants s) = 16%nat ->
  30000 <= size ->
  exists r f printed,
    memcpy_selftuned s m time1 time2 dst src size = Some r /\
    MultipleVariantsWithStatistics.trace r
      = Invoke f dst src size :: printed /\
    Forall (fun e => is_cerr e = true) printed /\
    (MultipleVariantsWithStatistics.mem r,
     MultipleVariantsWithStatistics.ret r) = exec f m dst src size /\
    (copied m (exec f m dst src size).1 dst src size ->
     copied m (MultipleVariantsWithStatistics.mem r) dst src size) /\
    (unchanged_outside m (exec f m dst src size).1 dst size ->
     unchanged_outside m (MultipleVariantsWithStatistics.mem r) dst size).
Proof.
  intros Hlen Hsize.
  destruct (call_is_one_kernel s m time1 time2 dst src size Hlen)
    as (f & printed & Htrace & Hprinted & Hmem & Hret).
  exists (MultipleVariantsWithStatistics.call s m time1 time2 dst src size),
         f, printed.
  split.
  { unfold memcpy_selftuned.
    destruct (Z.leb_spec size 16); [lia|].
    destruct (Z.leb_spec size 128); [lia|].
    by destruct (Z.ltb_spec size 30000); [lia|]. }
  split; [done|]. split; [done|]. split.
  { rewrite Hmem, Hret. by destruct (exec f m dst src size). }
  by rewrite Hmem.
Qed.

Lemma reference_kernels_copy f m dst src size :
  0 <= size ->
  copied m (@exec reference_kernels f m dst src size).1 dst src size.
Proof.
  intros Hsize i Hi. cbn.
  destruct (Z.leb_spec dst (dst + i)); [|lia].
  destruct (Z.ltb_spec (dst + i) (dst + size)); [|lia].
  cbn. f_equal. lia.
Qed.

Lemma memcpy_selftuned_copies_from_30000_witness :
  exists r,
    memcpy_selftuned (H := reference_kernels) variants patterned_memory
      0 100 200000 100 40000 = Some r /\
    copied patterned_memory (MultipleVariantsWithStatistics.mem r)
      200000 100 40000.
Proof.
  destruct (memcpy_selftuned_copies_from_30000 (H := reference_kernels)
              variants patterned_memory 0 100 200000 100 40000)
    as (r & f & printed & Hr & _ & _ & _ & Hc & _).
  - reflexivity.
  - lia.
  - exists r. split; [exact Hr|]. apply Hc, reference_kernels_copy. lia.
Defined.

(** ** The byte loops *)

Lemma store_byte_is_block m dst src :
  store m dst [m src] = copy_block m dst src 1.
Proof. unfold copy_block, load. cbn. by rewrite Z.add_0_r. Qed.

Lemma rep_movsb_partial fuel m0 dst src size :
  no_overlap dst src size ->
  forall m off (P : Z -> Prop),
  partial_copy m0 m dst src size P ->
  0 <= off <= size -> size - off <= Z.of_nat fuel ->
  exists m',
    Kernels.rep_movsb fuel m (dst + off) (src + off) (size - off)
    = Some (m', dst + size, src + size, 0) /\
    partial_copy m0 m' dst src size (fun i => P i \/ off <= i).
Proof.
  intros Hdis. induction fuel as [|fuel IH]; intros m off P Hpc Hoff Hfuel;
    cbn [Kernels.rep_movsb]; destruct (Z.eqb_spec (size - off) 0); try lia.
  - exists m. assert (off = size) as -> by lia. split; [by rewrite Z.sub_diag|].
    eapply partial_copy_weaken; [|exact Hpc]. intros i Hi [?|?]; [done|lia].
  - exists m. assert (off = size) as -> by lia. split; [by rewrite Z.sub_diag|].
    eapply partial_copy_weaken; [|exact Hpc]. intros i Hi [?|?]; [done|lia].
  - rewrite store_byte_is_block.
    destruct (IH (copy_block m (dst + off) (src + off) 1) (off + 1)
                (fun i => P i \/ off <= i < off + 1))
      as (m' & Hm' & Hpc'); [|lia|lia|].
    { apply (partial_copy_block m0 m dst src size P off 1); [done..|lia|lia]. }
    exists m'. split.
    + rewrite <- Hm'. f_equal; lia.
    + eapply partial_copy_weaken; [|exact Hpc'].
      intros i Hi [?|?]; [tauto|]. lia.
Qed.

Lemma memcpy_trivial_loop_partial fuel m0 dst src size :
  no_overlap dst src size ->
  forall m off (P : Z -> Prop),
  partial_copy m0 m dst src size P ->
  0 <= off <= size -> size - off <= Z.of_nat fuel ->
  exists m',
    Kernels.memcpy_trivial_loop fuel m (dst + off) (src + off) (size - off)
    = Some m' /\
    partial_copy m0 m' dst src size (fun i => P i \/ off <= i).
Proof.
  intros Hdis. induction fuel as [|fuel IH]; intros m off P Hpc Hoff Hfuel;
    cbn [Kernels.memcpy_trivial_loop];
    destruct (Z.ltb_spec 0 (size - off)); try lia.
  - exists m. split; [done|].
    eapply partial_copy_weaken; [|exact Hpc]. intros i Hi [?|?]; [done|lia].
  - rewrite store_byte_is_block.
    destruct (IH (copy_block m (dst + off) (src + off) 1) (off + 1)
                (fun i => P i \/ off <= i < off + 1))
      as (m' & Hm' & Hpc'); [|lia|lia|].
    { apply (partial_copy_block m0 m dst src size P off 1); [done..|lia|lia]. }
    exists m'. split.
    + rewrite <- Hm'. f_equal; lia.
    + eapply partial_copy_weaken; [|exact Hpc'].
      intros i Hi [?|?]; [tauto|]. lia.
  - exists m. split; [done|].
    eapply partial_copy_weaken; [|exact Hpc]. intros i Hi [?|?]; [done|lia].
Qed.

(** X9: [memcpy_trivial] terminates for every size, copies [size] bytes
    between buffers that do not overlap, writes nowhere else, and returns
    its first argument. *)
Theorem memcpy_trivial_copies m dst src size :
  0 <= size ->
  no_overlap dst src size ->
  exists m',
    Kernels.memcpy_trivial m dst src size = Some (m', dst) /\
    copied m m' dst src size /\
    unchanged_outside m m' dst size.
Proof.
  intros Hsize Hdis. unfold Kernels.memcpy_trivial.
  destruct (memcpy_trivial_loop_partial (Z.to_nat size) m dst src size Hdis
              m 0 _ (partial_copy_start m dst src size))
    as (m' & Hm' & Hpc); [lia|lia|].
  rewrite !Z.add_0_r, Z.sub_0_r in Hm'. rewrite Hm'.
  exists m'. split; [done|].
  eapply partial_copy_finish; [|exact Hpc]. cbv beta. intros; lia.
Qed.

Lemma memcpy_trivial_copies_witness :
  exists m',
    Kernels.memcpy_trivial patterned_memory 5003 100 300 = Some (m', 5003) /\
    copied patterned_memory m' 5003 100 300.
Proof.
  destruct (memcpy_trivial_copies patterned_memory 5003 100 300)
    as (m' & Hm' & Hc & _).
  - lia.
  - right. lia.
  - exists m'. split; [exact Hm'|exact Hc].
Defined.

(** X10: [memcpy_erms] terminates, copies [size] bytes between buffers
    that do not overlap and writes nowhere else, but what it returns is
    [dst + size], the destination register as [rep movsb] leaves it, not
    [dst]. *)
Theorem memcpy_erms_returns_the_end m dst src size :
  0 <= size ->
  no_overlap dst src size ->
  exists m',
    Kernels.memcpy_erms m dst src size = Some (m', dst + size) /\
    copied m m' dst src size /\
    unchanged_outside m m' dst size.
Proof.
  intros Hsize Hdis. unfold Kernels.memcpy_erms.
  destruct (rep_movsb_partial (Z.to_nat size) m dst src size Hdis
              m 0 _ (partial_copy_start m dst src size))
    as (m' & Hm' & Hpc); [lia|lia|].
  rewrite !Z.add_0_r, Z.sub_0_r in Hm'. rewrite Hm'.
  exists m'. split; [done|].
  eapply partial_copy_finish; [|exact Hpc]. cbv beta. intros; lia.
Qed.

Lemma memcpy_erms_returns_the_end_witness :
  exists m',
    Kernels.memcpy_erms patterned_memory 5003 100 300
    = Some (m', 5303) /\
    copied patterned_memory m' 5003 100 300.
Proof.
  destruct (memcpy_erms_returns_the_end patterned_memory 5003 100 300)
    as (m' & Hm' & Hc & _).
  - lia.
  - right. lia.
  - exists m'. split; [exact Hm'|exact Hc].
Defined.

(** ** The benchmark loop *)

Lemma loop_partial {St} (impl : MemcpyImpl St) m0 dst src size chunks :
  copier impl ->
  no_overlap dst src size ->
  Forall (fun chunk => 0 <= chunk) chunks ->
  forall st m off (P : Z -> Prop) st' m',
  partial_copy m0 m dst src size P ->
  0 <= off <= size ->
  loop impl chunks st m (dst + off) (src + off) (size - off)
    = Some (st', m') ->
  partial_copy m0 m' dst src size (fun i => P i \/ off <= i).
Proof.
  intros Himpl Hdis. induction 1 as [|chunk chunks Hchunk _ IH];
    intros st m off P st' m' Hpc Hoff; cbn [loop];
    destruct (Z.eqb_spec (size - off) 0); try done.
  - intros [= <- <-].
    eapply partial_copy_weaken; [|exact Hpc]. intros i Hi [?|?]; [done|lia].
  - intros [= <- <-].
    eapply partial_copy_weaken; [|exact Hpc]. intros i Hi [?|?]; [done|lia].
  - set (bytes_to_copy := Z.min (size - off) chunk).
    destruct (Himpl st m (dst + off) (src + off) bytes_to_copy)
      as (st1 & m1 & -> & Hc & Hu); [lia| |].
    { unfold no_overlap in *. lia. }
    intros Hloop.
    replace (dst + off + bytes_to_copy) with (dst + (off + bytes_to_copy))
      in Hloop by lia.
    replace (src + off + bytes_to_copy) with (src + (off + bytes_to_copy))
      in Hloop by lia.
    replace (size - off - bytes_to_copy) with (size - (off + bytes_to_copy))
      in Hloop by lia.
    eapply IH in Hloop; [| |lia].
    2:{ by eapply (partial_copy_extend m0 m m1 dst src size P off
                     bytes_to_copy); [..|done|done]; try lia. }
    eapply partial_copy_weaken; [|exact Hloop].
    intros i Hi [?|?]; [tauto|]. cbv beta. lia.
Qed.

(** Whatever [loop] returns is a copy. *)
Lemma loop_result_copied {St} (impl : MemcpyImpl St)
    chunks st m dst src size st' m' :
  copier impl ->
  Forall (fun chunk => 0 <= chunk) chunks ->
  0 <= size ->
  no_overlap dst src size ->
  loop impl chunks st m dst src size = Some (st', m') ->
  copied m m' dst src size /\ unchanged_outside m m' dst size.
Proof.
  intros Himpl Hchunks Hsize Hdis Hloop.
  pose proof (loop_partial impl m dst src size chunks Himpl Hdis Hchunks
                st m 0 _ st' m' (partial_copy_start m dst src size)) as Hpc.
  rewrite !Z.add_0_r, Z.sub_0_r in Hpc.
  eapply partial_copy_finish; [|apply Hpc; [lia|done]].
  cbv beta. intros; lia.
Qed.

Lemma trivial_impl_copier : copier trivial_impl.
Proof.
  intros [] m dst src size Hsize Hdis.
  unfold trivial_impl, Kernels.memcpy_trivial.
  destruct (memcpy_trivial_loop_partial (Z.to_nat size) m dst src size Hdis
              m 0 _ (partial_copy_start m dst src size))
    as (m' & Hm' & Hpc); [lia|lia|].
  rewrite !Z.add_0_r, Z.sub_0_r in Hm'. rewrite Hm'.
  exists (), m'. split; [done|].
  eapply partial_copy_finish; [|exact Hpc]. cbv beta. intros; lia.
Qed.

Lemma chunks_sum_nonneg chunks :
  Forall (fun chunk => 0 <= chunk) chunks -> 0 <= foldr Z.add 0 chunks.
Proof. induction 1; cbn; lia. Qed.

Lemma loop_finishes {St} (impl : MemcpyImpl St) chunks :
  copier impl ->
  Forall (fun chunk => 0 <= chunk) chunks ->
  forall st m dst src size,
  0 <= size ->
  no_overlap dst src size ->
  is_Some (loop impl chunks st m dst src size)
  <-> size <= foldr Z.add 0 chunks.
Proof.
  intros Himpl. induction 1 as [|chunk chunks Hchunk Hchunks IH];
    intros st m dst src size Hsize Hdis; cbn [loop foldr];
    destruct (Z.eqb_spec size 0) as [->|Hne].
  - done.
  - split; [by intros []|lia].
  - pose proof (chunks_sum_nonneg chunks Hchunks). split; [lia|done].
  - destruct (Himpl st m dst src (Z.min size chunk))
      as (st1 & m1 & -> & _); [lia| |].
    { unfold no_overlap in *. lia. }
    pose proof (chunks_sum_nonneg chunks Hchunks).
    rewrite IH; [lia|lia|]. unfold no_overlap in *. lia.
Qed.

(** X11: with an implementation that copies and chunk sizes
    [c1, c2, ...] drawn from the generator, [loop] finishes exactly when
    the sizes drawn add up to at least [size], and then the [size] bytes
    of the source are at the destination and the rest of memory is as it
    was, however the chunk sizes fall.  A chunk of 0 bytes (the generators
    return [rng() % N]) makes no progress, and on sizes that are all 0 the
    loop never finishes. *)
Theorem loop_copies_iff_chunks_suffice {St} (impl : MemcpyImpl St)
    chunks st m dst src size :
  copier impl ->
  Forall (fun chunk => 0 <= chunk) chunks ->
  0 <= size ->
  no_overlap dst src size ->
  (is_Some (loop impl chunks st m dst src size)
   <-> size <= foldr Z.add 0 chunks) /\
  (forall st' m', loop impl chunks st m dst src size = Some (st', m') ->
   copied m m' dst src size /\ unchanged_outside m m' dst size) /\
  (0 < size -> Forall (fun chunk => chunk = 0) chunks ->
   loop impl chunks st m dst src size = None).
Proof.
  intros Himpl Hchunks Hsize Hdis.
  pose proof (loop_finishes impl chunks Himpl Hchunks st m dst src size
                Hsize Hdis) as Hiff.
  split; [exact Hiff|].
  split; [intros st' m'; by apply loop_result_copied|].
  intros Hpos Hzero.
  assert (foldr Z.add 0 chunks = 0) as Hsum.
  { clear -Hzero. induction Hzero as [|c cs -> _ IH]; cbn; [done|]. lia. }
  destruct (loop impl chunks st m dst src size) eqn:Hloop; [|done].
  assert (size <= foldr Z.add 0 chunks) by (apply Hiff; by eexists). lia.
Qed.

Lemma loop_copies_iff_chunks_suffice_witness :
  (exists m',
     loop trivial_impl [3; 0; 2] () patterned_memory 5003 100 5
     = Some ((), m') /\
     copied patterned_memory m' 5003 100 5) /\
  loop trivial_impl [0; 0; 0] () patterned_memory 5003 100 5 = None.
Proof.
  destruct (loop_copies_iff_chunks_suffice trivial_impl [3; 0; 2] ()
              patterned_memory 5003 100 5 trivial_impl_copier)
    as (Hiff & Hcopy & _); [repeat constructor; lia|lia|right; lia|].
  destruct (loop_copies_iff_chunks_suffice trivial_impl [0; 0; 0] ()
              patterned_memory 5003 100 5 trivial_impl_copier)
    as (_ & _ & Hstuck); [repeat constructor; lia|lia|right; lia|].
  split.
  - destruct (proj2 Hiff) as [[[] m'] Hm']; [cbn; lia|].
    exists m'. split; [exact Hm'|]. exact (proj1 (Hcopy () m' Hm')).
  - apply Hstuck; [lia|repeat constructor].
Defined.

(** ** The ranges of the threads *)

Lemma thread_begin_exact size num_threads k :
  0 <= size -> 0 < num_threads -> size * num_threads < 2 ^ 64 ->
  0 <= k <= num_threads ->
  thread_begin size num_threads k = size * k / num_threads.
Proof.
  intros Hsize Hn Hfit Hk. unfold thread_begin.
  rewrite size_t_small; [done|]. unfold is_size_t. nia.
Qed.

Lemma thread_end_exact size num_threads k :
  0 <= size -> 0 < num_threads < 2 ^ 64 -> size * num_threads < 2 ^ 64 ->
  0 <= k < num_threads ->
  thread_end size num_threads k = size * (k + 1) / num_threads.
Proof.
  intros Hsize Hn Hfit Hk. unfold thread_end.
  rewrite (size_t_small (k + 1)) by (unfold is_size_t; lia).
  rewrite size_t_small; [done|]. unfold is_size_t. nia.
Qed.

Lemma thread_range_of_byte size num_threads i :
  0 < num_threads < 2 ^ 64 -> size * num_threads < 2 ^ 64 ->
  0 <= i < size ->
  exists j, 0 <= j < num_threads /\
    thread_begin size num_threads j <= i < thread_end size num_threads j.
Proof.
  intros Hn Hfit Hi. set (j := ((i + 1) * num_threads - 1) / size).
  assert (0 < size) by lia.
  assert (size * j <= (i + 1) * num_threads - 1) as Hj1
    by (apply Z.mul_div_le; lia).
  assert ((i + 1) * num_threads - 1 < size * (j + 1)) as Hj2.
  { pose proof (Z.mul_succ_div_gt ((i + 1) * num_threads - 1) size).
    unfold j. lia. }
  assert (0 <= j) by (apply Z.div_pos; nia).
  assert (j < num_threads) by nia.
  exists j. split; [lia|].
  rewrite thread_begin_exact by lia. rewrite thread_end_exact by lia. split.
  - assert (size * j / num_threads < i + 1); [|lia].
    apply Z.div_lt_upper_bound; nia.
  - assert (i + 1 <= size * (j + 1) / num_threads); [|lia].
    apply Z.div_le_lower_bound; nia.
Qed.

Lemma thread_range_bounds size num_threads k :
  0 <= size -> 0 < num_threads < 2 ^ 64 -> size * num_threads < 2 ^ 64 ->
  0 <= k < num_threads ->
  0 <= thread_begin size num_threads k /\
  thread_begin size num_threads k <= thread_end size num_threads k <= size.
Proof.
  intros Hsize Hn Hfit Hk.
  rewrite thread_begin_exact by lia. rewrite thread_end_exact by lia.
  split_and!.
  - apply Z.div_pos; nia.
  - apply Z.div_le_mono; nia.
  - apply Z.div_le_upper_bound; nia.
Qed.

Lemma thread_ranges_ordered size num_threads j k :
  0 <= size -> 0 < num_threads < 2 ^ 64 -> size * num_threads < 2 ^ 64 ->
  0 <= j < k -> k < num_threads ->
  thread_end size num_threads j <= thread_begin size num_threads k.
Proof.
  intros Hsize Hn Hfit Hj Hk.
  rewrite thread_begin_exact by lia. rewrite thread_end_exact by lia.
  apply Z.div_le_mono; nia.
Qed.

(** X12: when [size * num_threads] fits [size_t], the ranges
    [begin, end) of the threads of [test] tile [0, size): the first begins
    at 0, each ends where the next begins, the last ends at [size], and
    every byte lies in the range of some thread. *)
Theorem thread_ranges_tile size num_threads thread_num :
  0 <= size ->
  0 < num_threads < 2 ^ 64 ->
  size * num_threads < 2 ^ 64 ->
  0 <= thread_num < num_threads ->
  thread_begin size num_threads 0 = 0 /\
  thread_end size num_threads (num_threads - 1) = size /\
  thread_end size num_threads thread_num
    = thread_begin size num_threads (thread_num + 1) /\
  thread_begin size num_threads thread_num
    <= thread_end size num_threads thread_num <= size /\
  forall i, 0 <= i < size ->
    exists j, 0 <= j < num_threads /\
      thread_begin size num_threads j <= i < thread_end size num_threads j.
Proof.
  intros Hsize Hn Hfit Hk.
  pose proof (thread_range_bounds size num_threads thread_num).
  split_and!; try lia.
  - rewrite thread_begin_exact by lia. by rewrite Z.mul_0_r.
  - rewrite thread_end_exact by lia.
    replace (num_threads - 1 + 1) with num_threads by lia.
    apply Z.div_mul. lia.
  - rewrite thread_end_exact by lia. by rewrite thread_begin_exact by lia.
  - intros i Hi. by apply thread_range_of_byte.
Qed.

Lemma thread_ranges_tile_witness :
  thread_end 1000000 3 1 = thread_begin 1000000 3 2 /\
  exists j, 0 <= j < 3 /\
    thread_begin 1000000 3 j <= 333333 < thread_end 1000000 3 j.
Proof.
  destruct (thread_ranges_tile 1000000 3 1)
    as (_ & _ & Hnext & _ & Hin); try lia.
  split; [exact Hnext|apply Hin; lia].
Defined.

(** ** The body of a benchmark thread *)

Lemma test_thread_invariant {St} (impl : MemcpyImpl St) chunks m0
    dst src begin_ end_ :
  copier impl ->
  Forall (fun chunk => 0 <= chunk) chunks ->
  0 <= end_ - begin_ < 2 ^ 64 ->
  no_overlap (dst + begin_) (src + begin_) (end_ - begin_) ->
  forall iterations iteration st m st' m',
  0 <= iteration ->
  copied m0 m (src + begin_) (src + begin_) (end_ - begin_) ->
  (0 < iteration ->
   copied m0 m (dst + begin_) (src + begin_) (end_ - begin_)) ->
  (forall a, ~ (dst + begin_ <= a < dst + end_) ->
             ~ (src + begin_ <= a < src + end_) -> m a = m0 a) ->
  test_thread impl chunks iteration iterations st m dst src begin_ end_
    = Some (st', m') ->
  copied m0 m' (src + begin_) (src + begin_) (end_ - begin_) /\
  (0 < iteration + Z.of_nat iterations ->
   copied m0 m' (dst + begin_) (src + begin_) (end_ - begin_)) /\
  (forall a, ~ (dst + begin_ <= a < dst + end_) ->
             ~ (src + begin_ <= a < src + end_) -> m' a = m0 a).
Proof.
  intros Himpl Hchunks Hlen Hdis.
  induction iterations as [|iterations IH];
    intros iteration st m st' m' Hit Hsrc Hdst Hout; cbn [test_thread].
  - intros [= <- <-]. split; [done|]. split; [|done].
    intros Hpos. apply Hdst. lia.
  - rewrite (size_t_small (end_ - begin_)) by done.
    destruct (loop impl chunks st m _ _ _) as [[st1 m1]|] eqn:Hloop; [|done].
    intros Hrest.
    assert (copied m0 m1 (src + begin_) (src + begin_) (end_ - begin_) /\
            copied m0 m1 (dst + begin_) (src + begin_) (end_ - begin_) /\
            (forall a, ~ (dst + begin_ <= a < dst + end_) ->
                       ~ (src + begin_ <= a < src + end_) -> m1 a = m0 a))
      as (Hsrc1 & Hdst1 & Hout1).
    { destruct (Z.eqb_spec (iteration mod 2) 0) as [Heven|Hodd];
        cbn [negb] in Hloop.
      - apply loop_result_copied in Hloop as [Hc Hu]; [|done|done|lia|done].
        split_and!.
        + intros i Hi. rewrite Hu by (unfold no_overlap in Hdis; lia).
          by apply Hsrc.
        + intros i Hi. rewrite Hc by done. by apply Hsrc.
        + intros a Ha1 Ha2. rewrite Hu by lia. by apply Hout.
      - assert (0 < iteration) as Hpos.
        { destruct (decide (iteration = 0)) as [->|]; [done|lia]. }
        apply loop_result_copied in Hloop as [Hc Hu]; [|done|done|lia|].
        2:{ unfold no_overlap in *. lia. }
        split_and!.
        + intros i Hi. rewrite Hc by done. by apply Hdst.
        + intros i Hi. rewrite Hu by (unfold no_overlap in Hdis; lia).
          by apply Hdst.
        + intros a Ha1 Ha2. rewrite Hu by lia. by apply Hout. }
    apply IH in Hrest as (H1 & H2 & H3); [|lia|done|done|done].
    split; [done|]. split; [|done]. intros _. apply H2. lia.
Qed.

(** X13: the body of a benchmark thread, run with an implementation that
    copies on a range where the two buffers do not overlap: after at least
    one iteration the destination range holds the bytes the source range
    held at the start, the source range holds them too (the odd iterations
    copy them back), and no byte outside the two ranges has changed; with 0
    iterations nothing is copied. *)
Theorem test_thread_copies {St} (impl : MemcpyImpl St)
    chunks iterations st m dst src begin_ end_ st' m' :
  copier impl ->
  Forall (fun chunk => 0 <= chunk) chunks ->
  0 <= end_ - begin_ < 2 ^ 64 ->
  no_overlap (dst + begin_) (src + begin_) (end_ - begin_) ->
  test_thread impl chunks 0 iterations st m dst src begin_ end_
    = Some (st', m') ->
  (iterations = 0%nat -> m' = m) /\
  ((0 < iterations)%nat ->
   copied m m' (dst + begin_) (src + begin_) (end_ - begin_)) /\
  copied m m' (src + begin_) (src + begin_) (end_ - begin_) /\
  (forall a, ~ (dst + begin_ <= a < dst + end_) ->
             ~ (src + begin_ <= a < src + end_) -> m' a = m a).
Proof.
  intros Himpl Hchunks Hlen Hdis Hrun. split.
  { intros ->. cbn in Hrun. by injection Hrun as _ <-. }
  destruct (test_thread_invariant impl chunks m dst src begin_ end_
              Himpl Hchunks Hlen Hdis iterations 0 st m st' m')
    as (H1 & H2 & H3); try done.
  split; [|done]. intros Hpos. apply H2. lia.
Qed.

Lemma test_thread_copies_witness :
  exists m',
    test_thread trivial_impl [7; 0; 300] 0 3 () patterned_memory
      5000 100 3 23 = Some ((), m') /\
    copied patterned_memory m' (5000 + 3) (100 + 3) (23 - 3).
Proof.
  assert (forall iterations iteration m,
            is_Some (test_thread trivial_impl [7; 0; 300] iteration
                       iterations () m 5000 100 3 23)) as Hruns.
  { induction iterations as [|iterations IH]; intros iteration m;
      cbn [test_thread]; [done|].
    change (size_t (23 - 3)) with 20.
    destruct (loop_finishes trivial_impl [7; 0; 300] trivial_impl_copier
                ltac:(repeat constructor; lia) () m
                (if negb (iteration mod 2 =? 0) then 100 + 3 else 5000 + 3)
                (if negb (iteration mod 2 =? 0) then 5000 + 3 else 100 + 3)
                20) as [_ [[[] m1] ->]];
      [lia|destruct (negb _); [left|right]; lia|cbn; lia|].
    apply IH. }
  destruct (Hruns 3%nat 0 patterned_memory) as [[[] m'] Hm'].
  exists m'. split; [exact Hm'|].
  destruct (test_thread_copies trivial_impl [7; 0; 300] 3 () patterned_memory
              5000 100 3 23 () m' trivial_impl_copier)
    as (_ & Hcopied & _).
  - repeat constructor; lia.
  - lia.
  - right. lia.
  - exact Hm'.
  - apply Hcopied. lia.
Defined.

(** ** Aligned and unaligned vector loops *)

Lemma land_ones_mod a n : 0 <= n -> Z.land a (2 ^ n - 1) = a mod 2 ^ n.
Proof.
  intros Hn. rewrite <- Z.land_ones by done. f_equal.
  rewrite Z.ones_equiv. lia.
Qed.

(** The padding brings the destination to the boundary. *)
Lemma padding_aligns n dst :
  0 < n ->
  let align := 2 ^ n in
  let padding := Z.land (align - Z.land dst (align - 1)) (align - 1) in
  0 <= padding < align /\ Z.land (dst + padding) (align - 1) = 0.
Proof.
  intros Hn align padding. subst padding.
  assert (0 < align) by (apply Z.pow_pos_nonneg; lia).
  unfold align. rewrite !land_ones_mod by lia. fold align.
  pose proof (Z.mod_pos_bound dst align ltac:(lia)) as Hr.
  split; [apply Z.mod_pos_bound; lia|].
  destruct (decide (dst mod align = 0)) as [H0|H0].
  - rewrite H0, Z.sub_0_r, Z_mod_same_full, Z.add_0_r. done.
  - rewrite (Z.mod_small (align - dst mod align)) by lia.
    rewrite (Z.div_mod dst align) at 1 by lia.
    replace (align * (dst / align) + dst mod align
             + (align - dst mod align))
      with ((dst / align + 1) * align) by lia.
    apply Z_mod_mult.
Qed.

Lemma align_destination_partial n m dst src size :
  0 < n -> 2 ^ n <= size < 2 ^ 64 ->
  no_overlap dst src size ->
  exists m1 padding (P : Z -> Prop),
    Simd.align_destination (2 ^ n) m dst src size
    = (m1, dst + padding, src + padding, size - padding) /\
    0 <= padding < 2 ^ n /\
    Z.land (dst + padding) (2 ^ n - 1) = 0 /\
    partial_copy m m1 dst src size P /\
    forall i, 0 <= i < padding -> P i.
Proof.
  intros Hn Hsize Hdis. unfold Simd.align_destination.
  destruct (padding_aligns n dst Hn) as [Hpad Hal].
  set (padding := Z.land (2 ^ n - Z.land dst (2 ^ n - 1)) (2 ^ n - 1)) in *.
  destruct (Z.ltb_spec 0 padding).
  - exists (copy_block m dst src (Z.to_nat (2 ^ n))), padding,
           (fun i => False \/ 0 <= i < 0 + Z.of_nat (Z.to_nat (2 ^ n))).
    split; [by rewrite size_t_small by (unfold is_size_t; lia)|].
    split; [done|]. split; [done|]. split; [|intros; lia].
    pose proof (partial_copy_block m m dst src size _ 0 (Z.to_nat (2 ^ n))
                  Hdis (partial_copy_start m dst src size)) as H1.
    rewrite !Z.add_0_r in H1. apply H1; lia.
  - exists m, padding, (fun _ => False).
    assert (padding = 0) as Hp by lia. rewrite Hp in *.
    rewrite !Z.add_0_r, Z.sub_0_r. split; [done|]. split; [lia|].
    split; [by rewrite Z.add_0_r in Hal|].
    split; [apply partial_copy_start|intros; lia].
Qed.

Lemma copy_aligned_partial n (block : nat) fuel m0 dst src size :
  0 < n -> Z.of_nat block mod 2 ^ n = 0 -> (0 < block)%nat ->
  no_overlap dst src size ->
  forall m off (P : Z -> Prop),
  partial_copy m0 m dst src size P ->
  0 <= off <= size -> size - off <= Z.of_nat fuel ->
  Z.land (dst + off) (2 ^ n - 1) = 0 ->
  exists m' off',
    Simd.copy_aligned (2 ^ n) block fuel m (dst + off) (src + off)
                      (size - off)
    = Some (m', dst + off', src + off', size - off') /\
    off <= off' <= size /\ size - off' < Z.of_nat block /\
    Z.land (dst + off') (2 ^ n - 1) = 0 /\
    partial_copy m0 m' dst src size (fun i => P i \/ off <= i < off').
Proof.
  intros Hn Hblock Hpos Hdis.
  induction fuel as [|fuel IH]; intros m off P Hpc Hoff Hfuel Hal;
    cbn [Simd.copy_aligned];
    destruct (Z.leb_spec (Z.of_nat block) (size - off)); try lia.
  - exists m, off. split; [done|]. split; [lia|]. split; [lia|].
    split; [done|].
    eapply partial_copy_weaken; [|exact Hpc]. intros i Hi [?|?]; [done|lia].
  - rewrite Hal. cbn [Z.eqb].
    destruct (IH (copy_block m (dst + off) (src + off) block)
                (off + Z.of_nat block)
                (fun i => P i \/ off <= i < off + Z.of_nat block))
      as (m' & off' & Hm' & Hoff' & Hrest & Hal' & Hpc'); [|lia|lia| |].
    { apply (partial_copy_block m0 m dst src size P off block);
        [done..|lia|lia]. }
    { rewrite land_ones_mod in * by lia.
      replace (dst + (off + Z.of_nat block))
        with (dst + off + Z.of_nat block) by lia.
      rewrite Z.add_mod, Hal, Hblock by lia. done. }
    exists m', off'. split; [|split; [lia|split; [lia|split; [done|]]]].
    + rewrite <- Hm'. f_equal; lia.
    + eapply partial_copy_weaken; [|exact Hpc'].
      intros i Hi [?|?]; [tauto|]. lia.
  - exists m, off. split; [done|]. split; [lia|]. split; [lia|].
    split; [done|].
    eapply partial_copy_weaken; [|exact Hpc]. intros i Hi [?|?]; [done|lia].
Qed.

Lemma copy_unaligned_partial (block : nat) fuel m0 dst src size :
  (0 < block)%nat ->
  no_overlap dst src size ->
  forall m off (P : Z -> Prop),
  partial_copy m0 m dst src size P ->
  0 <= off -> size - off <= Z.of_nat fuel ->
  exists m',
    Simd.copy_unaligned block fuel m (dst + off) (src + off) (size - off)
    = Some m' /\
    partial_copy m0 m' dst src size
      (fun i => P i \/ off <= i < size - Z.of_nat block).
Proof.
  intros Hpos Hdis.
  induction fuel as [|fuel IH]; intros m off P Hpc Hoff Hfuel;
    cbn [Simd.copy_unaligned];
    destruct (Z.ltb_spec (Z.of_nat block) (size - off)); try lia.
  - exists m. split; [done|].
    eapply partial_copy_weaken; [|exact Hpc]. intros i Hi [?|?]; [done|lia].
  - destruct (IH (copy_block m (dst + off) (src + off) block)
                (off + Z.of_nat block)
                (fun i => P i \/ off <= i < off + Z.of_nat block))
      as (m' & Hm' & Hpc'); [|lia|lia|].
    { apply (partial_copy_block m0 m dst src size P off block);
        [done..|lia|lia]. }
    exists m'. split.
    + rewrite <- Hm'. f_equal; lia.
    + eapply partial_copy_weaken; [|exact Hpc'].
      intros i Hi [?|?]; [tauto|]. lia.
  - exists m. split; [done|].
    eapply partial_copy_weaken; [|exact Hpc]. intros i Hi [?|?]; [done|lia].
Qed.

Lemma copy_last_then_rest_partial (block : nat) m0 dst src size :
  (0 < block)%nat -> Z.of_nat block <= size ->
  no_overlap dst src size ->
  forall m off (P : Z -> Prop),
  partial_copy m0 m dst src size P ->
  0 <= off <= size ->
  exists m',
    Simd.copy_last_then_rest block m (dst + off) (src + off) (size - off)
    = Some m' /\
    partial_copy m0 m' dst src size (fun i => P i \/ off <= i).
Proof.
  intros Hpos Hblock Hdis m off P Hpc Hoff.
  unfold Simd.copy_last_then_rest.
  pose proof (partial_copy_block m0 m dst src size _ (size - Z.of_nat block)
                block Hdis Hpc) as H1.
  replace (dst + (size - Z.of_nat block))
    with (dst + off + (size - off) - Z.of_nat block) in H1 by lia.
  replace (src + (size - Z.of_nat block))
    with (src + off + (size - off) - Z.of_nat block) in H1 by lia.
  specialize (H1 ltac:(lia) ltac:(lia)).
  destruct (copy_unaligned_partial block (Z.to_nat (size - off)) m0 dst src
              size Hpos Hdis _ off _ H1) as (m' & Hm' & Hpc'); [lia|lia|].
  exists m'. split; [done|].
  eapply partial_copy_weaken; [|exact Hpc']. cbv beta.
  intros i Hi [?|?]; [tauto|].
  destruct (decide (i < size - Z.of_nat block)); [right; lia|left; right; lia].
Qed.

(** X14: [memcpy_my_medium_sse] and [memcpy_my_medium_avx], called with at
    least one vector (16, resp. 32 bytes) to copy between buffers that do
    not overlap: no aligned store faults; on return [dst] and [src] have
    advanced by the same amount, [dst] is a multiple of the vector size,
    fewer than a block (128, resp. 256 bytes) remain, the bytes passed over
    are copied and no byte outside the destination has changed. *)
Theorem memcpy_my_medium_copies m dst src size :
  no_overlap dst src size ->
  size < 2 ^ 64 ->
  (16 <= size ->
   exists m' off,
     Simd.memcpy_my_medium_sse m dst src size
     = Some (m', dst + off, src + off, size - off) /\
     0 <= off <= size /\ size - off < 128 /\ (dst + off) mod 16 = 0 /\
     copied m m' dst src off /\ unchanged_outside m m' dst size) /\
  (32 <= size ->
   exists m' off,
     Simd.memcpy_my_medium_avx m dst src size
     = Some (m', dst + off, src + off, size - off) /\
     0 <= off <= size /\ size - off < 256 /\ (dst + off) mod 32 = 0 /\
     copied m m' dst src off /\ unchanged_outside m m' dst size).
Proof.
  intros Hdis Hsize.
  assert (forall n (block : nat),
    0 < n -> Z.of_nat block mod 2 ^ n = 0 -> (0 < block)%nat ->
    2 ^ n <= size ->
    exists m' off,
      (let '(m, dst, src, size) :=
         Simd.align_destination (2 ^ n) m dst src size in
       Simd.copy_aligned (2 ^ n) block (Z.to_nat size) m dst src size)
      = Some (m', dst + off, src + off, size - off) /\
      0 <= off <= size /\ size - off < Z.of_nat block /\
      (dst + off) mod 2 ^ n = 0 /\
      copied m m' dst src off /\ unchanged_outside m m' dst size) as Hgen.
  { intros n block Hn Hblock Hpos Hle.
    destruct (align_destination_partial n m dst src size Hn ltac:(lia) Hdis)
      as (m1 & padding & P & -> & Hpad & Hal & H1 & HP).
    destruct (copy_aligned_partial n block (Z.to_nat (size - padding)) m
                dst src size Hn Hblock Hpos Hdis m1 padding P H1)
      as (m2 & off & -> & Hoff & Hrest & Hal' & H2); [lia|lia|done|].
    exists m2, off. split; [done|]. split; [lia|]. split; [done|].
    split; [by rewrite <- land_ones_mod by lia|].
    destruct H2 as [Hout Hin]. split; [|done].
    intros i Hi. apply Hin; [lia|].
    destruct (decide (i < padding)); [left; apply HP; lia|right; lia]. }
  split; intros Hle.
  - apply (Hgen 4 128%nat); [lia|done|lia|done].
  - apply (Hgen 5 256%nat); [lia|done|lia|done].
Qed.

Lemma memcpy_my_medium_copies_witness :
  exists m' off,
    Simd.memcpy_my_medium_sse patterned_memory 5003 100 300
    = Some (m', 5003 + off, 100 + off, 300 - off) /\
    300 - off < 128 /\ (5003 + off) mod 16 = 0.
Proof.
  destruct (memcpy_my_medium_copies patterned_memory 5003 100 300)
    as [Hsse _].
  - right. lia.
  - lia.
  - destruct Hsse as (m' & off & Hm' & _ & Hrest & Hal & _); [lia|].
    exists m', off. split; [exact Hm'|]. split; [exact Hrest|exact Hal].
Defined.

(** ** The SSE2 kernels *)

Section Sse2.
Context `{MemcpyTiny}.

Lemma sse2_body_copies (block : nat) m dst src size :
  memcpy_tiny_copies ->
  Z.of_nat block mod 2 ^ 4 = 0 -> (0 < block <= 128)%nat ->
  Z.of_nat block < size < 2 ^ 64 ->
  no_overlap dst src size ->
  exists m',
    (let '(m1, dst1, src1, size1) :=
       Simd.align_destination 16 m dst src size in
     match Simd.copy_aligned 16 block (Z.to_nat size1) m1 dst1 src1 size1
     with
     | None => None
     | Some (m2, dst2, src2, size2) =>
         Some ((memcpy_tiny m2 dst2 src2 size2).1, dst)
     end) = Some (m', dst) /\
    copied m m' dst src size /\ unchanged_outside m m' dst size.
Proof.
  intros Htiny Hblock Hpos Hsize Hdis.
  assert (16 <= Z.of_nat block) as H16.
  { destruct (decide (Z.of_nat block < 16)); [|lia].
    rewrite Z.mod_small in Hblock by lia. lia. }
  destruct (align_destination_partial 4 m dst src size ltac:(lia)
              ltac:(lia) Hdis)
    as (m1 & padding & P & Hal & Hpad & Hland & H1 & HP).
  change (2 ^ 4) with 16 in *. rewrite Hal.
  destruct (copy_aligned_partial 4 block (Z.to_nat (size - padding)) m
              dst src size ltac:(lia) Hblock ltac:(lia) Hdis m1 padding P H1)
    as (m2 & off & Hm2 & Hoff & Hrest & _ & H2); [lia|lia|done|].
  change (2 ^ 4) with 16 in *. rewrite Hm2.
  destruct (Htiny m2 (dst + off) (src + off) (size - off)) as [Hc Hu];
    [lia|unfold no_overlap in *; lia|].
  eexists. split; [done|].
  eapply partial_copy_finish;
    [|by eapply (partial_copy_extend m m2 _ dst src size _ off (size - off));
        [..|exact Hc|exact Hu]; try lia].
  cbv beta. intros i Hi.
  destruct (decide (i < padding)); [left; left; apply HP; lia|].
  destruct (decide (i < off)); [left; right; lia|right; lia].
Qed.

End Sse2.

(** X15: provided [memcpy_tiny] copies up to 128 bytes, each of
    [memcpySSE2], [memcpySSE2Unrolled2], [memcpySSE2Unrolled4] and
    [memcpySSE2Unrolled8] copies [size] bytes between buffers that do not
    overlap and writes nowhere else; none of their aligned stores faults,
    whatever the alignment of the destination.  Above the size they hand
    to [memcpy_tiny] at once (16, 32, 64, 128) they return [destination];
    up to it they return what [memcpy_tiny] returns. *)
Theorem memcpySSE2_family_copies `{MemcpyTiny} m dst src size :
  memcpy_tiny_copies ->
  0 <= size < 2 ^ 64 ->
  no_overlap dst src size ->
  Forall (fun '(kernel, small) =>
    exists m' ret,
      kernel m dst src size = Some (m', ret) /\
      copied m m' dst src size /\ unchanged_outside m m' dst size /\
      (small < size -> ret = dst) /\
      (size <= small -> ret = (memcpy_tiny m dst src size).2))
    [(Simd.memcpySSE2, 16); (Simd.memcpySSE2Unrolled2, 32);
     (Simd.memcpySSE2Unrolled4, 64); (Simd.memcpySSE2Unrolled8, 128)].
Proof.
  intros Htiny Hsize Hdis.
  assert (forall small, 0 <= small <= 128 -> size <= small ->
            exists m' ret,
              Some (memcpy_tiny m dst src size) = Some (m', ret) /\
              copied m m' dst src size /\ unchanged_outside m m' dst size /\
              (small < size -> ret = dst) /\
              (size <= small -> ret = (memcpy_tiny m dst src size).2))
    as Hsmall.
  { intros small Hs Hle. destruct (Htiny m dst src size) as [Hc Hu];
      [lia|done|].
    destruct (memcpy_tiny m dst src size) as [m' ret] eqn:Ht.
    exists m', ret. split; [done|]. split; [done|]. split; [done|].
    split; [lia|done]. }
  assert (forall (block : nat), Z.of_nat block mod 2 ^ 4 = 0 ->
            (0 < block <= 128)%nat -> Z.of_nat block < size ->
            exists m' ret,
              (let '(m1, dst1, src1, size1) :=
                 Simd.align_destination 16 m dst src size in
               match Simd.copy_aligned 16 block (Z.to_nat size1) m1 dst1
                       src1 size1 with
               | None => None
               | Some (m2, dst2, src2, size2) =>
                   Some ((memcpy_tiny m2 dst2 src2 size2).1, dst)
               end) = Some (m', ret) /\
              copied m m' dst src size /\ unchanged_outside m m' dst size /\
              (Z.of_nat block < size -> ret = dst) /\
              (size <= Z.of_nat block ->
               ret = (memcpy_tiny m dst src size).2)) as Hbig.
  { intros block Hblock Hpos Hlt.
    destruct (sse2_body_copies block m dst src size Htiny Hblock Hpos
                ltac:(lia) Hdis) as (m' & Hm' & Hc & Hu).
    exists m', dst. split; [done|]. split; [done|]. split; [done|].
    split; [done|lia]. }
  constructor; [|constructor; [|constructor; [|constructor; [|constructor]]]].
  - unfold Simd.memcpySSE2. destruct (Z.leb_spec size 16).
    + apply (Hsmall 16); lia.
    + apply (Hbig 16%nat); [done|lia|lia].
  - unfold Simd.memcpySSE2Unrolled2. destruct (Z.leb_spec size 32).
    + apply (Hsmall 32); lia.
    + apply (Hbig 32%nat); [done|lia|lia].
  - unfold Simd.memcpySSE2Unrolled4. destruct (Z.leb_spec size 64).
    + apply (Hsmall 64); lia.
    + apply (Hbig 64%nat); [done|lia|lia].
  - unfold Simd.memcpySSE2Unrolled8. destruct (Z.leb_spec size 128).
    + apply (Hsmall 128); lia.
    + apply (Hbig 128%nat); [done|lia|lia].
Qed.

Lemma reference_tiny_copies : memcpy_tiny_copies (H := reference_tiny).
Proof.
  intros m dst src size Hsize Hdis. cbn. split.
  - intros i Hi.
    destruct (Z.leb_spec dst (dst + i)); [|lia].
    destruct (Z.ltb_spec (dst + i) (dst + size)); [|lia].
    cbn. f_equal. lia.
  - intros a Ha.
    destruct (Z.leb_spec dst a); [|done].
    destruct (Z.ltb_spec a (dst + size)); [lia|done].
Qed.

Lemma memcpySSE2_family_copies_witness :
  exists m' ret,
    Simd.memcpySSE2Unrolled4 (H := reference_tiny) patterned_memory
      5003 100 300 = Some (m', ret) /\
    copied patterned_memory m' 5003 100 300 /\
    ret = 5003.
Proof.
  pose proof (memcpySSE2_family_copies (H := reference_tiny)
                patterned_memory 5003 100 300 reference_tiny_copies
                ltac:(lia) ltac:(right; lia)) as Hall.
  apply Forall_cons_1 in Hall as [_ Hall].
  apply Forall_cons_1 in Hall as [_ Hall].
  apply Forall_cons_1 in Hall as [(m' & ret & Hm' & Hc & _ & Hret & _) _].
  exists m', ret. split; [exact Hm'|]. split; [exact Hc|].
  apply Hret. lia.
Defined.

(** ** memcpy_my2 and memcpy_my *)

Lemma aligned_then_rest_copies n (block vector : nat) m dst src size :
  0 < n -> Z.of_nat vector = 2 ^ n ->
  Z.of_nat block mod 2 ^ n = 0 -> (0 < block)%nat ->
  2 ^ n <= size < 2 ^ 64 ->
  no_overlap dst src size ->
  exists m',
    (let '(m1, dst1, src1, size1) :=
       Simd.align_destination (2 ^ n) m dst src size in
     match Simd.copy_aligned (2 ^ n) block (Z.to_nat size1) m1 dst1 src1
             size1 with
     | None => None
     | Some (m2, dst2, src2, size2) =>
         (fun m => (m, dst))
           <$> Simd.copy_last_then_rest vector m2 dst2 src2 size2
     end) = Some (m', dst) /\
    copied m m' dst src size /\ unchanged_outside m m' dst size.
Proof.
  intros Hn Hvec Hblock Hpos Hsize Hdis.
  assert (0 < 2 ^ n) by (apply Z.pow_pos_nonneg; lia).
  destruct (align_destination_partial n m dst src size Hn Hsize Hdis)
    as (m1 & padding & P & -> & Hpad & Hland & H1 & HP).
  destruct (copy_aligned_partial n block (Z.to_nat (size - padding)) m
              dst src size Hn Hblock Hpos Hdis m1 padding P H1)
    as (m2 & off & -> & Hoff & Hrest & _ & H2); [lia|lia|done|].
  destruct (copy_last_then_rest_partial vector m dst src size ltac:(lia)
              ltac:(lia) Hdis m2 off _ H2) as (m3 & -> & H3); [lia|].
  exists m3. split; [done|].
  eapply partial_copy_finish; [|exact H3]. cbv beta. intros i Hi.
  destruct (decide (i < padding)); [left; left; apply HP; lia|].
  destruct (decide (i < off)); [left; right; lia|right; lia].
Qed.

Lemma last_then_rest_copies (vector : nat) m dst src size :
  (0 < vector)%nat -> Z.of_nat vector <= size ->
  no_overlap dst src size ->
  exists m',
    Simd.copy_last_then_rest vector m dst src size = Some m' /\
    copied m m' dst src size /\ unchanged_outside m m' dst size.
Proof.
  intros Hpos Hsize Hdis.
  destruct (copy_last_then_rest_partial vector m dst src size Hpos Hsize
              Hdis m 0 _ (partial_copy_start m dst src size))
    as (m' & Hm' & Hpc); [lia|].
  rewrite !Z.add_0_r, Z.sub_0_r in Hm'.
  exists m'. split; [done|].
  eapply partial_copy_finish; [|exact Hpc]. cbv beta. intros; lia.
Qed.

(** The aligned loop stops with [size mod block] bytes left and has
    written only the bytes it passed over. *)
Lemma copy_aligned_writes align (block : nat) fuel :
  (0 < block)%nat ->
  forall m dst src size m' dst' src' size',
  0 <= size ->
  Simd.copy_aligned align block fuel m dst src size
  = Some (m', dst', src', size') ->
  size' = size mod Z.of_nat block /\
  unchanged_outside m m' dst (size - size').
Proof.
  intros Hpos.
  induction fuel as [|fuel IH];
    intros m dst src size m' dst' src' size' Hsize;
    cbn [Simd.copy_aligned];
    destruct (Z.leb_spec (Z.of_nat block) size); try done.
  - intros [= <- <- <- <-]. rewrite Z.mod_small by lia.
    split; [done|]. by intros a _.
  - destruct (Z.land dst (align - 1) =? 0); [|done].
    intros Hrest. apply IH in Hrest as [-> Hu]; [|lia].
    assert ((size - Z.of_nat block) mod Z.of_nat block
            = size mod Z.of_nat block) as Hmod.
    { replace size with (size - Z.of_nat block + 1 * Z.of_nat block) at 2
        by lia.
      by rewrite Z.mod_add by lia. }
    rewrite Hmod in *. split; [done|].
    pose proof (Z.mod_pos_bound size (Z.of_nat block) ltac:(lia)).
    pose proof (Z.mod_le (size - Z.of_nat block) (Z.of_nat block)
                  ltac:(lia) ltac:(lia)) as Hle.
    rewrite Hmod in Hle.
    intros a Ha. rewrite Hu by lia. rewrite copy_block_at.
    destruct (decide (dst <= a < dst + Z.of_nat block)); [lia|done].
  - intros [= <- <- <- <-]. rewrite Z.mod_small by lia.
    split; [done|]. by intros a _.
Qed.

(** Alignment and aligned blocks together: [size - rest] bytes are
    copied, [rest] being what the blocks leave of the bytes behind the
    padding, and beyond them only the first vector has been written. *)
Lemma aligned_blocks n (block : nat) m dst src size :
  0 < n -> Z.of_nat block mod 2 ^ n = 0 -> (0 < block)%nat ->
  2 ^ n <= size < 2 ^ 64 ->
  no_overlap dst src size ->
  let padding := Z.land (2 ^ n - Z.land dst (2 ^ n - 1)) (2 ^ n - 1) in
  let rest := (size - padding) mod Z.of_nat block in
  exists m2,
    (let '(m1, dst1, src1, size1) :=
       Simd.align_destination (2 ^ n) m dst src size in
     Simd.copy_aligned (2 ^ n) block (Z.to_nat size1) m1 dst1 src1 size1)
    = Some (m2, dst + (size - rest), src + (size - rest), rest) /\
    0 <= rest < Z.of_nat block /\ padding <= size - rest /\
    partial_copy m m2 dst src size (fun i => i < size - rest) /\
    (forall i, Z.max (size - rest) (2 ^ n) <= i < size ->
               m2 (dst + i) = m (dst + i)).
Proof.
  intros Hn Hblock Hpos Hsize Hdis padding rest.
  assert (0 < 2 ^ n) by (apply Z.pow_pos_nonneg; lia).
  destruct (padding_aligns n dst Hn) as [Hpadding _]. fold padding in Hpadding.
  destruct (align_destination_partial n m dst src size Hn Hsize Hdis)
    as (m1 & padding' & P & Heq & Hpad & Hland & H1 & HP).
  assert (padding' = padding /\ unchanged_outside m m1 dst (2 ^ n))
    as [-> Hu1].
  { unfold Simd.align_destination in Heq. fold padding in Heq.
    destruct (Z.ltb_spec 0 padding).
    - injection Heq as <- Hdst _ _. split; [lia|].
      intros a Ha. rewrite copy_block_at.
      destruct (decide (dst <= a < dst + Z.of_nat (Z.to_nat (2 ^ n))));
        [lia|done].
    - injection Heq as <- Hdst _ _. split; [lia|]. by intros a _. }
  rewrite Heq.
  destruct (copy_aligned_partial n block (Z.to_nat (size - padding)) m
              dst src size Hn Hblock Hpos Hdis m1 padding P H1)
    as (m2 & off & Heq2 & Hoff & Hrest & _ & H2); [lia|lia|done|].
  destruct (fun Hnonneg =>
              copy_aligned_writes (2 ^ n) block _ Hpos _ _ _ _ _ _ _ _
                Hnonneg Heq2) as [Hmod Hu2]; [lia|].
  fold rest in Hmod.
  assert (off = size - rest) as -> by lia.
  rewrite Heq2. replace (size - (size - rest)) with rest by lia.
  exists m2. split; [done|].
  split; [lia|]. split; [lia|]. split.
  - eapply partial_copy_weaken; [|exact H2]. cbv beta. intros i Hi Hlt.
    destruct (decide (i < padding)); [left; apply HP; lia|right; lia].
  - intros i Hi. rewrite Hu2 by lia. apply Hu1. lia.
Qed.

(** X16: [memcpy_my2] terminates for every size, returns [dst] and writes
    nowhere outside the destination; none of its aligned stores faults.
    It copies [size] bytes between buffers that do not overlap whenever
    [size < 30000] or [have_avx] is false.  On the AVX path (the global
    [have_avx] is true and [size >= 30000]) the end of the copy is done by
    [__asm__] statements that are not [volatile] and whose outputs are
    never read: it copies all [size] bytes if the compiler keeps them; if
    it deletes them, the last [(size - padding) mod 512] bytes of the
    destination are left as they were, [padding] being what aligns [dst]
    to 32. *)
Theorem memcpy_my2_copies_unless_asm_deleted
    asm_kept have_avx m dst src size :
  0 <= size < 2 ^ 64 ->
  no_overlap dst src size ->
  exists m',
    Simd.memcpy_my2 asm_kept have_avx m dst src size = Some (m', dst) /\
    unchanged_outside m m' dst size /\
    (asm_kept = true \/ have_avx = false \/ size < 30000 ->
     copied m m' dst src size) /\
    (asm_kept = false -> have_avx = true -> 30000 <= size ->
     let rest := (size - padding_to_32 dst) mod 512 in
     copied m m' dst src (size - rest) /\
     forall i, size - rest <= i < size -> m' (dst + i) = m (dst + i)).
Proof.
  intros Hsize Hdis. unfold Simd.memcpy_my2.
  assert (forall m',
            copied m m' dst src size /\ unchanged_outside m m' dst size ->
            size < 30000 \/ have_avx = false \/ asm_kept = true ->
            unchanged_outside m m' dst size /\
            (asm_kept = true \/ have_avx = false \/ size < 30000 ->
             copied m m' dst src size) /\
            (asm_kept = false -> have_avx = true -> 30000 <= size ->
             let rest := (size - padding_to_32 dst) mod 512 in
             copied m m' dst src (size - rest) /\
             forall i, size - rest <= i < size ->
                       m' (dst + i) = m (dst + i))) as Hall.
  { intros m' [Hc Hu] Hcase. split; [done|]. split; [done|].
    intros -> -> Hge. destruct Hcase as [?|[?|?]]; [lia|done|done]. }
  destruct (Z.leb_spec size 16); [|destruct (Z.leb_spec size 128)].
  - eexists. split; [done|]. apply Hall; [|left; lia].
    apply copy_upto16_copies; [lia|done].
  - destruct (last_then_rest_copies 16 m dst src size) as (m' & -> & Hc);
      [lia|lia|done|].
    exists m'. split; [done|]. apply Hall; [done|left; lia].
  - destruct (Z.ltb_spec size 30000) as [Hlt|Hge]; cbn [orb].
    { destruct (aligned_then_rest_copies 4 128 16 m dst src size)
        as (m' & Heq & Hc); try done; try lia.
      exists m'. split; [exact Heq|]. apply Hall; [done|left; lia]. }
    destruct have_avx; cbn [negb].
    2:{ destruct (aligned_then_rest_copies 4 128 16 m dst src size)
          as (m' & Heq & Hc); try done; try lia.
        exists m'. split; [exact Heq|]. apply Hall; [done|right; by left]. }
    destruct asm_kept; cbn [Simd.dead_asm].
    { destruct (aligned_then_rest_copies 5 512 32 m dst src size)
        as (m' & Heq & Hc); try done; try lia.
      exists m'. split; [exact Heq|]. apply Hall; [done|right; by right]. }
    destruct (aligned_blocks 5 512 m dst src size)
      as (m2 & Heq & Hrest & Hpad & [Hu Hc] & Hkept); try done; try lia.
    change (Z.land (2 ^ 5 - Z.land dst (2 ^ 5 - 1)) (2 ^ 5 - 1))
      with (padding_to_32 dst) in *.
    change (Z.of_nat 512) with 512 in *.
    set (rest := (size - padding_to_32 dst) mod 512) in *.
    change (2 ^ 5) with 32 in *.
    destruct (Simd.align_destination 32 m dst src size)
      as [[[m1 dst1] src1] size1].
    cbv beta iota in Heq |- *.
    rewrite Heq. cbn [fmap option_fmap option_map].
    exists m2. split; [done|]. split; [done|].
    split; [intros [?|[?|?]]; [done|done|lia]|].
    intros _ _ _. split.
    + intros i Hi. apply Hc; lia.
    + intros i Hi. apply Hkept.
      assert (512 <= size - rest); [|lia].
      destruct (padding_aligns 5 dst ltac:(lia)) as [Hp _].
      change (Z.land (2 ^ 5 - Z.land dst (2 ^ 5 - 1)) (2 ^ 5 - 1))
        with (padding_to_32 dst) in Hp.
      change (2 ^ 5) with 32 in Hp.
      pose proof (Z.div_mod (size - padding_to_32 dst) 512 ltac:(lia)) as Hdiv.
      fold rest in Hdiv.
      assert (1 <= (size - padding_to_32 dst) / 512)
        by (apply Z.div_le_lower_bound; lia).
      lia.
Qed.

Lemma memcpy_my2_copies_unless_asm_deleted_witness :
  (exists m',
     Simd.memcpy_my2 true true patterned_memory 200003 100 40000
     = Some (m', 200003) /\
     copied patterned_memory m' 200003 100 40000) /\
  (exists m',
     Simd.memcpy_my2 false true patterned_memory 200003 100 40000
     = Some (m', 200003) /\
     copied patterned_memory m' 200003 100 (40000 - 35) /\
     m' (200003 + 39999) = patterned_memory (200003 + 39999) /\
     m' (200003 + 39999) <> patterned_memory (100 + 39999)).
Proof.
  split.
  - destruct (memcpy_my2_copies_unless_asm_deleted true true
                patterned_memory 200003 100 40000)
      as (m' & Hm' & _ & Hc & _); [lia|right; lia|].
    exists m'. split; [exact Hm'|]. apply Hc. by left.
  - destruct (memcpy_my2_copies_unless_asm_deleted false true
                patterned_memory 200003 100 40000)
      as (m' & Hm' & _ & _ & Hleft); [lia|right; lia|].
    destruct Hleft as [Hc Hkept]; [reflexivity|reflexivity|lia|].
    change ((40000 - padding_to_32 200003) mod 512) with 35 in *.
    exists m'. split; [exact Hm'|]. split; [exact Hc|].
    assert (m' (200003 + 39999) = patterned_memory (200003 + 39999)) as Hlast
      by (apply Hkept; lia).
    split; [exact Hlast|]. rewrite Hlast. vm_compute. discriminate.
Defined.

Lemma memcpy_my_tail_unfold gotos asm_kept have_avx m dst src size :
  Simd.memcpy_my_tail gotos asm_kept have_avx m dst src size
  = if size <=? 16 then Some (copy_upto16 m dst src size)
    else if have_avx then
      if size <=? 32 then
        match gotos with
        | O => None
        | S gotos =>
            Simd.memcpy_my_tail gotos asm_kept have_avx
              (copy_block (copy_block m dst src 8) (dst + 8) (src + 8) 8)
              (dst + 16) (src + 16) (size - 16)
        end
      else if size <=? 256 then
        Simd.dead_asm asm_kept (Simd.copy_last_then_rest 32 m dst src size) m
      else
        let '(m, dst, src, size) :=
          Simd.align_destination 32 m dst src size in
        match Simd.copy_aligned 32 256 (Z.to_nat size) m dst src size with
        | None => None
        | Some (m, dst, src, size) =>
            match gotos with
            | O => None
            | S gotos =>
                Simd.memcpy_my_tail gotos asm_kept have_avx m dst src size
            end
        end
    else
      if size <=? 128 then Simd.copy_last_then_rest 16 m dst src size
      else
        let '(m, dst, src, size) :=
          Simd.align_destination 16 m dst src size in
        match Simd.copy_aligned 16 128 (Z.to_nat size) m dst src size with
        | None => None
        | Some (m, dst, src, size) =>
            match gotos with
            | O => None
            | S gotos =>
                Simd.memcpy_my_tail gotos asm_kept have_avx m dst src size
            end
        end.
Proof. by destruct gotos. Qed.

Lemma tail_copies_16 gotos asm_kept have_avx :
  tail_copies gotos asm_kept have_avx 17.
Proof.
  intros m dst src size Hsize Hdis. rewrite memcpy_my_tail_unfold.
  destruct (Z.leb_spec size 16); [|lia].
  eexists. split; [done|]. apply copy_upto16_copies; [lia|done].
Qed.

(** After a stretch of aligned blocks, re-entering at [tail] with fewer
    than [bound] bytes. *)
Lemma aligned_then_tail_copies n (block : nat) gotos asm_kept have_avx
    m dst src size :
  0 < n -> Z.of_nat block mod 2 ^ n = 0 -> (0 < block)%nat ->
  tail_copies gotos asm_kept have_avx (Z.of_nat block) ->
  2 ^ n <= size < 2 ^ 64 ->
  no_overlap dst src size ->
  exists m',
    (let '(m1, dst1, src1, size1) :=
       Simd.align_destination (2 ^ n) m dst src size in
     match Simd.copy_aligned (2 ^ n) block (Z.to_nat size1) m1 dst1 src1
             size1 with
     | None => None
     | Some (m2, dst2, src2, size2) =>
         Simd.memcpy_my_tail gotos asm_kept have_avx m2 dst2 src2 size2
     end) = Some m' /\
    copied m m' dst src size /\ unchanged_outside m m' dst size.
Proof.
  intros Hn Hblock Hpos Htail Hsize Hdis.
  assert (0 < 2 ^ n) by (apply Z.pow_pos_nonneg; lia).
  destruct (align_destination_partial n m dst src size Hn Hsize Hdis)
    as (m1 & padding & P & -> & Hpad & Hland & H1 & HP).
  destruct (copy_aligned_partial n block (Z.to_nat (size - padding)) m
              dst src size Hn Hblock Hpos Hdis m1 padding P H1)
    as (m2 & off & -> & Hoff & Hrest & _ & H2); [lia|lia|done|].
  destruct (Htail m2 (dst + off) (src + off) (size - off))
    as (m3 & -> & Hc & Hu); [lia|unfold no_overlap in *; lia|].
  exists m3. split; [done|].
  eapply partial_copy_finish;
    [|by eapply (partial_copy_extend m m2 m3 dst src size _ off
                   (size - off)); [..|exact Hc|exact Hu]; try lia].
  cbv beta. intros i Hi.
  destruct (decide (i < padding)); [left; left; apply HP; lia|].
  destruct (decide (i < off)); [left; right; lia|right; lia].
Qed.

(** Up to 32 bytes the AVX path uses no [__asm__]. *)
Lemma tail_copies_avx_32 gotos asm_kept :
  tail_copies (S gotos) asm_kept true 33.
Proof.
  intros m dst src size Hsize Hdis. rewrite memcpy_my_tail_unfold.
  destruct (Z.leb_spec size 16).
  { eexists. split; [done|]. apply copy_upto16_copies; [lia|done]. }
  destruct (Z.leb_spec size 32); [|lia].
  pose proof (partial_copy_block m m dst src size _ 0 8 Hdis
                (partial_copy_start m dst src size)) as H1.
  rewrite !Z.add_0_r in H1. specialize (H1 ltac:(lia) ltac:(lia)).
  pose proof (partial_copy_block m _ dst src size _ 8 8 Hdis H1) as H2.
  specialize (H2 ltac:(lia) ltac:(lia)).
  destruct (tail_copies_16 gotos asm_kept true
              (copy_block (copy_block m dst src 8) (dst + 8) (src + 8) 8)
              (dst + 16) (src + 16) (size - 16))
    as (m' & -> & Hc & Hu); [lia|unfold no_overlap in *; lia|].
  exists m'. split; [done|].
  eapply partial_copy_finish;
    [|by eapply (partial_copy_extend m _ m' dst src size _ 16
                   (size - 16)); [..|exact Hc|exact Hu]; try lia].
  cbv beta. intros i Hi.
  destruct (decide (i < 8)); [left; left; right; lia|].
  destruct (decide (i < 16)); [left; right; lia|right; lia].
Qed.

Lemma tail_copies_avx_256 gotos : tail_copies (S gotos) true true 257.
Proof.
  intros m dst src size Hsize Hdis.
  destruct (Z.le_gt_cases size 32) as [Hle|Hgt].
  { apply (tail_copies_avx_32 gotos true); [lia|done]. }
  rewrite memcpy_my_tail_unfold.
  destruct (Z.leb_spec size 16); [lia|].
  destruct (Z.leb_spec size 32); [lia|].
  destruct (Z.leb_spec size 256); [|lia].
  apply (last_then_rest_copies 32); [lia|lia|done].
Qed.

Lemma tail_copies_sse_128 gotos asm_kept :
  tail_copies gotos asm_kept false 129.
Proof.
  intros m dst src size Hsize Hdis. rewrite memcpy_my_tail_unfold.
  destruct (Z.leb_spec size 16).
  { eexists. split; [done|]. apply copy_upto16_copies; [lia|done]. }
  destruct (Z.leb_spec size 128); [|lia].
  apply (last_then_rest_copies 16); [lia|lia|done].
Qed.

Lemma tail_copies_weaken gotos asm_kept have_avx bound bound' :
  bound' <= bound ->
  tail_copies gotos asm_kept have_avx bound ->
  tail_copies gotos asm_kept have_avx bound'.
Proof. intros Hle Ht m dst src size Hsize. apply Ht. lia. Qed.

Lemma tail_copies_all gotos asm_kept have_avx :
  asm_kept = true \/ have_avx = false ->
  tail_copies (S (S gotos)) asm_kept have_avx (2 ^ 64).
Proof.
  intros Hcase m dst src size Hsize Hdis. destruct have_avx.
  - destruct Hcase as [->|?]; [|done].
    destruct (Z.le_gt_cases size 256) as [Hle|Hgt].
    { apply (tail_copies_avx_256 (S gotos)); [lia|done]. }
    rewrite memcpy_my_tail_unfold.
    destruct (Z.leb_spec size 16); [lia|].
    destruct (Z.leb_spec size 32); [lia|].
    destruct (Z.leb_spec size 256); [lia|].
    apply (aligned_then_tail_copies 5 256 (S gotos) true true);
      try done; try lia.
    apply (tail_copies_weaken _ _ _ 257); [lia|apply tail_copies_avx_256].
  - destruct (Z.le_gt_cases size 128) as [Hle|Hgt].
    { apply (tail_copies_sse_128 (S (S gotos))); [lia|done]. }
    rewrite memcpy_my_tail_unfold.
    destruct (Z.leb_spec size 16); [lia|].
    destruct (Z.leb_spec size 128); [lia|].
    apply (aligned_then_tail_copies 4 128 (S gotos) asm_kept false);
      try done; try lia.
    apply (tail_copies_weaken _ _ _ 129); [lia|apply tail_copies_sse_128].
Qed.

(** The AVX path of [memcpy_my] when the compiler deletes the [__asm__]
    statements whose outputs are not read. *)
Lemma tail_without_dead_asm gotos m dst src size :
  0 <= size < 2 ^ 64 ->
  no_overlap dst src size ->
  exists m',
    Simd.memcpy_my_tail (S (S gotos)) false true m dst src size = Some m' /\
    unchanged_outside m m' dst size /\
    (size <= 32 -> copied m m' dst src size) /\
    (32 < size <= 256 -> m' = m) /\
    (256 < size ->
     let rest := (size - padding_to_32 dst) mod 256 in
     (rest <= 32 -> copied m m' dst src size) /\
     (32 < rest ->
      copied m m' dst src (size - rest) /\
      forall i, Z.max (size - rest) 32 <= i < size ->
                m' (dst + i) = m (dst + i))).
Proof.
  intros Hsize Hdis.
  destruct (Z.le_gt_cases size 32) as [Hle32|Hgt32].
  { destruct (tail_copies_avx_32 (S gotos) false m dst src size)
      as (m' & Hm' & Hc & Hu); [lia|done|].
    exists m'. split; [done|]. split; [done|]. split; [done|].
    split; intros; lia. }
  rewrite memcpy_my_tail_unfold.
  destruct (Z.leb_spec size 16); [lia|].
  destruct (Z.leb_spec size 32); [lia|].
  destruct (Z.leb_spec size 256) as [Hle|Hgt].
  { cbn [Simd.dead_asm]. exists m. split; [done|].
    split; [by intros a _|]. split; [lia|]. split; [done|lia]. }
  destruct (aligned_blocks 5 256 m dst src size)
    as (m2 & Heq & Hrest & Hpad & [Hu Hc] & Hkept); try done; try lia.
  change (Z.land (2 ^ 5 - Z.land dst (2 ^ 5 - 1)) (2 ^ 5 - 1))
    with (padding_to_32 dst) in *.
  change (Z.of_nat 256) with 256 in *.
  set (rest := (size - padding_to_32 dst) mod 256) in *.
  change (2 ^ 5) with 32 in *.
  destruct (Simd.align_destination 32 m dst src size)
    as [[[m1 dst1] src1] size1].
  cbv beta iota in Heq |- *.
  rewrite Heq.
  destruct (Z.le_gt_cases rest 32) as [Hsmall|Hbig].
  - destruct (tail_copies_avx_32 gotos false m2 (dst + (size - rest))
                (src + (size - rest)) rest)
      as (m3 & -> & Hc3 & Hu3); [lia|unfold no_overlap in *; lia|].
    exists m3. split; [done|].
    assert (copied m m3 dst src size /\ unchanged_outside m m3 dst size)
      as [Hc' Hu'].
    { eapply partial_copy_finish;
        [|eapply (partial_copy_extend m m2 m3 dst src size _ (size - rest)
                    rest Hdis (conj Hu Hc)); [lia|lia|lia| |]].
      - cbv beta. intros i Hi. lia.
      - replace (size - rest + rest) with size by lia. exact Hc3.
      - exact Hu3. }
    split; [done|]. split; [done|]. split; [lia|].
    intros _. split; [done|lia].
  - rewrite memcpy_my_tail_unfold.
    destruct (Z.leb_spec rest 16); [lia|].
    destruct (Z.leb_spec rest 32); [lia|].
    destruct (Z.leb_spec rest 256); [|lia].
    cbn [Simd.dead_asm]. exists m2. split; [done|]. split; [done|].
    split; [lia|]. split; [lia|]. intros _. split; [lia|].
    intros _. split; [|exact Hkept].
    intros i Hi. apply Hc; lia.
Qed.

Lemma memcpy_my_tail_more gotos asm_kept have_avx :
  forall m dst src size m',
  Simd.memcpy_my_tail gotos asm_kept have_avx m dst src size = Some m' ->
  Simd.memcpy_my_tail (S gotos) asm_kept have_avx m dst src size = Some m'.
Proof.
  induction gotos as [|gotos IH]; intros m dst src size m' Htail;
    rewrite memcpy_my_tail_unfold in Htail;
    rewrite memcpy_my_tail_unfold;
    destruct (size <=? 16); try done;
    destruct have_avx;
    repeat match goal with
    | |- context [if ?c then _ else _] => destruct c; try done
    end;
    try (destruct (Simd.align_destination _ _ _ _ _) as [[[m1 d1] s1] n1];
         destruct (Simd.copy_aligned _ _ _ _ _ _ _) as [[[[m2 d2] s2] n2]|];
         try done);
    by apply IH.
Qed.

(** X17: [memcpy_my] terminates for every size taking [goto tail] at most
    twice, returns [dst] and writes nowhere outside the destination; none
    of its aligned stores faults.  It copies [size] bytes between buffers
    that do not overlap whenever [size <= 32] or [have_avx] is false.  On
    the AVX path (the global [have_avx] is true) the stretch of 33 to 256
    bytes is copied by [__asm__] statements that are not [volatile] and
    whose outputs are never read: it copies all [size] bytes if the
    compiler keeps them; if it deletes them, a call for 33 to 256 bytes
    leaves memory as it is, and a longer call copies all bytes only when
    at most 32 are left behind the blocks of 256, that is
    [rest = (size - padding) mod 256 <= 32]; else it leaves the last
    [rest] bytes of the destination as they were (from offset 32 on, the
    first vector being written by the alignment). *)
Theorem memcpy_my_copies_unless_asm_deleted asm_kept have_avx m dst src size :
  0 <= size < 2 ^ 64 ->
  no_overlap dst src size ->
  exists m',
    Simd.memcpy_my asm_kept have_avx m dst src size = Some (m', dst) /\
    Simd.memcpy_my_tail 2 asm_kept have_avx m dst src size = Some m' /\
    unchanged_outside m m' dst size /\
    (asm_kept = true \/ have_avx = false \/ size <= 32 ->
     copied m m' dst src size) /\
    (asm_kept = false -> have_avx = true ->
     (32 < size <= 256 -> m' = m) /\
     (256 < size ->
      let rest := (size - padding_to_32 dst) mod 256 in
      (rest <= 32 -> copied m m' dst src size) /\
      (32 < rest ->
       copied m m' dst src (size - rest) /\
       forall i, Z.max (size - rest) 32 <= i < size ->
                 m' (dst + i) = m (dst + i)))).
Proof.
  intros Hsize Hdis. unfold Simd.memcpy_my.
  destruct (decide (asm_kept = true \/ have_avx = false)) as [Hcase|Hcase].
  - destruct (tail_copies_all 0 asm_kept have_avx Hcase m dst src size
                Hsize Hdis) as (m' & Hm' & Hc & Hu).
    exists m'. rewrite (memcpy_my_tail_more 2 _ _ _ _ _ _ _ Hm').
    split; [done|]. split; [done|]. split; [done|]. split; [done|].
    intros -> ->. destruct Hcase; done.
  - assert (asm_kept = false /\ have_avx = true) as [-> ->]
      by (destruct asm_kept, have_avx; tauto).
    destruct (tail_without_dead_asm 0 m dst src size Hsize Hdis)
      as (m' & Hm' & Hu & Hsmall & Hmid & Hbig).
    exists m'. rewrite (memcpy_my_tail_more 2 _ _ _ _ _ _ _ Hm').
    split; [done|]. split; [done|]. split; [done|].
    split; [intros [?|[?|?]]; [done|done|by apply Hsmall]|].
    intros _ _. split; [done|done].
Qed.

Lemma memcpy_my_copies_unless_asm_deleted_witness :
  (exists m',
     Simd.memcpy_my true true patterned_memory 200003 100 1000
     = Some (m', 200003) /\
     copied patterned_memory m' 200003 100 1000) /\
  Simd.memcpy_my false true patterned_memory 200003 100 256
  = Some (patterned_memory, 200003) /\
  (exists m',
     Simd.memcpy_my false true patterned_memory 200003 100 1000
     = Some (m', 200003) /\
     copied patterned_memory m' 200003 100 (1000 - 203) /\
     m' (200003 + 999) = patterned_memory (200003 + 999) /\
     m' (200003 + 999) <> patterned_memory (100 + 999)).
Proof.
  split; [|split].
  - destruct (memcpy_my_copies_unless_asm_deleted true true
                patterned_memory 200003 100 1000)
      as (m' & Hm' & _ & _ & Hc & _); [lia|right; lia|].
    exists m'. split; [exact Hm'|]. apply Hc. by left.
  - destruct (memcpy_my_copies_unless_asm_deleted false true
                patterned_memory 200003 100 256)
      as (m' & Hm' & _ & _ & _ & Hdeleted); [lia|right; lia|].
    destruct Hdeleted as [Hmid _]; [reflexivity|reflexivity|].
    rewrite Hm'. by rewrite Hmid by lia.
  - destruct (memcpy_my_copies_unless_asm_deleted false true
                patterned_memory 200003 100 1000)
      as (m' & Hm' & _ & _ & _ & Hdeleted); [lia|right; lia|].
    destruct Hdeleted as [_ Hbig]; [reflexivity|reflexivity|].
    destruct Hbig as [_ Hleft]; [lia|].
    change ((1000 - padding_to_32 200003) mod 256) with 203 in *.
    destruct Hleft as [Hc Hkept]; [lia|].
    exists m'. split; [exact Hm'|]. split; [exact Hc|].
    assert (m' (200003 + 999) = patterned_memory (200003 + 999)) as Hlast
      by (apply Hkept; lia).
    split; [exact Hlast|]. rewrite Hlast. vm_compute. discriminate.
Defined.

(** ** Comparing trackers *)

Lemma score_nan_without_bytes v :
  VariantWithStatistics.time v = 0 ->
  VariantWithStatistics.bytes v = 0 ->
  VariantWithStatistics.score v = S754_nan.
Proof.
  intros Ht Hb. unfold VariantWithStatistics.score. rewrite Ht, Hb.
  change (Double.div (Double.of_size_t 0) (Double.of_size_t 0))
    with S754_nan.
  reflexivity.
Qed.

(** X18: [operator<] on trackers is irreflexive and transitive, but a
    tracker without accepted samples ([time = bytes = 0], score NaN) is
    neither less nor greater than any tracker.  So "neither less nor
    greater" is not transitive: the order is not a strict weak ordering
    once such a tracker is present. *)
Theorem operator_lt_is_partial a b c :
  VariantWithStatistics.time c = 0 ->
  VariantWithStatistics.bytes c = 0 ->
  operator_lt a a = false /\
  (operator_lt a b = true -> operator_lt b a = false) /\
  (forall d, operator_lt a b = true -> operator_lt b d = true ->
             operator_lt a d = true) /\
  operator_lt a c = false /\ operator_lt c a = false /\
  operator_lt b c = false /\ operator_lt c b = false.
Proof.
  intros Ht Hb. unfold operator_lt.
  rewrite (score_nan_without_bytes c Ht Hb).
  split; [apply ltb_irrefl|]. split; [apply ltb_asym|].
  split; [intros d; apply ltb_trans|].
  unfold Double.ltb. rewrite !SFltb_nan_r. done.
Qed.

Lemma operator_lt_is_partial_witness :
  let a := VariantWithStatistics.mk memcpy 1 2 1 1 in
  let b := VariantWithStatistics.mk memcpy_erms 1 1 1 4 in
  let c := VariantWithStatistics.new 10 memcpy_fast_sse in
  operator_lt a b = true /\
  operator_lt a c = false /\ operator_lt c a = false /\
  operator_lt b c = false /\ operator_lt c b = false.
Proof.
  intros a b c.
  destruct (operator_lt_is_partial a b c)
    as (_ & _ & _ & H1 & H2 & H3 & H4); [reflexivity|reflexivity|].
  split; [vm_compute; reflexivity|].
  split; [exact H1|]. split; [exact H2|]. split; [exact H3|exact H4].
Defined.

(** ** The benchmark as a whole *)

(** ** [loop] and the thread body as lists of calls *)

Lemma run_calls_app {St} (impl : MemcpyImpl St) calls later st m :
  run_calls impl (calls ++ later) st m
  = match run_calls impl calls st m with
    | Some (st, m) => run_calls impl later st m
    | None => None
    end.
Proof.
  revert st m. induction calls as [|[[d s] n] calls IH]; intros st m;
    cbn [run_calls app]; [done|].
  destruct (impl st m d s n) as [[st1 m1]|]; [apply IH|done].
Qed.

Lemma loop_is_run_calls {St} (impl : MemcpyImpl St) chunks :
  forall st m dst src size,
  loop impl chunks st m dst src size
  = match loop_calls chunks dst src size with
    | Some calls => run_calls impl calls st m
    | None => None
    end.
Proof.
  induction chunks as [|chunk chunks IH]; intros st m dst src size;
    cbn [loop loop_calls]; destruct (size =? 0); try done.
  destruct (loop_calls chunks _ _ _) as [calls|] eqn:Hcalls;
    cbn [fmap option_fmap option_map run_calls];
    destruct (impl st m dst src (Z.min size chunk)) as [[st1 m1]|];
    try done; by rewrite IH, Hcalls.
Qed.

Lemma test_thread_is_run_calls {St} (impl : MemcpyImpl St) chunks
    dst src begin_ end_ iterations :
  forall iteration st m,
  test_thread impl chunks iteration iterations st m dst src begin_ end_
  = match thread_calls chunks iteration iterations dst src begin_ end_ with
    | Some calls => run_calls impl calls st m
    | None => None
    end.
Proof.
  induction iterations as [|iterations IH]; intros iteration st m;
    cbn [test_thread thread_calls]; [done|].
  rewrite loop_is_run_calls.
  destruct (loop_calls chunks _ _ _) as [calls|]; [|done].
  destruct (thread_calls chunks _ _ _ _ _ _) as [later|] eqn:Hlater.
  - rewrite run_calls_app.
    destruct (run_calls impl calls st m) as [[st1 m1]|]; [|done].
    by rewrite IH, Hlater.
  - destruct (run_calls impl calls st m) as [[st1 m1]|]; [|done].
    by rewrite IH, Hlater.
Qed.

Lemma loop_calls_in_range chunks D S begin_ end_ :
  Forall (fun chunk => 0 <= chunk) chunks ->
  forall off calls,
  begin_ <= off <= end_ ->
  loop_calls chunks (D + off) (S + off) (end_ - off) = Some calls ->
  Forall (fun c : call =>
            exists o, begin_ <= o /\ 0 <= c.2 /\ o + c.2 <= end_ /\
                      c.1.1 = D + o /\ c.1.2 = S + o) calls.
Proof.
  induction 1 as [|chunk chunks Hchunk _ IH]; intros off calls Hoff;
    cbn [loop_calls]; destruct (Z.eqb_spec (end_ - off) 0);
    try (intros [= <-]; constructor); try done.
  set (b := Z.min (end_ - off) chunk).
  replace (D + off + b) with (D + (off + b)) by lia.
  replace (S + off + b) with (S + (off + b)) by lia.
  replace (end_ - off - b) with (end_ - (off + b)) by lia.
  destruct (loop_calls chunks _ _ _) as [later|] eqn:Hlater; [|done].
  intros [= <-]. constructor.
  - exists off. cbn. unfold b. lia.
  - apply (IH (off + b)); [unfold b; lia|done].
Qed.

Lemma loop_calls_length chunks :
  forall dst src size calls,
  loop_calls chunks dst src size = Some calls ->
  (length calls <= length chunks)%nat.
Proof.
  induction chunks as [|chunk chunks IH]; intros dst src size calls;
    cbn [loop_calls]; destruct (size =? 0);
    try (intros [= <-]; cbn; lia); try done.
  destruct (loop_calls chunks _ _ _) as [later|] eqn:Hlater; [|done].
  intros [= <-]. apply IH in Hlater. cbn. lia.
Qed.

Lemma loop_calls_finishes chunks :
  Forall (fun chunk => 0 <= chunk) chunks ->
  forall dst src size,
  0 <= size <= foldr Z.add 0 chunks ->
  is_Some (loop_calls chunks dst src size).
Proof.
  induction 1 as [|chunk chunks Hchunk Hchunks IH]; intros dst src size;
    cbn [loop_calls foldr]; intros Hsize;
    destruct (Z.eqb_spec size 0); try done; [lia|].
  pose proof (chunks_sum_nonneg chunks Hchunks).
  destruct (IH (dst + Z.min size chunk) (src + Z.min size chunk)
              (size - Z.min size chunk)) as [later ->]; [lia|done].
Qed.

Section ThreadCalls.
Variables (chunks : list Z) (dst src begin_ end_ : Z).
Hypothesis chunks_nonneg : Forall (fun chunk => 0 <= chunk) chunks.
Hypothesis range_fits : 0 <= end_ - begin_ < 2 ^ 64.

Lemma thread_calls_in_range iterations :
  forall iteration calls,
  thread_calls chunks iteration iterations dst src begin_ end_ = Some calls ->
  Forall (call_in_range dst src begin_ end_) calls.
Proof.
  induction iterations as [|iterations IH]; intros iteration calls;
    cbn [thread_calls]; [intros [= <-]; constructor|].
  rewrite (size_t_small (end_ - begin_)) by done.
  destruct (loop_calls chunks _ _ _) as [now|] eqn:Hnow; [|done].
  destruct (thread_calls chunks _ _ _ _ _ _) as [later|] eqn:Hlater; [|done].
  intros [= <-]. apply Forall_app. split; [|by eapply IH].
  destruct (negb (iteration mod 2 =? 0)).
  - apply (loop_calls_in_range chunks src dst begin_ end_ chunks_nonneg
             begin_ now) in Hnow; [|lia].
    eapply Forall_impl; [exact Hnow|].
    intros c (o & ? & ? & ? & ? & ?). exists o. tauto.
  - apply (loop_calls_in_range chunks dst src begin_ end_ chunks_nonneg
             begin_ now) in Hnow; [|lia].
    eapply Forall_impl; [exact Hnow|].
    intros c (o & ? & ? & ? & ? & ?). exists o. tauto.
Qed.

Lemma thread_calls_length iterations :
  forall iteration calls,
  thread_calls chunks iteration iterations dst src begin_ end_ = Some calls ->
  (length calls <= iterations * length chunks)%nat.
Proof.
  induction iterations as [|iterations IH]; intros iteration calls;
    cbn [thread_calls]; [intros [= <-]; cbn; lia|].
  destruct (loop_calls chunks _ _ _) as [now|] eqn:Hnow; [|done].
  destruct (thread_calls chunks _ _ _ _ _ _) as [later|] eqn:Hlater; [|done].
  intros [= <-]. apply loop_calls_length in Hnow. apply IH in Hlater.
  rewrite length_app. lia.
Qed.

Lemma thread_calls_finishes iterations :
  end_ - begin_ <= foldr Z.add 0 chunks ->
  forall iteration,
  is_Some (thread_calls chunks iteration iterations dst src begin_ end_).
Proof.
  intros Hsum. induction iterations as [|iterations IH]; intros iteration;
    cbn [thread_calls]; [done|].
  rewrite (size_t_small (end_ - begin_)) by done.
  destruct (loop_calls_finishes chunks chunks_nonneg
              (if negb (iteration mod 2 =? 0) then src + begin_
               else dst + begin_)
              (if negb (iteration mod 2 =? 0) then dst + begin_
               else src + begin_)
              (end_ - begin_)) as [now ->]; [lia|].
  by destruct (IH (iteration + 1)) as [later ->].
Qed.

End ThreadCalls.

(** ** Threads running together *)

Section Threads.
Context {St : Type} (impl : MemcpyImpl St).
Variables (dst src size : Z) (rb re : nat -> Z) (N : nat).
Hypothesis impl_copies : copier impl.
Hypothesis buffers_apart : no_overlap dst src size.
Hypothesis ranges_inside :
  forall k, (k < N)%nat -> 0 <= rb k /\ re k <= size.
Hypothesis ranges_apart :
  forall j k, (j < k)%nat -> (k < N)%nat -> re j <= rb k.

Lemma call_in_range_runs st m k d s n :
  (k < N)%nat ->
  call_in_range dst src (rb k) (re k) (d, s, n) ->
  exists st' m',
    impl st m d s n = Some (st', m') /\
    copied m m' d s n /\ unchanged_outside m m' d n.
Proof.
  intros Hk (off & Hoff & Hn & Hend & Hdir). cbn [fst snd] in *.
  destruct (ranges_inside k Hk). apply impl_copies; [done|].
  unfold no_overlap in *. lia.
Qed.

(** A call of another thread leaves the range of thread [j] alone. *)
Lemma other_thread_keeps_range j k c m m' :
  (j < N)%nat -> (k < N)%nat -> j <> k ->
  call_in_range dst src (rb k) (re k) c ->
  unchanged_outside m m' c.1.1 c.2 ->
  range_agree dst src (rb j) (re j) m' m.
Proof.
  intros Hj Hk Hjk (off & Hoff & Hn & Hend & Hdir) Hu i Hi.
  destruct (ranges_inside j Hj). destruct (ranges_inside k Hk).
  assert (re j <= rb k \/ re k <= rb j) as Hapart.
  { destruct (decide (j < k)%nat);
      [left; by apply ranges_apart|right; apply ranges_apart; lia]. }
  split; apply Hu; unfold no_overlap in *; lia.
Qed.

(** A call of thread [j] acts on its range alone. *)
Lemma own_call_keeps_agreement j c m1 m1' m2 m2' :
  (j < N)%nat ->
  call_in_range dst src (rb j) (re j) c ->
  copied m1 m1' c.1.1 c.1.2 c.2 -> unchanged_outside m1 m1' c.1.1 c.2 ->
  copied m2 m2' c.1.1 c.1.2 c.2 -> unchanged_outside m2 m2' c.1.1 c.2 ->
  range_agree dst src (rb j) (re j) m1 m2 ->
  range_agree dst src (rb j) (re j) m1' m2'.
Proof.
  intros Hj (off & Hoff & Hn & Hend & Hdir) Hc1 Hu1 Hc2 Hu2 Hagree.
  destruct (ranges_inside j Hj).
  assert (forall a,
            (exists i, rb j <= i < re j /\ (a = dst + i \/ a = src + i)) ->
            m1' a = m2' a) as Hsame.
  { intros a (i & Hi & Ha).
    destruct (decide (c.1.1 <= a < c.1.1 + c.2)) as [Hin|Hout].
    - replace a with (c.1.1 + (a - c.1.1)) by lia.
      rewrite Hc1, Hc2 by lia.
      destruct Hdir as [[Hd Hs]|[Hd Hs]]; destruct Ha as [->| ->];
        rewrite Hd, Hs in *; unfold no_overlap in *; try lia.
      + replace (src + off + (dst + i - (dst + off))) with (src + i) by lia.
        by apply Hagree.
      + replace (dst + off + (src + i - (src + off))) with (dst + i) by lia.
        by apply Hagree.
    - rewrite Hu1, Hu2 by done.
      destruct Ha as [->| ->]; by apply Hagree. }
  intros i Hi. split; apply Hsame; exists i; tauto.
Qed.

Lemma threads_in_range_insert threads k c calls :
  threads_in_range dst src rb re threads ->
  threads !! k = Some (c :: calls) ->
  threads_in_range dst src rb re (<[k := calls]> threads).
Proof.
  intros Hin Hk k' calls'.
  destruct (decide (k = k')) as [<-|Hne].
  - rewrite list_lookup_insert_eq by by eapply lookup_lt_Some.
    intros [= <-]. exact (Forall_inv_tail (Hin k _ Hk)).
  - rewrite list_lookup_insert_ne by done. apply Hin.
Qed.

Lemma run_threads_simulates schedule :
  forall threads st m st' m',
  length threads = N ->
  threads_in_range dst src rb re threads ->
  run_threads impl schedule threads st m = Some (st', m') ->
  forall j calls st2 m2,
  threads !! j = Some calls ->
  range_agree dst src (rb j) (re j) m m2 ->
  exists st2' m2',
    run_calls impl calls st2 m2 = Some (st2', m2') /\
    range_agree dst src (rb j) (re j) m' m2'.
Proof.
  induction schedule as [|k schedule IH];
    intros threads st m st' m' Hlen Hin; cbn [run_threads].
  - destruct (forallb _ threads) eqn:Hdone; [|done].
    intros [= <- <-] j calls st2 m2 Hj Hagree.
    rewrite forallb_forall in Hdone.
    specialize (Hdone calls). rewrite <- list_elem_of_In in Hdone.
    apply bool_decide_eq_true in Hdone;
      [|by eapply list_elem_of_lookup_2].
    subst calls. by exists st2, m2.
  - destruct (threads !! k) as [[|[[d s] n] calls_k]|] eqn:Hk;
      try (by apply IH).
    assert (k < N)%nat as Hk' by (rewrite <- Hlen; by eapply lookup_lt_Some).
    pose proof (Forall_inv (Hin k _ Hk)) as Hc.
    destruct (call_in_range_runs st m k d s n Hk' Hc)
      as (st1 & m1 & Hrun & Hc1 & Hu1).
    rewrite Hrun. intros Hrest j calls st2 m2 Hj Hagree.
    assert (j < N)%nat as Hj' by (rewrite <- Hlen; by eapply lookup_lt_Some).
    destruct (decide (j = k)) as [Heq|Hne].
    + subst j. assert (calls = (d, s, n) :: calls_k) as ->
        by (apply (inj Some); exact (eq_trans (eq_sym Hj) Hk)).
      cbn [run_calls].
      destruct (call_in_range_runs st2 m2 k d s n Hk' Hc)
        as (st3 & m3 & -> & Hc3 & Hu3).
      eapply (IH _ _ _ _ _ _ _ Hrest k calls_k).
      * by rewrite list_lookup_insert_eq by lia.
      * by eapply (own_call_keeps_agreement k (d, s, n)).
    + eapply (IH _ _ _ _ _ _ _ Hrest j calls).
      * by rewrite list_lookup_insert_ne.
      * intros i Hi.
        destruct (other_thread_keeps_range j k (d, s, n) m m1
                    Hj' Hk' Hne Hc Hu1 i Hi) as [-> ->].
        by apply Hagree.
    Unshelve. all: try by rewrite length_insert.
    all: by eapply threads_in_range_insert.
Qed.

Lemma run_threads_frame schedule :
  forall threads st m st' m',
  length threads = N ->
  threads_in_range dst src rb re threads ->
  run_threads impl schedule threads st m = Some (st', m') ->
  forall a, ~ (dst <= a < dst + size) -> ~ (src <= a < src + size) ->
  m' a = m a.
Proof.
  induction schedule as [|k schedule IH];
    intros threads st m st' m' Hlen Hin; cbn [run_threads].
  - destruct (forallb _ threads); [|done]. by intros [= <- <-].
  - destruct (threads !! k) as [[|[[d s] n] calls_k]|] eqn:Hk;
      try (by apply IH).
    assert (k < N)%nat as Hk' by (rewrite <- Hlen; by eapply lookup_lt_Some).
    pose proof (Forall_inv (Hin k _ Hk)) as Hc.
    destruct (call_in_range_runs st m k d s n Hk' Hc)
      as (st1 & m1 & Hrun & Hc1 & Hu1).
    rewrite Hrun. intros Hrest a Hdst Hsrc.
    assert (m' a = m1 a) as ->.
    { eapply (IH (<[k:=calls_k]> threads));
        [by rewrite length_insert|by eapply threads_in_range_insert
        |exact Hrest|done|done]. }
    apply Hu1. destruct Hc as (off & Hoff & Hn & Hend & Hdir).
    destruct (ranges_inside k Hk'). cbn [fst snd] in *. lia.
Qed.

Lemma run_threads_finishes schedule :
  forall threads st m,
  length threads = N ->
  threads_in_range dst src rb re threads ->
  (forall k calls, threads !! k = Some calls ->
     (length calls <= count_occ Nat.eq_dec schedule k)%nat) ->
  is_Some (run_threads impl schedule threads st m).
Proof.
  induction schedule as [|k schedule IH];
    intros threads st m Hlen Hin Hcount; cbn [run_threads].
  - replace (forallb _ threads) with true; [done|].
    symmetry. apply forallb_forall. intros calls Hcalls.
    apply list_elem_of_In, list_elem_of_lookup_1 in Hcalls as [j Hj].
    apply bool_decide_eq_true. specialize (Hcount j _ Hj).
    destruct calls; [done|cbn in Hcount; lia].
  - destruct (threads !! k) as [[|[[d s] n] calls_k]|] eqn:Hk.
    + apply IH; [done|done|]. intros j calls Hj.
      specialize (Hcount j _ Hj). cbn [count_occ] in Hcount.
      destruct (Nat.eq_dec k j) as [->|]; [|done].
      assert (calls = []) as ->
        by (apply (inj Some); exact (eq_trans (eq_sym Hj) Hk)). cbn. lia.
    + assert (k < N)%nat as Hk'
        by (rewrite <- Hlen; by eapply lookup_lt_Some).
      pose proof (Forall_inv (Hin k _ Hk)) as Hc.
      destruct (call_in_range_runs st m k d s n Hk' Hc)
        as (st1 & m1 & Hrun & _). rewrite Hrun.
      apply IH; [by rewrite length_insert
                |by eapply threads_in_range_insert|].
      intros j calls. destruct (decide (k = j)) as [<-|Hne].
      * rewrite list_lookup_insert_eq by by eapply lookup_lt_Some.
        intros [= <-]. specialize (Hcount k _ Hk).
        cbn [count_occ length] in Hcount.
        destruct (Nat.eq_dec k k); [lia|done].
      * rewrite list_lookup_insert_ne by done. intros Hj.
        specialize (Hcount j _ Hj). cbn [count_occ] in Hcount.
        by destruct (Nat.eq_dec k j).
    + apply IH; [done|done|]. intros j calls Hj.
      specialize (Hcount j _ Hj). cbn [count_occ] in Hcount.
      destruct (Nat.eq_dec k j) as [->|]; [|done].
      by pose proof (eq_trans (eq_sym Hj) Hk).
Qed.

End Threads.

(** ** [test] as a whole *)

Section Test.
Context {St : Type} (impl : MemcpyImpl St).
Variables (chunks : list Z) (dst src size num_threads : Z)
          (iterations : nat).
Hypothesis impl_copies : copier impl.
Hypothesis chunks_nonneg : Forall (fun chunk => 0 <= chunk) chunks.
Hypothesis size_nonneg : 0 <= size.
Hypothesis some_threads : 0 < num_threads < 2 ^ 64.
Hypothesis ranges_fit : size * num_threads < 2 ^ 64.
Hypothesis buffers_apart : no_overlap dst src size.

Lemma ranges_inside k :
  (k < Z.to_nat num_threads)%nat ->
  0 <= range_begin size num_threads k /\ range_end size num_threads k <= size.
Proof.
  intros Hk.
  pose proof (thread_range_bounds size num_threads (Z.of_nat k)).
  unfold range_begin, range_end in *. lia.
Qed.

Lemma ranges_apart j k :
  (j < k)%nat -> (k < Z.to_nat num_threads)%nat ->
  range_end size num_threads j <= range_begin size num_threads k.
Proof.
  intros Hj Hk. unfold range_begin, range_end in *.
  apply thread_ranges_ordered; lia.
Qed.

Lemma range_fits k :
  (k < Z.to_nat num_threads)%nat ->
  0 <= range_end size num_threads k - range_begin size num_threads k
    < 2 ^ 64.
Proof.
  intros Hk.
  pose proof (thread_range_bounds size num_threads (Z.of_nat k)).
  assert (size < 2 ^ 64) by nia.
  unfold range_begin, range_end in *. lia.
Qed.

Lemma spawned threads :
  mapM (fun thread_num =>
          thread_calls chunks 0 iterations dst src
            (thread_begin size num_threads (Z.of_nat thread_num))
            (thread_end size num_threads (Z.of_nat thread_num)))
       (seq 0 (Z.to_nat num_threads)) = Some threads ->
  length threads = Z.to_nat num_threads /\
  forall k calls, threads !! k = Some calls ->
    (k < Z.to_nat num_threads)%nat /\
    thread_calls chunks 0 iterations dst src
      (range_begin size num_threads k) (range_end size num_threads k)
    = Some calls.
Proof.
  intros Hspawn%mapM_Some_1. split.
  { apply Forall2_length in Hspawn. by rewrite length_seq in Hspawn. }
  intros k calls Hk.
  destruct (Forall2_lookup_r _ _ _ _ _ Hspawn Hk) as (x & Hx & Hcalls).
  apply lookup_seq in Hx as [-> Hlt]. by split.
Qed.

Lemma spawned_in_range threads :
  (forall k calls, threads !! k = Some calls ->
     (k < Z.to_nat num_threads)%nat /\
     thread_calls chunks 0 iterations dst src
       (range_begin size num_threads k) (range_end size num_threads k)
     = Some calls) ->
  threads_in_range dst src (range_begin size num_threads)
                   (range_end size num_threads) threads.
Proof.
  intros Hthreads k calls Hk. destruct (Hthreads k calls Hk) as [Hlt Hcalls].
  eapply thread_calls_in_range; [done|by apply range_fits|done].
Qed.

(** Under any schedule, every byte of the buffers ends as the thread that
    owns it would leave it when running alone. *)
Lemma test_byte schedule threads st m st' m' i :
  (0 < iterations)%nat ->
  length threads = Z.to_nat num_threads ->
  (forall k calls, threads !! k = Some calls ->
     (k < Z.to_nat num_threads)%nat /\
     thread_calls chunks 0 iterations dst src
       (range_begin size num_threads k) (range_end size num_threads k)
     = Some calls) ->
  run_threads impl schedule threads st m = Some (st', m') ->
  0 <= i < size ->
  m' (dst + i) = m (src + i) /\ m' (src + i) = m (src + i).
Proof.
  intros Hit Hlen Hthreads Hrun Hi.
  destruct (thread_range_of_byte size num_threads i) as (j & Hj & Hin);
    [done|done|done|].
  set (k := Z.to_nat j).
  assert (k < Z.to_nat num_threads)%nat as Hlt by lia.
  destruct (lookup_lt_is_Some_2 threads k) as [calls Hcalls];
    [by rewrite Hlen|].
  destruct (Hthreads _ _ Hcalls) as [_ Hthread].
  destruct (run_threads_simulates impl dst src size
              (range_begin size num_threads) (range_end size num_threads)
              (Z.to_nat num_threads) impl_copies
              buffers_apart ranges_inside ranges_apart schedule threads
              st m st' m' Hlen (spawned_in_range threads Hthreads) Hrun
              k calls st m Hcalls)
    as (st2 & m2 & Halone & Hagree); [done|].
  pose proof (ranges_inside _ Hlt) as [Hb He].
  pose proof (range_fits _ Hlt) as Hfits.
  assert (range_begin size num_threads k <= i
          < range_end size num_threads k) as Hi'.
  { unfold range_begin, range_end, k. by rewrite Z2Nat.id by lia. }
  revert Hthread Hagree Hb He Hfits Hi'.
  generalize (range_begin size num_threads k) as begin_.
  generalize (range_end size num_threads k) as end_.
  intros end_ begin_ Hthread Hagree Hb He Hfits Hi'.
  pose proof (test_thread_is_run_calls impl chunks dst src
                begin_ end_ iterations 0 st m) as Hbody.
  rewrite Hthread, Halone in Hbody.
  assert (no_overlap (dst + begin_) (src + begin_) (end_ - begin_)) as Hdis
    by (unfold no_overlap in *; lia).
  destruct (test_thread_invariant impl chunks m dst src _ _ impl_copies
              chunks_nonneg Hfits Hdis iterations 0 st m st2 m2)
    as (Hsrc & Hdst & _); [lia|done|lia|done|exact Hbody|].
  specialize (Hdst ltac:(lia)).
  destruct (Hagree i Hi') as [-> ->]. split.
  - replace (dst + i) with (dst + begin_ + (i - begin_)) by lia.
    rewrite Hdst by lia. f_equal. lia.
  - replace (src + i) with (src + begin_ + (i - begin_)) by lia.
    by rewrite Hsrc by lia.
Qed.

End Test.

Lemma validation_passes m dst size :
  (forall i, 0 <= i < size -> m (dst + i) = uint8_t i) ->
  validation m dst size = true.
Proof.
  intros Hm. apply forallb_forall. intros i [_ Hi]%in_seq.
  rewrite Hm by lia. by apply Byte.byte_dec_lb.
Qed.

Lemma validation_fails m dst size i :
  0 <= i < size -> m (dst + i) <> uint8_t i ->
  validation m dst size = false.
Proof.
  intros Hi Hm. destruct (validation m dst size) eqn:Hvalid; [|done].
  unfold validation in Hvalid. rewrite forallb_forall in Hvalid.
  specialize (Hvalid (Z.to_nat i)). rewrite Z2Nat.id in Hvalid by lia.
  destruct Hm. apply Byte.byte_dec_bl, Hvalid, in_seq. lia.
Qed.

(** X19: [test] with an implementation that copies, at least one
    iteration and at least one thread, on buffers that do not overlap and
    with [size * num_threads] fitting [size_t]: in whatever order the
    calls of the threads are scheduled, when the threads are joined the
    destination holds the bytes of the source, the source is as it was
    and so is every byte outside the two buffers; and if the source holds
    [uint8_t(i)] at every [i], as [main] fills it, the validation does not
    throw.  [test] does return when the chunk sizes drawn add up to
    [size] and every thread is scheduled for the calls it has to make. *)
Theorem test_copies_and_validates {St} (impl : MemcpyImpl St)
    chunks schedule st m dst src size iterations num_threads :
  copier impl ->
  Forall (fun chunk => 0 <= chunk) chunks ->
  0 <= size -> 0 < num_threads < 2 ^ 64 -> size * num_threads < 2 ^ 64 ->
  no_overlap dst src size ->
  (0 < iterations)%nat ->
  (forall st' m' outcome,
     test impl chunks schedule st m dst src size iterations num_threads
     = Some (st', m', outcome) ->
     copied m m' dst src size /\
     copied m m' src src size /\
     (forall a, ~ (dst <= a < dst + size) -> ~ (src <= a < src + size) ->
                m' a = m a) /\
     ((forall i, 0 <= i < size -> m (src + i) = uint8_t i) ->
      outcome = Elapsed)) /\
  (size <= foldr Z.add 0 chunks ->
   (forall thread_num, (thread_num < Z.to_nat num_threads)%nat ->
      (iterations * length chunks
       <= count_occ Nat.eq_dec schedule thread_num)%nat) ->
   is_Some
     (test impl chunks schedule st m dst src size iterations num_threads)).
Proof.
  intros Himpl Hchunks Hsize Hn Hfit Hdis Hit. split.
  - intros st' m' outcome. unfold test.
    destruct (mapM _ _) as [threads|] eqn:Hspawn; [|done].
    destruct (run_threads impl schedule threads st m) as [[st1 m1]|]
      eqn:Hrun; [|done].
    intros [= <- <- <-].
    destruct (spawned chunks dst src size num_threads iterations threads
                Hspawn) as [Hlen Hthreads].
    pose proof (test_byte impl chunks dst src size num_threads iterations
                  Himpl Hchunks Hsize Hn Hfit Hdis schedule threads
                  st m st1 m1) as Hbyte.
    split_and!.
    + intros i Hi. by apply Hbyte.
    + intros i Hi. by apply Hbyte.
    + eapply (run_threads_frame impl dst src size); [exact Himpl|exact Hdis
        |apply (ranges_inside size num_threads); done
        |done|by eapply spawned_in_range|exact Hrun].
    + intros Hpattern. rewrite validation_passes; [done|].
      intros i Hi. destruct (Hbyte i) as [-> _]; try done. by apply Hpattern.
  - intros Hsum Hschedule. unfold test.
    destruct (mapM_is_Some_2
                (fun thread_num =>
                   thread_calls chunks 0 iterations dst src
                     (thread_begin size num_threads (Z.of_nat thread_num))
                     (thread_end size num_threads (Z.of_nat thread_num)))
                (seq 0 (Z.to_nat num_threads))) as [threads Hspawn].
    { apply Forall_seq. intros k Hk. cbn [compose].
      pose proof (thread_range_bounds size num_threads (Z.of_nat k)).
      assert (size < 2 ^ 64) by nia.
      apply thread_calls_finishes; [done|lia|lia]. }
    rewrite Hspawn.
    destruct (spawned chunks dst src size num_threads iterations threads
                Hspawn) as [Hlen Hthreads].
    destruct (run_threads_finishes impl dst src size _ _ _ Himpl Hdis
                (ranges_inside size num_threads Hsize Hn Hfit)
                schedule threads st m Hlen) as [[st1 m1] ->]; [| |done].
    + by eapply spawned_in_range.
    + intros k calls Hk. destruct (Hthreads k calls Hk) as [Hlt Hcalls].
      apply thread_calls_length in Hcalls.
      specialize (Hschedule k Hlt). lia.
Qed.

Lemma fill_buffers_source m dst src size i :
  no_overlap dst src size -> 0 <= i < size ->
  fill_buffers m dst src size (src + i) = uint8_t i.
Proof.
  intros Hdis Hi. unfold fill_buffers.
  destruct (Z.leb_spec dst (src + i)), (Z.ltb_spec (src + i) (dst + size));
    cbn [andb]; try (unfold no_overlap in *; lia);
    destruct (Z.leb_spec src (src + i)), (Z.ltb_spec (src + i) (src + size));
    cbn [andb]; try lia; f_equal; lia.
Qed.

Lemma fill_buffers_destination m dst src size i :
  0 <= i < size -> fill_buffers m dst src size (dst + i) = Byte.x00.
Proof.
  intros Hi. unfold fill_buffers.
  destruct (Z.leb_spec dst (dst + i)), (Z.ltb_spec (dst + i) (dst + size));
    cbn [andb]; try lia; done.
Qed.

Lemma test_copies_and_validates_witness :
  let m := fill_buffers zero_memory 5000 100 10 in
  exists m',
    test trivial_impl [7; 0; 300]
         [0; 1; 1; 0; 0; 1; 1; 0; 0; 1; 0; 1]%nat
         () m 5000 100 10 2 2 = Some ((), m', Elapsed) /\
    copied m m' 5000 100 10.
Proof.
  intros m.
  destruct (test_copies_and_validates trivial_impl [7; 0; 300]
              [0; 1; 1; 0; 0; 1; 1; 0; 0; 1; 0; 1]%nat
              () m 5000 100 10 2 2 trivial_impl_copier)
    as [Hright Hreturns];
    [repeat constructor; lia|lia|lia|lia|right; lia|lia|].
  destruct Hreturns as [[[[] m'] outcome] Htest].
  { cbn. lia. }
  { intros [|[|k]] Hk; cbn; lia. }
  destruct (Hright () m' outcome Htest) as (Hcopied & _ & _ & Hvalid).
  exists m'. split; [|exact Hcopied].
  rewrite Htest, Hvalid; [reflexivity|].
  intros i Hi. apply fill_buffers_source; [right; lia|lia].
Defined.

Lemma run_threads_idle {St} (impl : MemcpyImpl St) schedule threads st m :
  Forall (fun calls => calls = []) threads ->
  run_threads impl schedule threads st m = Some (st, m).
Proof.
  intros Hidle. induction schedule as [|k schedule IH]; cbn [run_threads].
  - replace (forallb _ threads) with true; [done|].
    symmetry. apply forallb_forall. intros calls Hcalls%list_elem_of_In.
    apply bool_decide_eq_true. by eapply Forall_forall in Hidle.
  - destruct (threads !! k) as [[|c calls]|] eqn:Hk; try done.
    eapply Forall_lookup_1 in Hidle; [|exact Hk]. done.
Qed.

(** X20: [test] without work, that is with 0 iterations or 0 threads, calls
    no implementation and leaves memory as it is; on the buffers as [main]
    fills them, of 2 bytes or more, the validation then throws
    [std::logic_error].  The default number of iterations of [main] is 0
    for every [size] above 10000000000, and above 1000000000 with the first
    distribution; for [size = 0] its division has divisor 0. *)
Theorem test_without_work_throws {St} (impl : MemcpyImpl St)
    chunks schedule st m dst src size iterations num_threads
    generator_variant :
  2 <= size ->
  iterations = 0%nat \/ num_threads = 0 ->
  test impl chunks schedule st (fill_buffers m dst src size) dst src size
       iterations num_threads
  = Some (st, fill_buffers m dst src size, Incorrect_result) /\
  (10000000000 < size -> default_iterations size generator_variant = Some 0) /\
  (1000000000 < size -> default_iterations size 1 = Some 0) /\
  default_iterations 0 generator_variant = None.
Proof.
  intros Hsize Hidle. split.
  - unfold test.
    assert (exists threads,
              mapM (fun thread_num =>
                      thread_calls chunks 0 iterations dst src
                        (thread_begin size num_threads (Z.of_nat thread_num))
                        (thread_end size num_threads (Z.of_nat thread_num)))
                   (seq 0 (Z.to_nat num_threads)) = Some threads /\
              Forall (fun calls => calls = []) threads)
      as (threads & -> & Hthreads).
    { destruct Hidle as [-> | ->].
      - exists (replicate (Z.to_nat num_threads) []). split.
        + apply mapM_Some_2. generalize 0%nat at 2.
          induction (Z.to_nat num_threads) as [|n IH]; intros k; cbn;
            by constructor.
        + by apply Forall_replicate.
      - by exists []. }
    rewrite run_threads_idle by done.
    rewrite (validation_fails _ dst size 1); [done|lia|].
    by rewrite fill_buffers_destination by lia.
  - unfold default_iterations. split_and!.
    + intros Hbig. destruct (Z.eqb_spec size 0); [lia|].
      rewrite (Z.div_small 10000000000 size) by lia.
      by destruct (generator_variant =? 1).
    + intros Hbig. destruct (Z.eqb_spec size 0); [lia|].
      cbn [Z.eqb Pos.eqb]. f_equal.
      apply Z.div_small. split; [apply Z.div_pos; lia|].
      apply Z.div_lt_upper_bound; lia.
    + done.
Qed.

Lemma test_without_work_throws_witness :
  test trivial_impl [7; 0; 300] [0; 1; 0]%nat ()
       (fill_buffers zero_memory 5000 100 10) 5000 100 10 0 2
  = Some ((), fill_buffers zero_memory 5000 100 10, Incorrect_result).
Proof.
  apply (test_without_work_throws trivial_impl [7; 0; 300] [0; 1; 0]%nat ()
           zero_memory 5000 100 10 0 2 4); [lia|by left].
Defined.

(** ** The kernels written in assembly *)

Lemma load_agrees m m0 a n :
  (forall i, 0 <= i < Z.of_nat n -> m (a + i) = m0 (a + i)) ->
  load m a n = load m0 a n.
Proof.
  intros Hsame. unfold load. apply list_fmap_ext.
  intros k i Hi. apply lookup_seq in Hi as [-> Hi]. apply Hsame. lia.
Qed.

(** Storing bytes that were loaded from the source while it held its
    original contents. *)
Lemma partial_copy_store m0 m1 m dst src size P off (n : nat) :
  no_overlap dst src size ->
  partial_copy m0 m dst src size P ->
  partial_copy m0 m1 dst src size (fun _ => False) ->
  0 <= off -> off + Z.of_nat n <= size ->
  partial_copy m0 (store m (dst + off) (load m1 (src + off) n)) dst src size
    (fun i => P i \/ off <= i < off + Z.of_nat n).
Proof.
  intros Hdis Hpc [Hout1 _] Hoff Hn.
  assert (load m1 (src + off) n = load m (src + off) n) as ->.
  { destruct Hpc as [Hout _]. apply load_agrees. intros i Hi.
    rewrite Hout1, Hout; [done|..]; unfold no_overlap in *; lia. }
  by apply (partial_copy_block m0 m dst src size P off n).
Qed.

(** What the prologue leaves in the registers: [dst], [src] and [size] are
    moved to the next multiple of the vector size. *)
Lemma prologue_registers n dst :
  0 < n < 64 ->
  let align := 2 ^ n in
  let r8 := size_t (Z.land dst (align - 1) - align) in
  let padding := align - dst mod align in
  0 < padding <= align /\
  Z.land (dst + padding) (align - 1) = 0 /\
  (forall x, 0 <= x -> x + align < 2 ^ 64 -> size_t (x - r8) = x + padding) /\
  (forall x, align <= x < 2 ^ 64 -> size_t (x + r8) = x - padding).
Proof.
  intros Hn align r8 padding. subst r8 padding.
  assert (0 < align) by (apply Z.pow_pos_nonneg; lia).
  assert (align < 2 ^ 64) by (apply Z.pow_lt_mono_r; lia).
  unfold align. rewrite !land_ones_mod by lia. fold align.
  pose proof (Z.mod_pos_bound dst align ltac:(lia)) as Hr.
  assert (size_t (dst mod align - align)
          = 2 ^ 64 + dst mod align - align) as ->.
  { unfold size_t. symmetry. apply (Z.mod_unique_pos _ _ (-1)); lia. }
  split; [lia|]. split; [|split].
  - rewrite (Z.div_mod dst align) at 1 by lia.
    replace (align * (dst / align) + dst mod align
             + (align - dst mod align))
      with ((dst / align + 1) * align) by lia.
    apply Z_mod_mult.
  - intros. unfold size_t. symmetry. apply (Z.mod_unique_pos _ _ (-1)); lia.
  - intros. unfold size_t. symmetry. apply (Z.mod_unique_pos _ _ 1); lia.
Qed.

Lemma forward_loop_partial n (block : nat) m0 dst src size :
  0 < n -> Z.of_nat block mod 2 ^ n = 0 -> (0 < block)%nat ->
  no_overlap dst src size ->
  0 <= dst -> dst + size < 2 ^ 64 -> 0 <= src -> src + size < 2 ^ 64 ->
  forall fuel m off (P : Z -> Prop),
  partial_copy m0 m dst src size P ->
  0 <= off -> off + Z.of_nat block <= size ->
  size - off <= Z.of_nat fuel ->
  Z.land (dst + off) (2 ^ n - 1) = 0 ->
  exists m' off',
    Asm.forward_loop (2 ^ n) block fuel m (dst + off) (src + off)
                     (size - off)
    = Some (m', dst + off', src + off', size - off') /\
    off < off' <= size /\ size - off' <= Z.of_nat block /\
    partial_copy m0 m' dst src size (fun i => P i \/ off <= i < off').
Proof.
  intros Hn Hblock Hpos Hdis Hdst Hdst' Hsrc Hsrc'.
  induction fuel as [|fuel IH]; intros m off P Hpc Hoff Hfits Hfuel Hal;
    cbn [Asm.forward_loop]; [lia|].
  rewrite Hal. cbn [Z.eqb].
  rewrite (size_t_small (src + off + Z.of_nat block))
    by (unfold is_size_t; lia).
  rewrite (size_t_small (size - off - Z.of_nat block))
    by (unfold is_size_t; lia).
  rewrite (size_t_small (dst + off + Z.of_nat block))
    by (unfold is_size_t; lia).
  pose proof (partial_copy_block m0 m dst src size P off block Hdis Hpc
                Hoff Hfits) as Hpc1.
  destruct (Z.ltb_spec (Z.of_nat block) (size - off - Z.of_nat block)).
  - destruct (IH (copy_block m (dst + off) (src + off) block)
                (off + Z.of_nat block)
                (fun i => P i \/ off <= i < off + Z.of_nat block))
      as (m' & off' & Hm' & Hoff' & Hrest & Hpc'); [done|lia|lia|lia| |].
    { rewrite land_ones_mod in * by lia.
      replace (dst + (off + Z.of_nat block))
        with (dst + off + Z.of_nat block) by lia.
      rewrite Z.add_mod, Hal, Hblock by lia. done. }
    exists m', off'. split; [|split; [lia|split; [lia|]]].
    + rewrite <- Hm'. f_equal; lia.
    + eapply partial_copy_weaken; [|exact Hpc'].
      intros i Hi [?|?]; [tauto|]. lia.
  - exists (copy_block m (dst + off) (src + off) block),
           (off + Z.of_nat block).
    split; [by rewrite !Z.add_assoc, Z.sub_add_distr|].
    split; [lia|]. split; [lia|done].
Qed.

(** The kernels that load the ends first and store them last. *)
Lemma ends_first_copies n (block : nat) (kernel : option (memory * Z))
    m dst src size :
  0 < n < 64 -> Z.of_nat block mod 2 ^ n = 0 -> (0 < block)%nat ->
  Z.of_nat block + 2 ^ n <= size ->
  0 <= dst -> dst + size < 2 ^ 64 -> 0 <= src -> src + size < 2 ^ 64 ->
  no_overlap dst src size ->
  (let fuel := Z.to_nat size in
   let first := load m src (Z.to_nat (2 ^ n)) in
   let last := load m (size_t (src + size - Z.of_nat block)) block in
   let r11 := dst in
   let rcx := size_t (dst + size - 2 ^ n) in
   let r8 := size_t (Z.land dst (2 ^ n - 1) - 2 ^ n) in
   kernel
   = match Asm.forward_loop (2 ^ n) block fuel m (size_t (dst - r8))
             (size_t (src - r8)) (size_t (size + r8)) with
     | None => None
     | Some (m, _, _, _) =>
         Some (store (store m (size_t (rcx - (Z.of_nat block - 2 ^ n))) last)
                     r11 first, dst)
     end) ->
  exists m',
    kernel = Some (m', dst) /\
    copied m m' dst src size /\ unchanged_outside m m' dst size.
Proof.
  intros Hn Hblock Hpos Hsize Hdst Hdst' Hsrc Hsrc' Hdis ->.
  assert (0 < 2 ^ n) by (apply Z.pow_pos_nonneg; lia).
  destruct (prologue_registers n dst Hn) as (Hpad & Hal & Hsub & Hadd).
  set (padding := 2 ^ n - dst mod 2 ^ n) in *.
  rewrite !Hsub, Hadd by lia.
  rewrite (size_t_small (src + size - Z.of_nat block))
    by (unfold is_size_t; lia).
  rewrite (size_t_small (dst + size - 2 ^ n)) by (unfold is_size_t; lia).
  rewrite (size_t_small (dst + size - 2 ^ n - (Z.of_nat block - 2 ^ n)))
    by (unfold is_size_t; lia).
  destruct (forward_loop_partial n block m dst src size (proj1 Hn) Hblock
              Hpos Hdis Hdst Hdst' Hsrc Hsrc' (Z.to_nat size) m padding
              (fun _ => False) (partial_copy_start m dst src size))
    as (m1 & off & -> & Hoff & Hrest & Hpc); [lia|lia|lia|done|].
  eexists. split; [done|].
  pose proof (partial_copy_store m m m1 dst src size _
                (size - Z.of_nat block) block Hdis Hpc
                (partial_copy_start m dst src size)) as Hpc1.
  replace (dst + size - 2 ^ n - (Z.of_nat block - 2 ^ n))
    with (dst + (size - Z.of_nat block)) by lia.
  replace (src + size - Z.of_nat block)
    with (src + (size - Z.of_nat block)) by lia.
  specialize (Hpc1 ltac:(lia) ltac:(lia)).
  pose proof (partial_copy_store m m _ dst src size _ 0 (Z.to_nat (2 ^ n))
                Hdis Hpc1 (partial_copy_start m dst src size)) as Hpc2.
  rewrite !Z.add_0_r in Hpc2. specialize (Hpc2 ltac:(lia) ltac:(lia)).
  eapply partial_copy_finish; [|exact Hpc2]. cbv beta. intros i Hi. lia.
Qed.

(** The kernel that stores the first vector first and loads the last ones
    last. *)
Lemma ends_last_copies n (block : nat) (kernel : option (memory * Z))
    m dst src size :
  0 < n < 64 -> Z.of_nat block mod 2 ^ n = 0 -> (0 < block)%nat ->
  Z.of_nat block + 2 ^ n <= size ->
  0 <= dst -> dst + size < 2 ^ 64 -> 0 <= src -> src + size < 2 ^ 64 ->
  no_overlap dst src size ->
  (let fuel := Z.to_nat size in
   let m1 := store m dst (load m src (Z.to_nat (2 ^ n))) in
   let rcx := size_t (dst + size - 2 ^ n) in
   let r8 := size_t (Z.land dst (2 ^ n - 1) - 2 ^ n) in
   kernel
   = match Asm.forward_loop (2 ^ n) block fuel m1 (size_t (dst - r8))
             (size_t (src - r8)) (size_t (size + r8)) with
     | None => None
     | Some (m, _, src, size) =>
         Some (store m (size_t (rcx - (Z.of_nat block - 2 ^ n)))
                     (load m (size_t (src + size - Z.of_nat block)) block),
               dst)
     end) ->
  exists m',
    kernel = Some (m', dst) /\
    copied m m' dst src size /\ unchanged_outside m m' dst size.
Proof.
  intros Hn Hblock Hpos Hsize Hdst Hdst' Hsrc Hsrc' Hdis ->.
  assert (0 < 2 ^ n) by (apply Z.pow_pos_nonneg; lia).
  destruct (prologue_registers n dst Hn) as (Hpad & Hal & Hsub & Hadd).
  set (padding := 2 ^ n - dst mod 2 ^ n) in *.
  rewrite !Hsub, Hadd by lia.
  rewrite (size_t_small (dst + size - 2 ^ n)) by (unfold is_size_t; lia).
  rewrite (size_t_small (dst + size - 2 ^ n - (Z.of_nat block - 2 ^ n)))
    by (unfold is_size_t; lia).
  pose proof (partial_copy_store m m m dst src size _ 0 (Z.to_nat (2 ^ n))
                Hdis (partial_copy_start m dst src size)
                (partial_copy_start m dst src size)) as Hpc0.
  rewrite !Z.add_0_r in Hpc0. specialize (Hpc0 ltac:(lia) ltac:(lia)).
  destruct (forward_loop_partial n block m dst src size (proj1 Hn) Hblock
              Hpos Hdis Hdst Hdst' Hsrc Hsrc' (Z.to_nat size) _ padding
              _ Hpc0)
    as (m1 & off & -> & Hoff & Hrest & Hpc); [lia|lia|lia|done|].
  eexists. split; [done|].
  replace (src + off + (size - off) - Z.of_nat block)
    with (src + (size - Z.of_nat block)) by lia.
  rewrite (size_t_small (src + (size - Z.of_nat block)))
    by (unfold is_size_t; lia).
  replace (dst + size - 2 ^ n - (Z.of_nat block - 2 ^ n))
    with (dst + (size - Z.of_nat block)) by lia.
  pose proof (partial_copy_block m m1 dst src size _
                (size - Z.of_nat block) block Hdis Hpc) as Hpc1.
  specialize (Hpc1 ltac:(lia) ltac:(lia)).
  eapply partial_copy_finish; [|exact Hpc1]. cbv beta. intros i Hi. lia.
Qed.

(** X21: each of [memcpy_medium_avx_forward], [memcpy_medium_avx_forward2]
    and [memcpy_medium_sse_forward], called with at least one block and one
    vector to copy (160, 288 and 80 bytes) between buffers that lie in the
    address space and do not overlap: the loop stops, no aligned store
    faults whatever the alignment of the destination, the [size] bytes of
    the source are at the destination, no other byte has changed, and
    [destination] is returned. *)
Theorem memcpy_medium_forward_copies m dst src size :
  0 <= dst -> dst + size < 2 ^ 64 -> 0 <= src -> src + size < 2 ^ 64 ->
  no_overlap dst src size ->
  Forall (fun '(kernel, least) =>
    least <= size ->
    exists m',
      kernel m dst src size = Some (m', dst) /\
      copied m m' dst src size /\ unchanged_outside m m' dst size)
    [(Asm.memcpy_medium_avx_forward, 160);
     (Asm.memcpy_medium_avx_forward2, 288);
     (Asm.memcpy_medium_sse_forward, 80)].
Proof.
  intros Hdst Hdst' Hsrc Hsrc' Hdis.
  constructor; [|constructor; [|constructor; [|constructor]]].
  - intros Hsize.
    apply (ends_first_copies 5 128); try done; lia.
  - intros Hsize.
    apply (ends_last_copies 5 256); try done; lia.
  - intros Hsize.
    apply (ends_first_copies 4 64); try done; lia.
Qed.

Lemma memcpy_medium_forward_copies_witness :
  exists m',
    Asm.memcpy_medium_avx_forward patterned_memory 5003 100 300
    = Some (m', 5003) /\
    copied patterned_memory m' 5003 100 300.
Proof.
  destruct (Forall_inv (memcpy_medium_forward_copies patterned_memory
                          5003 100 300 ltac:(lia) ltac:(lia) ltac:(lia)
                          ltac:(lia) ltac:(right; lia)))
    as (m' & Hm' & Hcopied & _); [lia|].
  exists m'. split; [exact Hm'|exact Hcopied].
Defined.
